(** * Minimongo field projections: a shallow embedding of
      [projection.js] (compileProjection, projectionDetails, pathsToTree,
      _checkSupportedProjection) and of the classification helpers
      (isArray, isPlainObject, isIndexable, isOperatorObject,
      isNumericKey).

    Documents are modelled twice.  Part I is a value model: a document is
    a finite tree and the compiled projection is a function on such trees;
    deep equality of documents is equality of the trees.  Part II is a
    store model: objects live at locations of a heap and property values
    are references, so that sharing between the input and the output of a
    compiled projection can be observed. *)

From Stdlib Require Import List String Ascii ZArith Bool Arith Lia.
From Stdlib Require Import DecimalString Permutation Sorted OrderedTypeEx.
Import ListNotations.
Open Scope string_scope.

Set Implicit Arguments.

(* ================================================================== *)
(** * Part I.  Values *)
(* ================================================================== *)

(** JavaScript values as far as documents and projection specifications
    use them.  Numbers are integers here: the code only compares them with
    the literals [1] and [0] and tests their truthiness.  An object is the
    list of its own enumerable properties in the order [_.each] visits
    them, an array the list of its elements.  A new property goes to the
    end of the list; JavaScript visits keys that are array indices first,
    which changes the order of the properties of a result and nothing
    else.  Strings are compared byte by byte, as [sort] compares code
    units.  [VDate] stands for the built-in objects that are neither
    arrays nor plain documents. *)
#[local] Unset Elimination Schemes.
Inductive value : Type :=
| VUndefined
| VNull
| VBool (b : bool)
| VNum (n : Z)
| VStr (s : string)
| VDate (ms : Z)
| VArr (elems : list value)
| VObj (props : list (string * value)).
#[local] Set Elimination Schemes.

(** Nested induction: the elements of an array and the property values of
    an object satisfy the predicate. *)
Section value_induction.
Variable P : value -> Prop.
Hypothesis Hundef : P VUndefined.
Hypothesis Hnull : P VNull.
Hypothesis Hbool : forall b, P (VBool b).
Hypothesis Hnum : forall n, P (VNum n).
Hypothesis Hstr : forall s, P (VStr s).
Hypothesis Hdate : forall ms, P (VDate ms).
Hypothesis Harr : forall elems, Forall P elems -> P (VArr elems).
Hypothesis Hobj :
  forall props, Forall (fun kv => P (snd kv)) props -> P (VObj props).

Fixpoint value_nested_ind (v : value) : P v :=
  match v with
  | VUndefined => Hundef
  | VNull => Hnull
  | VBool b => Hbool b
  | VNum n => Hnum n
  | VStr s => Hstr s
  | VDate ms => Hdate ms
  | VArr elems =>
      Harr ((fix all (l : list value) : Forall P l :=
               match l with
               | [] => Forall_nil P
               | x :: l' => Forall_cons x (value_nested_ind x) (all l')
               end) elems)
  | VObj props =>
      Hobj ((fix all (l : list (string * value))
               : Forall (fun kv => P (snd kv)) l :=
               match l with
               | [] => Forall_nil _
               | kv :: l' =>
                   Forall_cons kv (value_nested_ind (snd kv)) (all l')
               end) props)
  end.
End value_induction.

(** ** Property lists *)

Section assoc.
Variable A : Type.

(** [o[k]] on the own properties: the first binding of [k]. *)
Fixpoint assoc_get (k : string) (l : list (string * A)) : option A :=
  match l with
  | [] => None
  | (k', a) :: l' => if String.eqb k k' then Some a else assoc_get k l'
  end.

(** [o[k] = a]: an existing property keeps its place, a new one goes
    last. *)
Fixpoint assoc_set (k : string) (a : A) (l : list (string * A))
  : list (string * A) :=
  match l with
  | [] => [(k, a)]
  | (k', a') :: l' =>
      if String.eqb k k' then (k, a) :: l' else (k', a') :: assoc_set k a l'
  end.

(** [delete o[k]]. *)
Fixpoint assoc_del (k : string) (l : list (string * A))
  : list (string * A) :=
  match l with
  | [] => []
  | (k', a') :: l' =>
      if String.eqb k k' then assoc_del k l' else (k', a') :: assoc_del k l'
  end.

Definition assoc_has (k : string) (l : list (string * A)) : bool :=
  match assoc_get k l with Some _ => true | None => false end.

Definition keys_of (l : list (string * A)) : list string := map fst l.
End assoc.

(** ** The primitives of the language and of underscore

    [underscore] is a dependency of the repository, not part of it; its
    functions are modelled by their documented results on the values
    above.  [_.keys] on an object gives its own enumerable properties, in
    the order of the list, and so does [_.each], unless the object looks
    like an array (see [visited]); [_.has] is null-safe. *)

Definition index_key (i : nat) : string :=
  NilZero.string_of_uint (Nat.to_uint i).

Fixpoint indexed (A : Type) (i : nat) (l : list A) : list (string * A) :=
  match l with
  | [] => []
  | a :: l' => (index_key i, a) :: indexed (S i) l'
  end.

Fixpoint chars (s : string) : list value :=
  match s with
  | EmptyString => []
  | String c s' => VStr (String c EmptyString) :: chars s'
  end.

(** The own properties [hasOwnProperty] sees.  Arrays and strings own
    their indices and [length]; a date owns nothing. *)
Definition own_props (v : value) : list (string * value) :=
  match v with
  | VObj props => props
  | VArr elems =>
      indexed 0 elems ++ [("length", VNum (Z.of_nat (List.length elems)))]
  | VStr s =>
      indexed 0 (chars s) ++ [("length", VNum (Z.of_nat (String.length s)))]
  | _ => []
  end.

(** [_.has(obj, key)]: [obj != null && hasOwnProperty.call(obj, key)]. *)
Definition has (obj : value) (key : string) : bool :=
  assoc_has key (own_props obj).

(** [obj[key]] for an own property; [undefined] when there is none. *)
Definition get (obj : value) (key : string) : value :=
  match assoc_get key (own_props obj) with
  | Some v => v
  | None => VUndefined
  end.

(** [obj[key] = v].  Only objects take new properties; the assignment is
    ignored on a primitive. *)
Definition set (obj : value) (key : string) (v : value) : value :=
  match obj with
  | VObj props => VObj (assoc_set key v props)
  | _ => obj
  end.

(** [delete obj[key]]. *)
Definition delete (obj : value) (key : string) : value :=
  match obj with
  | VObj props => VObj (assoc_del key props)
  | _ => obj
  end.

Definition isUndefined (v : value) : bool :=
  match v with VUndefined => true | _ => false end.

(** [_.isArray]. *)
Definition _isArray (v : value) : bool :=
  match v with VArr _ => true | _ => false end.

(** [_.isObject]: every value that is not a primitive. *)
Definition isObject (v : value) : bool :=
  match v with
  | VDate _ | VArr _ | VObj _ => true
  | _ => false
  end.

(** [typeof v === 'object'], which holds of [null] too. *)
Definition typeof_object (v : value) : bool :=
  match v with
  | VNull | VDate _ | VArr _ | VObj _ => true
  | _ => false
  end.

(** [!!v]. *)
Definition truthy (v : value) : bool :=
  match v with
  | VUndefined | VNull => false
  | VBool b => b
  | VNum n => negb (Z.eqb n 0)
  | VStr s => negb (String.eqb s "")
  | VDate _ | VArr _ | VObj _ => true
  end.

(** [a === b] when one side is a primitive literal: objects are never
    identical to a literal. *)
Definition strict_eq (a b : value) : bool :=
  match a, b with
  | VUndefined, VUndefined => true
  | VNull, VNull => true
  | VBool x, VBool y => Bool.eqb x y
  | VNum x, VNum y => Z.eqb x y
  | VStr x, VStr y => String.eqb x y
  | _, _ => false
  end.

(** [_.keys]: no keys for a primitive. *)
Definition keys (v : value) : list string :=
  match v with
  | VObj props => keys_of props
  | VArr elems => keys_of (indexed 0 elems)
  | _ => []
  end.

(** [_.contains] on an array of strings. *)
Definition contains (l : list string) (s : string) : bool :=
  existsb (String.eqb s) l.

(** [_.intersection] of two arrays of strings. *)
Definition intersection (l1 l2 : list string) : list string :=
  filter (contains l2) l1.

(** ** Errors *)

(** [MinimongoError(msg)], the [Error] of [isOperatorObject], whose
    message quotes the offending selector, and the [TypeError] of the
    language for a call of a method that a value does not have. *)
Inductive error : Type :=
| MinimongoError (msg : string)
| InconsistentOperator (valueSelector : value)
| TypeError (msg : string).

Inductive result (A : Type) : Type :=
| Ok (a : A)
| Throw (e : error).
Arguments Throw {A} e.

Definition bind (A B : Type) (r : result A) (f : A -> result B) : result B :=
  match r with
  | Ok a => f a
  | Throw e => Throw e
  end.

Notation "x <- r ;; k" := (bind r (fun x => k))
  (at level 61, r at next level, right associativity).
Notation "r ;;; k" := (bind r (fun _ => k))
  (at level 61, right associativity).

(** [_.each(list, f)] for an [f] that may throw, threading the variables
    [f] assigns as a state [S]. *)
Fixpoint each (A S : Type) (f : S -> A -> result S) (l : list A) (s : S)
  : result S :=
  match l with
  | [] => Ok s
  | a :: l' => s' <- f s a ;; each f l' s'
  end.

(** [_.each] and array-like objects.  underscore tells a list from an
    object by its [length]: an object whose [length] is a number is
    visited by index, from [0] to [length - 1], and its own properties
    are not.  The versions of underscore differ on a [length] that is
    negative or above [MAX_ARRAY_INDEX], which is [2^53 - 1], and on
    those only: the versions from 1.8 on, followed here, visit the own
    properties then ([isArrayLike]), the earlier ones loop while the
    index is below [length]. *)
Definition MAX_ARRAY_INDEX : Z := 9007199254740991.

Definition array_like_length (obj : value) : option Z :=
  match obj with
  | VObj props =>
      match assoc_get "length" props with
      | Some (VNum n) =>
          if (0 <=? n)%Z && (n <=? MAX_ARRAY_INDEX)%Z then Some n else None
      | _ => None
      end
  | _ => None
  end.

(** The pairs [(key, value)] that [_.each(obj, function (value, key) ...)]
    passes to its function for an object [obj]: indices, which are
    numbers, for an array-like object, and the names of the own
    properties otherwise. *)
Definition visited (obj : value) : list (value * value) :=
  match array_like_length obj with
  | Some n =>
      map (fun i => (VNum (Z.of_nat i), get obj (index_key i)))
          (seq 0 (Z.to_nat n))
  | None => map (fun kv => (VStr (fst kv), snd kv)) (own_props obj)
  end.

(** ** Strings: [split], [join] and [sort] *)

(** [s.split(sep)] for a one-character separator: always at least one
    segment. *)
Fixpoint split (sep : ascii) (s : string) : list string :=
  match s with
  | EmptyString => [EmptyString]
  | String c s' =>
      if Ascii.eqb c sep then EmptyString :: split sep s'
      else match split sep s' with
           | seg :: segs => String c seg :: segs
           | [] => [String c EmptyString]
           end
  end.

Definition dot : ascii := "."%char.

(** [arr.join('.')]. *)
Definition join (segs : list string) : string := String.concat "." segs.

(** [arr.sort()] with the default comparison, which orders strings by
    their code units. *)
Fixpoint insert_sorted (s : string) (l : list string) : list string :=
  match l with
  | [] => [s]
  | x :: l' => if String.leb s x then s :: l else x :: insert_sorted s l'
  end.

Fixpoint sort (l : list string) : list string :=
  match l with
  | [] => []
  | s :: l' => insert_sorted s (sort l')
  end.

(* ================================================================== *)
(** * The path tree builder *)
(* ================================================================== *)

(** A tree as [pathsToTree] builds it: nested objects whose other
    properties are the scalars [newLeafFn] returned. *)
#[local] Unset Elimination Schemes.
Inductive tree (A : Type) : Type :=
| Leaf (a : A)
| Node (children : list (string * tree A)).
#[local] Set Elimination Schemes.

Section tree_induction.
Variable A : Type.
Variable P : tree A -> Prop.
Hypothesis Hleaf : forall a, P (Leaf a).
Hypothesis Hnode :
  forall children, Forall (fun kt => P (snd kt)) children ->
                   P (Node children).

Fixpoint tree_nested_ind (t : tree A) : P t :=
  match t with
  | Leaf a => Hleaf a
  | Node children =>
      Hnode ((fix all (l : list (string * tree A))
                : Forall (fun kt => P (snd kt)) l :=
                match l with
                | [] => Forall_nil _
                | kt :: l' =>
                    Forall_cons kt (tree_nested_ind (snd kt)) (all l')
                end) children)
  end.
End tree_induction.

Section pathsToTree.
Variable A : Type.
Variable newLeafFn : string -> A.
Variable conflictFn : tree A -> string -> string -> result (tree A).

(** [treePos[key] = t] on a node of the tree.  The nodes are plain
    objects, [{}] with the properties the walk gave it.  On such an object
    the key [__proto__] is the accessor it inherits: as long as the object
    has no own property of that name, the assignment goes to the setter,
    which changes the prototype when [t] is an object and does nothing
    otherwise, and the object gets no own property; [_.has], [_.keys] and
    [_.each] do not see what the prototype holds. *)
Definition tree_assign (key : string) (t : tree A)
           (treePos : list (string * tree A)) : list (string * tree A) :=
  if String.eqb key "__proto__" && negb (assoc_has key treePos)
  then treePos
  else assoc_set key t treePos.

(** The body of the loop over one [keyPath].  [treePos] is the object
    the walk stands on; [seen] are the segments already walked and
    [inner] those of [pathArr.slice(0, -1)] still to walk, so that
    [pathArr.slice(0, idx + 1)] is [seen ++ [key]].  The updated object
    is passed back to the parent, which the code reaches through the
    reference it holds.  A conflict resolved to a scalar ends the walk
    ([success] false) and leaves the rest of the path out.  After
    [treePos[key] = {}] for a new [key] the walk goes on in the new
    object; for the key [__proto__] that object is the new prototype of
    [treePos], and what the rest of the walk puts there is no property
    of the tree. *)
Fixpoint walk (keyPath lastKey : string) (seen inner : list string)
         (treePos : list (string * tree A))
  : result (list (string * tree A)) :=
  match inner with
  | [] =>
      match assoc_get lastKey treePos with
      | None => Ok (tree_assign lastKey (Leaf (newLeafFn keyPath)) treePos)
      | Some old =>
          r <- conflictFn old keyPath keyPath ;;
          Ok (tree_assign lastKey r treePos)
      end
  | key :: rest =>
      match assoc_get key treePos with
      | None =>
          sub <- walk keyPath lastKey (seen ++ [key]) rest [] ;;
          Ok (tree_assign key (Node sub) treePos)
      | Some (Node children) =>
          sub <- walk keyPath lastKey (seen ++ [key]) rest children ;;
          Ok (tree_assign key (Node sub) treePos)
      | Some (Leaf a) =>
          r <- conflictFn (Leaf a) (join (seen ++ [key])) keyPath ;;
          match r with
          | Node children =>
              sub <- walk keyPath lastKey (seen ++ [key]) rest children ;;
              Ok (tree_assign key (Node sub) treePos)
          | Leaf _ => Ok (tree_assign key r treePos)
          end
      end
  end.

Definition add_path (root : list (string * tree A)) (keyPath : string)
  : result (list (string * tree A)) :=
  let pathArr := split dot keyPath in
  walk keyPath (last pathArr "") [] (removelast pathArr) root.

(** [pathsToTree(paths, newLeafFn, conflictFn, tree)]; the optional
    [tree], here [root], defaults to the empty object. *)
Definition pathsToTree (paths : list string)
           (root : list (string * tree A))
  : result (list (string * tree A)) :=
  each add_path paths root.
End pathsToTree.

(* ================================================================== *)
(** * The projection compiler *)
(* ================================================================== *)

Definition msg_not_object : string := "fields option must be an object".
Definition msg_dollar : string :=
  "Minimongo doesn't support $ operator in projections yet.".
Definition msg_operators : string :=
  "Minimongo doesn't support operators in projections yet.".
Definition msg_value : string :=
  "Projection values should be one of 1, 0, true, or false".
Definition msg_mixed : string :=
  "You cannot currently mix including and excluding fields.".
Definition msg_both (currentPath anotherPath : string) : string :=
  "both " ++ currentPath ++ " and " ++ anotherPath ++
  " found in fields option, using both of them may trigger " ++
  "unexpected behavior. Did you mean to use only one of them?".

(** The body of the loop of [_checkSupportedProjection] for one
    property, [keyPath] a string. *)
Definition check_entry (kv : string * value) : result unit :=
  let (keyPath, val) := kv in
  if contains (split dot keyPath) "$" then
    Throw (MinimongoError msg_dollar)
  else if typeof_object val &&
          (0 <? List.length
                  (intersection ["$elemMatch"; "$meta"; "$slice"] (keys val)))%nat
  then Throw (MinimongoError msg_operators)
  else if negb (existsb (fun lit => strict_eq lit val)
                        [VNum 1; VNum 0; VBool true; VBool false])
  then Throw (MinimongoError msg_value)
  else Ok tt.

(** The function [_.each] calls in [_checkSupportedProjection].  Its
    first statement is [keyPath.split('.')]: a number has no method
    [split]. *)
Definition check_visited (kv : value * value) : result unit :=
  match fst kv with
  | VStr keyPath => check_entry (keyPath, snd kv)
  | _ => Throw (TypeError "keyPath.split is not a function")
  end.

Definition _checkSupportedProjection (fields : value) : result unit :=
  if negb (isObject fields) || _isArray fields then
    Throw (MinimongoError msg_not_object)
  else each (fun _ kv => check_visited kv) (visited fields) tt.

Record details : Type := {
  tree_of : list (string * tree (option bool));
  including : option bool
}.

(** The keys [projectionDetails] works on: the sorted keys, without
    [_id] when it is excluded next to other fields. *)
Definition working_keys (fields : value) : list string :=
  let fieldsKeys := sort (keys fields) in
  if (0 <? List.length fieldsKeys)%nat &&
     negb ((List.length fieldsKeys =? 1)%nat &&
           String.eqb (nth 0 fieldsKeys "") "_id") &&
     negb (contains fieldsKeys "_id" && truthy (get fields "_id"))
  then filter (fun key => negb (String.eqb key "_id")) fieldsKeys
  else fieldsKeys.

(** The loop that fixes [including]; [None] is [null]. *)
Definition mode_step (fields : value) (including : option bool)
           (keyPath : string) : result (option bool) :=
  let rule := truthy (get fields keyPath) in
  let including :=
    match including with None => Some rule | Some _ => including end in
  match including with
  | Some b => if Bool.eqb b rule then Ok including
              else Throw (MinimongoError msg_mixed)
  | None => Ok including
  end.

Definition projection_conflict (node : tree (option bool))
           (path fullPath : string) : result (tree (option bool)) :=
  let currentPath := fullPath in
  let anotherPath := path in
  Throw (MinimongoError (msg_both currentPath anotherPath)).

Definition projectionDetails (fields : value) : result details :=
  let fieldsKeys := working_keys fields in
  including <- each (mode_step fields) fieldsKeys None ;;
  projectionRulesTree <-
    pathsToTree (fun path => including) projection_conflict fieldsKeys [] ;;
  Ok {| tree_of := projectionRulesTree; including := including |}.

(** Modelled from the spec: [EJSON.clone] of the [ejson] package, which is
    not among the sources; the spec takes it as a given deep copy. *)
Fixpoint clone (v : value) : value :=
  match v with
  | VArr elems => VArr (map clone elems)
  | VObj props => VObj (map (fun kv => (fst kv, clone (snd kv))) props)
  | VDate ms => VDate ms
  | _ => v
  end.

(** [details.including ? ... : ...]: [null] is falsy. *)
Definition is_including (d : details) : bool :=
  match including d with Some b => b | None => false end.

Section transform.
Variable d : details.

(** The body of [_.each(ruleTree, function (rule, key) ...)], with the
    recursive call passed in.  A rule tree holds booleans and objects
    under its keys, never a number, so [_.each] visits it by name. *)
Definition rule_step (recur : tree (option bool) -> value -> value)
           (doc res : value) (kr : string * tree (option bool)) : value :=
  let (key, rule) := kr in
  if negb (has doc key) then res
  else match rule with
       | Node _ =>
           if isObject (get doc key)
           then set res key (recur rule (get doc key))
           else res
       | Leaf _ =>
           if is_including d then set res key (clone (get doc key))
           else delete res key
       end.

(** [transform(doc, ruleTree)].  The recursion is on the rule tree, and
    inside one rule tree on the nesting of arrays. *)
Fixpoint transform_at (ruleTree : tree (option bool)) : value -> value :=
  fix on_doc (doc : value) : value :=
    match doc with
    | VArr elems => VArr (map on_doc elems)
    | _ =>
        let res := if is_including d then VObj [] else clone doc in
        match ruleTree with
        | Node children =>
            fold_left (rule_step transform_at doc) children res
        | Leaf _ => res
        end
    end.

Definition transform (doc : value) (ruleTree : tree (option bool)) : value :=
  transform_at ruleTree doc.
End transform.

(** The closure [_compileProjection] returns. *)
Definition compiled (_idProjection : value) (d : details) (obj : value)
  : value :=
  let res := transform d obj (Node (tree_of d)) in
  let res :=
    if truthy _idProjection && has obj "_id"
    then set res "_id" (get obj "_id") else res in
  let res :=
    if negb (truthy _idProjection) && has res "_id"
    then delete res "_id" else res in
  res.

(** [_.isUndefined(fields._id) ? true : fields._id]. *)
Definition id_projection (fields : value) : value :=
  if isUndefined (get fields "_id") then VBool true else get fields "_id".

Definition _compileProjection (fields : value) : result (value -> value) :=
  _checkSupportedProjection fields ;;;
  let _idProjection := id_projection fields in
  d <- projectionDetails fields ;;
  Ok (compiled _idProjection d).

(** Compile, then apply to one document. *)
Definition apply_projection (fields obj : value) : result value :=
  f <- _compileProjection fields ;; Ok (f obj).

(** Modelled from the spec: deep equality of documents, the
    [EJSON.equals] of the [ejson] package, which is not among the sources.
    Objects are compared property by property whatever the order of their
    keys. *)
Fixpoint deep_equal (a b : value) : bool :=
  match a, b with
  | VUndefined, VUndefined => true
  | VNull, VNull => true
  | VBool x, VBool y => Bool.eqb x y
  | VNum x, VNum y => Z.eqb x y
  | VStr x, VStr y => String.eqb x y
  | VDate x, VDate y => Z.eqb x y
  | VArr xs, VArr ys =>
      (fix all (xs ys : list value) : bool :=
         match xs, ys with
         | [], [] => true
         | x :: xs', y :: ys' => deep_equal x y && all xs' ys'
         | _, _ => false
         end) xs ys
  | VObj ps, VObj qs =>
      (fix all (ps : list (string * value)) : bool :=
         match ps with
         | [] => true
         | (k, x) :: ps' =>
             match assoc_get k qs with
             | Some y => deep_equal x y && all ps'
             | None => false
             end
         end) ps
      && (List.length qs =? List.length ps)%nat
  | _, _ => false
  end.

(* ================================================================== *)
(** * The classification helpers *)
(* ================================================================== *)

(** Modelled from the spec: [EJSON.isBinary] of the [ejson] package.  No
    value modelled here is a binary blob. *)
Definition isBinary (x : value) : bool := false.

(** Modelled from the spec: [Selector._f._type] of [selector.js], which is
    not among the sources: the canonical type discriminant, [3] for a
    nested-document object.  The comment on [isPlainObject] records that
    [undefined] gets [3] too. *)
Definition _type (v : value) : Z :=
  match v with
  | VNum _ => 1
  | VStr _ => 2
  | VBool _ => 8
  | VArr _ => 4
  | VNull => 10
  | VDate _ => 9
  | VObj _ => 3
  | VUndefined => 3
  end.

Definition isArray (x : value) : bool :=
  _isArray x && negb (isBinary x).

(** [x && Selector._f._type(x) === 3]: a falsy [x] is returned as it
    is. *)
Definition isPlainObject (x : value) : value :=
  if truthy x then VBool (Z.eqb (_type x) 3) else x.

(** [isArray(x) || isPlainObject(x)]. *)
Definition isIndexable (x : value) : value :=
  if isArray x then VBool true else isPlainObject x.

(** [selKey.substr(0, 1) === '$']. *)
Definition starts_with_dollar (selKey : string) : bool :=
  String.eqb (substring 0 1 selKey) "$".

(** The body of the loop of [isOperatorObject]; [None] is [undefined]. *)
Definition operator_step (valueSelector : value) (inconsistentOK : bool)
           (theseAreOperators : option bool) (kv : string * value)
  : result (option bool) :=
  let thisIsOperator := starts_with_dollar (fst kv) in
  match theseAreOperators with
  | None => Ok (Some thisIsOperator)
  | Some b =>
      if negb (Bool.eqb b thisIsOperator) then
        if negb inconsistentOK
        then Throw (InconsistentOperator valueSelector)
        else Ok (Some false)
      else Ok theseAreOperators
  end.

(** The function [_.each] calls in [isOperatorObject].  Its first
    statement is [selKey.substr(0, 1)]: a number has no method
    [substr]. *)
Definition operator_visited (valueSelector : value) (inconsistentOK : bool)
           (theseAreOperators : option bool) (kv : value * value)
  : result (option bool) :=
  match fst kv with
  | VStr selKey =>
      operator_step valueSelector inconsistentOK theseAreOperators
                    (selKey, snd kv)
  | _ => Throw (TypeError "selKey.substr is not a function")
  end.

Definition isOperatorObject (valueSelector : value) (inconsistentOK : bool)
  : result bool :=
  if negb (truthy (isPlainObject valueSelector)) then Ok false
  else
    theseAreOperators <-
      each (operator_visited valueSelector inconsistentOK)
           (visited valueSelector) None ;;
    Ok (match theseAreOperators with Some b => b | None => false end).

(** A decimal digit, [[0-9]]. *)
Definition is_digit (c : ascii) : bool :=
  (48 <=? nat_of_ascii c)%nat && (nat_of_ascii c <=? 57)%nat.

Fixpoint all_digits (s : string) : bool :=
  match s with
  | EmptyString => true
  | String c s' => is_digit c && all_digits s'
  end.

(** [/^[0-9]+$/.test(s)]: one digit or more, and nothing else. *)
Definition isNumericKey (s : string) : bool :=
  match s with
  | EmptyString => false
  | String _ _ => all_digits s
  end.

(* ================================================================== *)
(** * Part II.  Objects in a store *)
(* ================================================================== *)

(** The same transform with JavaScript's objects as they are: an object,
    an array or a date lives at a location of the heap, and a variable or
    a property holds a primitive or a reference.  Two properties holding
    the same reference share one object, and a write through one is seen
    through the other. *)
Module Store.

Definition loc : Type := nat.

Inductive rvalue : Type :=
| RUndefined
| RNull
| RBool (b : bool)
| RNum (n : Z)
| RStr (s : string)
| RRef (l : loc).

Inductive cell : Type :=
| CDate (ms : Z)
| CArr (elems : list rvalue)
| CObj (props : list (string * rvalue)).

(** A location is an index, and allocation extends the heap. *)
Definition heap : Type := list cell.

(** Computations on the heap.  [None] is a run that does not finish:
    it met a dangling reference or ran out of fuel. *)
Definition M (A : Type) : Type := heap -> option (A * heap).

Definition ret (A : Type) (a : A) : M A := fun h => Some (a, h).

Definition fail (A : Type) : M A := fun _ => None.
Arguments fail {A}.

Definition mbind (A B : Type) (m : M A) (f : A -> M B) : M B :=
  fun h => match m h with
           | Some (a, h') => f a h'
           | None => None
           end.

Notation "x <~ m ;; k" := (mbind m (fun x => k))
  (at level 61, m at next level, right associativity).

Definition reads (A : Type) (f : heap -> A) : M A :=
  fun h => Some (f h, h).

Definition alloc (c : cell) : M rvalue :=
  fun h => Some (RRef (List.length h), (h ++ [c])%list).

Fixpoint replace_nth (A : Type) (n : nat) (a : A) (l : list A) : list A :=
  match l, n with
  | [], _ => []
  | _ :: l', O => a :: l'
  | x :: l', S n' => x :: replace_nth n' a l'
  end.

Definition store (l : loc) (c : cell) : M unit :=
  fun h => Some (tt, replace_nth l c h).

Fixpoint mapM (A B : Type) (f : A -> M B) (l : list A) : M (list B) :=
  match l with
  | [] => ret []
  | a :: l' => b <~ f a ;; bs <~ mapM f l' ;; ret (b :: bs)
  end.

Fixpoint eachM (A : Type) (f : A -> M unit) (l : list A) : M unit :=
  match l with
  | [] => ret tt
  | a :: l' => _ <~ f a ;; eachM f l'
  end.

Definition deref (h : heap) (v : rvalue) : option cell :=
  match v with
  | RRef l => nth_error h l
  | _ => None
  end.

Fixpoint rchars (s : string) : list rvalue :=
  match s with
  | EmptyString => []
  | String c s' => RStr (String c EmptyString) :: rchars s'
  end.

Definition own_props (h : heap) (v : rvalue) : list (string * rvalue) :=
  match v with
  | RStr s =>
      indexed 0 (rchars s) ++ [("length", RNum (Z.of_nat (String.length s)))]
  | _ =>
      match deref h v with
      | Some (CObj props) => props
      | Some (CArr elems) =>
          indexed 0 elems ++ [("length", RNum (Z.of_nat (List.length elems)))]
      | _ => []
      end
  end.

Definition has (h : heap) (obj : rvalue) (key : string) : bool :=
  assoc_has key (own_props h obj).

Definition get (h : heap) (obj : rvalue) (key : string) : rvalue :=
  match assoc_get key (own_props h obj) with
  | Some v => v
  | None => RUndefined
  end.

(** [obj[key] = v] writes into the object [obj] refers to. *)
Definition set (obj : rvalue) (key : string) (v : rvalue) : M unit :=
  fun h =>
    match obj, deref h obj with
    | RRef l, Some (CObj props) => store l (CObj (assoc_set key v props)) h
    | _, _ => ret tt h
    end.

Definition delete (obj : rvalue) (key : string) : M unit :=
  fun h =>
    match obj, deref h obj with
    | RRef l, Some (CObj props) => store l (CObj (assoc_del key props)) h
    | _, _ => ret tt h
    end.

Definition _isArray (h : heap) (v : rvalue) : bool :=
  match deref h v with Some (CArr _) => true | _ => false end.

Definition isObject (v : rvalue) : bool :=
  match v with RRef _ => true | _ => false end.

Definition elems_of (h : heap) (v : rvalue) : list rvalue :=
  match deref h v with Some (CArr elems) => elems | _ => [] end.

(** Modelled from the spec: [EJSON.clone], a deep copy: every object,
    array and date of the copy is newly allocated. *)
Fixpoint clone (fuel : nat) (v : rvalue) : M rvalue :=
  match fuel with
  | O => fail
  | S fuel' =>
      fun h =>
        match v, deref h v with
        | RRef _, Some (CDate ms) => alloc (CDate ms) h
        | RRef _, Some (CArr elems) =>
            (elems' <~ mapM (clone fuel') elems ;;
             alloc (CArr elems')) h
        | RRef _, Some (CObj props) =>
            (ret_ <~ alloc (CObj []) ;;
             _ <~ eachM (fun kv => c <~ clone fuel' (snd kv) ;;
                                   set ret_ (fst kv) c) props ;;
             ret ret_) h
        | RRef _, None => None
        | _, _ => ret v h
        end
  end.

Section transform.
Variable d : details.

(** [transform(doc, ruleTree)] on the heap.  The fuel bounds the
    nesting of calls. *)
Fixpoint transform (fuel : nat) (doc : rvalue)
         (ruleTree : tree (option bool)) : M rvalue :=
  match fuel with
  | O => fail
  | S fuel' =>
      isArr <~ reads (fun h => _isArray h doc) ;;
      if isArr : bool then
        elems <~ reads (fun h => elems_of h doc) ;;
        results <~ mapM (fun subdoc => transform fuel' subdoc ruleTree)
                        elems ;;
        alloc (CArr results)
      else
        res <~ (if is_including d then alloc (CObj [])
                else clone fuel' doc) ;;
        _ <~ eachM
          (fun kr : string * tree (option bool) =>
             let (key, rule) := kr in
             present <~ reads (fun h => has h doc key) ;;
             if negb present then ret tt
             else
               sub <~ reads (fun h => get h doc key) ;;
               match rule with
               | Node _ =>
                   if isObject sub then
                     r <~ transform fuel' sub rule ;;
                     set res key r
                   else ret tt
               | Leaf _ =>
                   if is_including d then
                     c <~ clone fuel' sub ;;
                     set res key c
                   else delete res key
               end)
          (match ruleTree with Node children => children | Leaf _ => [] end) ;;
        ret res
  end.
End transform.

(** The closure [_compileProjection] returns, on the heap.  The
    projection itself was compiled from a specification without
    references: [_idProjection] is one of its literals. *)
Definition compiled (fuel : nat) (_idProjection : value) (d : details)
           (obj : rvalue) : M rvalue :=
  res <~ transform d fuel obj (Node (tree_of d)) ;;
  hasId <~ reads (fun h => has h obj "_id") ;;
  _ <~ (if truthy _idProjection && hasId
        then idv <~ reads (fun h => get h obj "_id") ;;
             set res "_id" idv
        else ret tt) ;;
  resHasId <~ reads (fun h => has h res "_id") ;;
  _ <~ (if negb (truthy _idProjection) && resHasId
        then delete res "_id"
        else ret tt) ;;
  ret res.

(** The document a reference stands for, read off the heap. *)
Fixpoint reify (fuel : nat) (h : heap) (v : rvalue) : option value :=
  match fuel with
  | O => None
  | S fuel' =>
      match v with
      | RUndefined => Some VUndefined
      | RNull => Some VNull
      | RBool b => Some (VBool b)
      | RNum n => Some (VNum n)
      | RStr s => Some (VStr s)
      | RRef l =>
          match nth_error h l with
          | None => None
          | Some (CDate ms) => Some (VDate ms)
          | Some (CArr elems) =>
              option_map VArr
                ((fix all (l : list rvalue) : option (list value) :=
                    match l with
                    | [] => Some []
                    | x :: l' =>
                        match reify fuel' h x, all l' with
                        | Some x', Some l'' => Some (x' :: l'')
                        | _, _ => None
                        end
                    end) elems)
          | Some (CObj props) =>
              option_map VObj
                ((fix all (l : list (string * rvalue))
                    : option (list (string * value)) :=
                    match l with
                    | [] => Some []
                    | (k, x) :: l' =>
                        match reify fuel' h x, all l' with
                        | Some x', Some l'' => Some ((k, x') :: l'')
                        | _, _ => None
                        end
                    end) props)
          end
      end
  end.

(** Compile in the value model, run on the heap. *)
Definition run_projection (fuel : nat) (fields : value) (obj : rvalue)
           (h : heap) : option (rvalue * heap) :=
  match _compileProjection fields, projectionDetails fields with
  | Ok _, Ok d =>
      compiled fuel (id_projection fields) d obj h
  | _, _ => None
  end.

End Store.

(* ================================================================== *)
(** * The vocabulary of the specification *)
(* ================================================================== *)

(** Modelled from the spec: the error kinds of its taxonomy.  The code has
    one constructor, [MinimongoError], and tells the kinds apart by the
    message. *)
Inductive error_kind : Type :=
| InvalidProjectionShapeError
| UnsupportedProjectionOperatorError
| InvalidProjectionValueError
| MixedProjectionModeError
| AmbiguousProjectionPathError
| InconsistentOperatorError.

Definition kind_of (e : error) : option error_kind :=
  match e with
  | InconsistentOperator _ => Some InconsistentOperatorError
  | TypeError _ => None
  | MinimongoError msg =>
      if String.eqb msg msg_not_object then Some InvalidProjectionShapeError
      else if String.eqb msg msg_dollar || String.eqb msg msg_operators
      then Some UnsupportedProjectionOperatorError
      else if String.eqb msg msg_value then Some InvalidProjectionValueError
      else if String.eqb msg msg_mixed then Some MixedProjectionModeError
      else if String.prefix "both " msg then Some AmbiguousProjectionPathError
      else None
  end.

(** A path with a segment equal to the positional operator. *)
Definition dollar_segment (keyPath : string) : Prop :=
  In "$" (split dot keyPath).

(** A path with a segment equal to [__proto__], the key that names no
    property of a node of the tree. *)
Definition proto_segment (keyPath : string) : Prop :=
  In "__proto__" (split dot keyPath).

Definition proto_free (paths : list string) : Prop :=
  forall keyPath, In keyPath paths -> ~ proto_segment keyPath.

(** An object with an own property [length] that holds a number: the
    objects that one version of underscore or another takes for a
    list. *)
Definition numeric_length (obj : value) : bool :=
  match obj with
  | VObj props =>
      match assoc_get "length" props with
      | Some (VNum _) => true
      | _ => false
      end
  | _ => false
  end.

(** An object whose [length] is a positive number. *)
Definition positive_length (obj : value) : bool :=
  match obj with
  | VObj props =>
      match assoc_get "length" props with
      | Some (VNum n) => (0 <? n)%Z
      | _ => false
      end
  | _ => false
  end.

(** A value that is an object with one of the projection operators among
    its keys. *)
Definition operator_value (val : value) : Prop :=
  exists props op,
    val = VObj props /\ In op ["$elemMatch"; "$meta"; "$slice"] /\
    In op (keys_of props).

(** The four accepted literals. *)
Definition literal (val : value) : Prop :=
  val = VNum 1 \/ val = VNum 0 \/ val = VBool true \/ val = VBool false.

(** Keys that mix the operator marker: some begin with ["$"], some do
    not. *)
Definition mixed_keys (props : list (string * value)) : Prop :=
  (exists kv, In kv props /\ starts_with_dollar (fst kv) = true) /\
  (exists kv, In kv props /\ starts_with_dollar (fst kv) = false).

(** A tree whose nodes are objects: no key occurs twice in a node. *)
#[local] Unset Elimination Schemes.
Inductive wf_tree (A : Type) : tree A -> Prop :=
| wf_leaf a : wf_tree (Leaf a)
| wf_node children :
    NoDup (keys_of children) ->
    Forall (fun kt => wf_tree (snd kt)) children ->
    wf_tree (Node children).
#[local] Set Elimination Schemes.

(** What one rule contributes to the result of an inclusive transform:
    the property it sets, if it sets one. *)
Definition pick (recur : tree (option bool) -> value -> value) (doc : value)
           (kr : string * tree (option bool)) : option (string * value) :=
  let (key, rule) := kr in
  if has doc key then
    match rule with
    | Node _ =>
        if isObject (get doc key) then Some (key, recur rule (get doc key))
        else None
    | Leaf _ => Some (key, clone (get doc key))
    end
  else None.

Fixpoint collect (A B : Type) (f : A -> option B) (l : list A) : list B :=
  match l with
  | [] => []
  | a :: l' =>
      match f a with
      | Some b => b :: collect f l'
      | None => collect f l'
      end
  end.

(** [p] is a strict dot-prefix of [q]: the segments of [q] are those of
    [p] followed by at least one more. *)
Definition strict_dot_prefix (p q : string) : Prop :=
  exists suffix, suffix <> [] /\ split dot q = (split dot p ++ suffix)%list.

(** The path [segs] ends on a scalar of the tree. *)
Fixpoint leaf_at (A : Type) (segs : list string)
         (children : list (string * tree A)) : Prop :=
  match segs with
  | [] => False
  | key :: rest =>
      match assoc_get key children with
      | Some (Leaf _) => rest = []
      | Some (Node sub) => leaf_at rest sub
      | None => False
      end
  end.

(** The path [segs] ends in the tree, on a scalar or on an object. *)
Fixpoint occupied (A : Type) (segs : list string)
         (children : list (string * tree A)) : Prop :=
  match segs with
  | [] => True
  | key :: rest =>
      match assoc_get key children with
      | Some (Leaf _) => rest = []
      | Some (Node sub) => occupied rest sub
      | None => False
      end
  end.

(** A property of a specification that validation accepts. *)
Definition accepted (kv : string * value) : Prop :=
  ~ dollar_segment (fst kv) /\ literal (snd kv).

(** The result [transform] starts from. *)
Definition initial_result (d : details) (doc : value) : value :=
  if is_including d then VObj [] else clone doc.

(** A document object, as opposed to an array, a date or a primitive. *)
Definition is_obj (v : value) : bool :=
  match v with VObj _ => true | _ => false end.

(** The keys of an array start with a digit. *)
Definition starts_with_digit (s : string) : bool :=
  match s with
  | String c _ => (48 <=? nat_of_ascii c)%nat && (nat_of_ascii c <=? 57)%nat
  | EmptyString => false
  end.

(** The order of [sort]. *)
Definition le_string (a b : string) : Prop := String.leb a b = true.

(** The property [key] of the result after the rule for [key] has run
    depends on the result before only through that property. *)
Definition after_rule (d : details)
           (recur : tree (option bool) -> value -> value) (doc : value)
           (key : string) (rule : tree (option bool))
           (obj : bool) (before : option value) : option value :=
  if negb (has doc key) then before
  else match rule with
       | Node _ =>
           if isObject (get doc key)
           then (if obj then Some (recur rule (get doc key)) else before)
           else before
       | Leaf _ =>
           if obj then
             (if is_including d then Some (clone (get doc key)) else None)
           else before
       end.

(** The heap of the samples: the document [{_id: {k: 1}, a: 1, b: {k: 1}}]
    at location 2, its [_id] at location 0 and its [b] at location 1. *)
Definition sample_heap : Store.heap :=
  [Store.CObj [("k", Store.RNum 1)];
   Store.CObj [("k", Store.RNum 1)];
   Store.CObj [("_id", Store.RRef 0); ("a", Store.RNum 1);
               ("b", Store.RRef 1)]].

Definition sample_doc : value :=
  VObj [("_id", VObj [("k", VNum 1)]); ("a", VNum 1);
        ("b", VObj [("k", VNum 1)])].

(** ** The store and the documents it holds *)

(** A document whose objects have no key twice, as JavaScript's have. *)
#[local] Unset Elimination Schemes.
Inductive wf_value : value -> Prop :=
| wf_undefined : wf_value VUndefined
| wf_null : wf_value VNull
| wf_bool b : wf_value (VBool b)
| wf_num n : wf_value (VNum n)
| wf_str s : wf_value (VStr s)
| wf_date ms : wf_value (VDate ms)
| wf_arr elems : Forall wf_value elems -> wf_value (VArr elems)
| wf_obj props :
    NoDup (keys_of props) ->
    Forall (fun kv => wf_value (snd kv)) props ->
    wf_value (VObj props).
#[local] Set Elimination Schemes.

(** The nesting of a document. *)
Fixpoint height (doc : value) : nat :=
  match doc with
  | VArr elems => S (fold_right (fun x n => Nat.max (height x) n) 0 elems)
  | VObj props =>
      S (fold_right (fun kv n => Nat.max (height (snd kv)) n) 0 props)
  | _ => 0
  end.

(** Two property lists with the same keys in the same order and related
    values. *)
Definition props_rel (A B : Type) (R : A -> B -> Prop)
  : list (string * A) -> list (string * B) -> Prop :=
  Forall2 (fun ka kb => fst ka = fst kb /\ R (snd ka) (snd kb)).

(** [rep lo hi h doc v]: in the heap [h] the value [v] stands for the
    document [doc], and every location it goes through lies in
    [[lo, hi)]. *)
#[local] Unset Elimination Schemes.
Inductive rep (lo hi : nat) (h : Store.heap) : value -> Store.rvalue -> Prop :=
| rep_undefined : rep lo hi h VUndefined Store.RUndefined
| rep_null : rep lo hi h VNull Store.RNull
| rep_bool b : rep lo hi h (VBool b) (Store.RBool b)
| rep_num n : rep lo hi h (VNum n) (Store.RNum n)
| rep_str s : rep lo hi h (VStr s) (Store.RStr s)
| rep_date l ms :
    lo <= l < hi -> nth_error h l = Some (Store.CDate ms) ->
    rep lo hi h (VDate ms) (Store.RRef l)
| rep_arr l docs elems :
    lo <= l < hi -> nth_error h l = Some (Store.CArr elems) ->
    Forall2 (rep lo hi h) docs elems ->
    rep lo hi h (VArr docs) (Store.RRef l)
| rep_obj l dprops props :
    lo <= l < hi -> nth_error h l = Some (Store.CObj props) ->
    props_rel (rep lo hi h) dprops props ->
    rep lo hi h (VObj dprops) (Store.RRef l).
#[local] Set Elimination Schemes.

(** A result built at [n]: an object sits at [n] itself and what it holds
    lies above [n], so that its properties can be written without touching
    what they hold. *)
Definition fresh_rep (n hi : nat) (h : Store.heap) (doc : value)
           (v : Store.rvalue) : Prop :=
  match doc with
  | VObj dprops =>
      v = Store.RRef n /\ n < hi /\
      exists props,
        nth_error h n = Some (Store.CObj props) /\
        props_rel (rep (S n) hi h) dprops props
  | _ => rep n hi h doc v
  end.

(** [h'] has the cells of [h] below [n] as they were. *)
Definition keeps (n : nat) (h h' : Store.heap) : Prop :=
  List.length h <= List.length h' /\
  forall l, l < n -> nth_error h' l = nth_error h l.

(** The run of [m] from [h] finishes, with a result and a heap that
    satisfy [Q]. *)
Definition returns (A : Type) (m : Store.M A) (h : Store.heap)
           (Q : A -> Store.heap -> Prop) : Prop :=
  exists a h', m h = Some (a, h') /\ Q a h'.

(** The rules a rule tree holds at its root; a scalar holds none. *)
Definition rules_of (ruleTree : tree (option bool))
  : list (string * tree (option bool)) :=
  match ruleTree with Node children => children | Leaf _ => [] end.

(** The body of the loop of [Store.transform] for one rule. *)
Definition store_rule_step (d : details) (fuel' : nat)
           (doc res : Store.rvalue) (kr : string * tree (option bool))
  : Store.M unit :=
  let (key, rule) := kr in
  Store.mbind (Store.reads (fun h => Store.has h doc key))
    (fun present =>
       if negb present then Store.ret tt
       else
         Store.mbind (Store.reads (fun h => Store.get h doc key))
           (fun sub =>
              match rule with
              | Node _ =>
                  if Store.isObject sub then
                    Store.mbind (Store.transform d fuel' sub rule)
                                (fun r => Store.set res key r)
                  else Store.ret tt
              | Leaf _ =>
                  if is_including d then
                    Store.mbind (Store.clone fuel' sub)
                                (fun c => Store.set res key c)
                  else Store.delete res key
              end)).

(** What a run of [Store.transform] under [ruleTree] with [fuel] does:
    from a heap in which [v] stands for a document, and with fuel for the
    nesting of the document, it finishes, keeps the heap it started from,
    and returns in cells of its own the result of the value model. *)
Definition transform_ok (d : details) (fuel : nat)
           (ruleTree : tree (option bool)) : Prop :=
  forall doc, wf_value doc ->
  forall v h lo hi,
    rep lo hi h doc v -> hi <= List.length h ->
    height doc + 1 < fuel ->
    returns (Store.transform d fuel v ruleTree) h
      (fun r h' => keeps (List.length h) h h' /\
                   fresh_rep (List.length h) (List.length h') h'
                             (transform d doc ruleTree) r).

(** ** The vocabulary of the further properties *)

(** The scalar at the end of the path [segs], when the path ends on one. *)
Fixpoint leaf_value (A : Type) (segs : list string)
         (children : list (string * tree A)) : option A :=
  match segs with
  | [] => None
  | key :: rest =>
      match assoc_get key children with
      | Some (Leaf a) => match rest with [] => Some a | _ :: _ => None end
      | Some (Node sub) => leaf_value rest sub
      | None => None
      end
  end.

(** No path of the list is a strict dot-prefix of another. *)
Definition prefix_free (paths : list string) : Prop :=
  forall p q, In p paths -> In q paths -> ~ strict_dot_prefix p q.

(** A string, whose characters [hasOwnProperty] finds at its indices. *)
Definition is_str (v : value) : bool :=
  match v with VStr _ => true | _ => false end.

(** The value at the end of a path of keys, [doc.k1.k2...]; [undefined]
    once the path leaves the document. *)
Fixpoint get_path (doc : value) (segs : list string) : value :=
  match segs with
  | [] => doc
  | key :: rest => get_path (get doc key) rest
  end.

(** The path [segs] indexes no array and no string: neither the document
    nor a value at a strict prefix of the path is one. *)
Fixpoint plain_path (doc : value) (segs : list string) : Prop :=
  match segs with
  | [] => True
  | key :: rest =>
      _isArray doc = false /\ is_str doc = false /\
      plain_path (get doc key) rest
  end.

(** What an exclusive transform makes of one property of the document:
    nothing under a scalar rule, the transformed value under a subtree
    when the value is an object, the property itself otherwise. *)
Definition keep (recur : tree (option bool) -> value -> value)
           (children : list (string * tree (option bool)))
           (kv : string * value) : option (string * value) :=
  let (key, v) := kv in
  match assoc_get key children with
  | Some (Leaf _) => None
  | Some (Node sub) =>
      Some (key, if isObject v then recur (Node sub) v else v)
  | None => Some (key, v)
  end.

(** The messages [_compileProjection] can fail with, the two paths of the
    last one left open. *)
Definition compile_message (msg : string) : Prop :=
  In msg [msg_not_object; msg_dollar; msg_operators; msg_value; msg_mixed] \/
  exists currentPath anotherPath, msg = msg_both currentPath anotherPath.

(** The path [segs] has a prefix, itself maybe, that ends on a scalar of
    the tree. *)
Definition covered (A : Type) (segs : list string)
           (children : list (string * tree A)) : Prop :=
  exists pre suffix, segs = (pre ++ suffix)%list /\ leaf_at pre children.

(* ================================================================== *)
(** * Properties of the value model *)
(* ================================================================== *)

(** ** Property lists *)

Section assoc_facts.
Variable A : Type.
Implicit Types (l : list (string * A)) (k : string).

Lemma assoc_has_true k l :
  assoc_has k l = true <-> exists a, assoc_get k l = Some a.
Proof.
  unfold assoc_has. destruct (assoc_get k l) as [a|].
  - split; [eauto | reflexivity].
  - split; [discriminate | intros [a Ha]; discriminate].
Qed.

Lemma assoc_has_false k l :
  assoc_has k l = false <-> assoc_get k l = None.
Proof.
  unfold assoc_has. destruct (assoc_get k l); split; congruence.
Qed.

Lemma assoc_get_In k l a : assoc_get k l = Some a -> In (k, a) l.
Proof.
  induction l as [|[k' a'] l IH]; simpl; [discriminate|].
  destruct (String.eqb_spec k k') as [->|Hne].
  - intros [= ->]. now left.
  - intros H. right. auto.
Qed.

Lemma assoc_get_None k l : assoc_get k l = None <-> ~ In k (keys_of l).
Proof.
  induction l as [|[k' a'] l IH]; simpl.
  - tauto.
  - destruct (String.eqb_spec k k') as [->|Hne].
    + split; [discriminate | intros H; exfalso; apply H; now left].
    + rewrite IH. split; intros H; [intros [E|E]; congruence | tauto].
Qed.

Lemma assoc_get_NoDup k a l :
  NoDup (keys_of l) -> In (k, a) l -> assoc_get k l = Some a.
Proof.
  induction l as [|[k' a'] l IH]; simpl; [tauto|].
  intros Hnd [E|Hin].
  - injection E as -> ->. now rewrite String.eqb_refl.
  - inversion Hnd as [|? ? Hk' Hnd']; subst.
    destruct (String.eqb_spec k k') as [->|Hne].
    + exfalso. apply Hk'. change k' with (fst (k', a)). now apply in_map.
    + auto.
Qed.

Lemma assoc_get_set_same k a l : assoc_get k (assoc_set k a l) = Some a.
Proof.
  induction l as [|[k' a'] l IH]; simpl.
  - now rewrite String.eqb_refl.
  - destruct (String.eqb_spec k k') as [->|Hne]; simpl.
    + now rewrite String.eqb_refl.
    + destruct (String.eqb_spec k k'); [congruence | assumption].
Qed.

Lemma assoc_get_set_other k k' a l :
  k <> k' -> assoc_get k (assoc_set k' a l) = assoc_get k l.
Proof.
  intros Hne. induction l as [|[k1 a1] l IH]; simpl.
  - destruct (String.eqb_spec k k'); [congruence | reflexivity].
  - destruct (String.eqb_spec k' k1) as [->|Hne1]; simpl.
    + destruct (String.eqb_spec k k1); [congruence | reflexivity].
    + destruct (String.eqb_spec k k1); [reflexivity | assumption].
Qed.

Lemma assoc_get_del_same k l : assoc_get k (assoc_del k l) = None.
Proof.
  induction l as [|[k' a'] l IH]; simpl; [reflexivity|].
  destruct (String.eqb_spec k k') as [->|Hne]; simpl; [assumption|].
  destruct (String.eqb_spec k k'); [congruence | assumption].
Qed.

Lemma assoc_get_del_other k k' l :
  k <> k' -> assoc_get k (assoc_del k' l) = assoc_get k l.
Proof.
  intros Hne. induction l as [|[k1 a1] l IH]; simpl; [reflexivity|].
  destruct (String.eqb_spec k' k1) as [->|Hne1]; simpl.
  - destruct (String.eqb_spec k k1); [congruence | assumption].
  - destruct (String.eqb_spec k k1); [reflexivity | assumption].
Qed.

(** Writing back the value a property has changes nothing. *)
Lemma assoc_set_get k a l : assoc_get k l = Some a -> assoc_set k a l = l.
Proof.
  induction l as [|[k' a'] l IH]; simpl; [discriminate|].
  destruct (String.eqb_spec k k') as [->|Hne].
  - now intros [= ->].
  - intros H. now rewrite IH.
Qed.

Lemma assoc_del_absent k l : assoc_get k l = None -> assoc_del k l = l.
Proof.
  induction l as [|[k' a'] l IH]; simpl; [reflexivity|].
  destruct (String.eqb_spec k k') as [->|Hne]; [discriminate|].
  intros H. now rewrite IH.
Qed.

(** A new property goes last. *)
Lemma assoc_set_fresh k a l :
  assoc_get k l = None -> assoc_set k a l = (l ++ [(k, a)])%list.
Proof.
  induction l as [|[k' a'] l IH]; simpl; [reflexivity|].
  destruct (String.eqb_spec k k') as [->|Hne]; [discriminate|].
  intros H. now rewrite IH.
Qed.

Lemma keys_of_set_in k a l :
  In k (keys_of l) -> keys_of (assoc_set k a l) = keys_of l.
Proof.
  induction l as [|[k' a'] l IH]; simpl; [tauto|].
  destruct (String.eqb_spec k k') as [->|Hne]; simpl; [reflexivity|].
  intros [E|Hin]; [congruence|]. now rewrite IH.
Qed.

Lemma keys_of_set k a l :
  keys_of (assoc_set k a l) =
  if assoc_has k l then keys_of l else (keys_of l ++ [k])%list.
Proof.
  destruct (assoc_has k l) eqn:E.
  - apply keys_of_set_in. apply assoc_has_true in E as [x Hx].
    apply assoc_get_In in Hx. change k with (fst (k, x)). now apply in_map.
  - apply assoc_has_false in E. rewrite assoc_set_fresh by assumption.
    unfold keys_of. now rewrite map_app.
Qed.

Lemma NoDup_keys_set k a l :
  NoDup (keys_of l) -> NoDup (keys_of (assoc_set k a l)).
Proof.
  intros Hnd. rewrite keys_of_set. destruct (assoc_has k l) eqn:E.
  - assumption.
  - apply assoc_has_false, assoc_get_None in E.
    apply NoDup_app; [assumption | repeat constructor; simpl; tauto |].
    simpl. intros x Hx [<-|[]]. contradiction.
Qed.
End assoc_facts.

(** ** [EJSON.clone] copies *)

Lemma clone_id (v : value) : clone v = v.
Proof.
  induction v as [ | | | | | |elems IH|props IH] using value_nested_ind;
    simpl; try reflexivity.
  - f_equal. induction IH as [|x l Hx _ IHl]; simpl; [reflexivity|].
    now rewrite Hx, IHl.
  - f_equal. induction IH as [|[k x] l Hx _ IHl]; simpl; [reflexivity|].
    simpl in Hx. now rewrite Hx, IHl.
Qed.

Lemma set_get_same (v : value) (k : string) :
  has v k = true -> set v k (get v k) = v.
Proof.
  intros H. destruct v; simpl; try reflexivity.
  unfold has, get in *. simpl in *.
  apply assoc_has_true in H as [a Ha]. rewrite Ha.
  now rewrite (assoc_set_get _ _ Ha).
Qed.

(** ** The transform, unfolded once *)

Lemma transform_array d elems ruleTree :
  transform d (VArr elems) ruleTree =
  VArr (map (fun subdoc => transform d subdoc ruleTree) elems).
Proof. unfold transform. destruct ruleTree; reflexivity. Qed.

Lemma transform_node d doc children :
  _isArray doc = false ->
  transform d doc (Node children) =
  fold_left (rule_step d (fun rule sub => transform d sub rule) doc)
            children (initial_result d doc).
Proof. unfold transform. destruct doc; simpl; try discriminate; reflexivity. Qed.

Lemma transform_leaf d doc a :
  _isArray doc = false ->
  transform d doc (Leaf a) = initial_result d doc.
Proof. unfold transform. destruct doc; simpl; try discriminate; reflexivity. Qed.

Arguments transform : simpl never.

(** C7. For every document [doc], the transform compiled from the empty
    specification [{}] returns [doc] itself as a value: compilation
    succeeds, [including] stays unresolved, and the result is equal to
    [doc], hence deep-equal to it. *)
Theorem empty_projection_is_identity (doc : value) :
  apply_projection (VObj []) doc = Ok doc /\
  (exists d, projectionDetails (VObj []) = Ok d /\ including d = None).
Proof.
  split.
  - unfold apply_projection. simpl.
    set (d := {| tree_of := []; including := None |}).
    f_equal. unfold compiled. cbn [tree_of d].
    assert (Hid : forall v, transform d v (Node []) = v).
    { induction v as [ | | | | | |elems IH|props IH] using value_nested_ind;
        try (rewrite transform_node by reflexivity; simpl;
             unfold initial_result; simpl; try reflexivity).
      - rewrite transform_array. f_equal.
        induction IH as [|x l Hx _ IHl]; cbn [map]; [reflexivity|].
        now rewrite Hx, IHl.
      - exact (clone_id (VObj props)). }
    rewrite Hid. simpl truthy. simpl negb. simpl andb.
    destruct (has doc "_id") eqn:E; [|reflexivity].
    now apply set_get_same.
  - eexists. split; [reflexivity|reflexivity].
Qed.

(** ** The result of the transform on a document object *)

Lemma set_is_obj v k x : is_obj (set v k x) = is_obj v.
Proof. destruct v; reflexivity. Qed.

Lemma delete_is_obj v k : is_obj (delete v k) = is_obj v.
Proof. destruct v; reflexivity. Qed.

Lemma rule_step_is_obj d recur doc res kr :
  is_obj (rule_step d recur doc res kr) = is_obj res.
Proof.
  unfold rule_step. destruct kr as [key rule].
  destruct (negb (has doc key)); [reflexivity|].
  destruct rule.
  - destruct (is_including d); [apply set_is_obj | apply delete_is_obj].
  - destruct (isObject (get doc key)); [apply set_is_obj | reflexivity].
Qed.

Lemma fold_rule_step_is_obj d recur doc children res :
  is_obj (fold_left (rule_step d recur doc) children res) = is_obj res.
Proof.
  revert res. induction children as [|kr l IH]; intros res; simpl.
  - reflexivity.
  - rewrite IH. apply rule_step_is_obj.
Qed.

Lemma transform_object_is_obj d props ruleTree :
  is_obj (transform d (VObj props) ruleTree) = true.
Proof.
  destruct ruleTree as [a|children].
  - rewrite transform_leaf by reflexivity. unfold initial_result.
    destruct (is_including d); reflexivity.
  - rewrite transform_node by reflexivity. rewrite fold_rule_step_is_obj.
    unfold initial_result. destruct (is_including d); reflexivity.
Qed.

Lemma has_set_same props k x : has (set (VObj props) k x) k = true.
Proof.
  unfold has. simpl. unfold assoc_has. now rewrite assoc_get_set_same.
Qed.

Lemma get_set_same props k x : get (set (VObj props) k x) k = x.
Proof. unfold get. simpl. now rewrite assoc_get_set_same. Qed.

Lemma has_delete_same v k : is_obj v = true -> has (delete v k) k = false.
Proof.
  destruct v; try discriminate. intros _.
  unfold has. simpl. unfold assoc_has. now rewrite assoc_get_del_same.
Qed.

Lemma compile_inv fields f :
  _compileProjection fields = Ok f ->
  _checkSupportedProjection fields = Ok tt /\
  exists d, projectionDetails fields = Ok d /\
            f = compiled (id_projection fields) d.
Proof.
  unfold _compileProjection, bind.
  destruct (_checkSupportedProjection fields) as [[]|e]; [|discriminate].
  destruct (projectionDetails fields) as [d|e]; [|discriminate].
  intros [= <-]. split; [reflexivity|]. exists d. split; reflexivity.
Qed.

Lemma compiled_forces_id idp d props :
  truthy idp = true -> has (VObj props) "_id" = true ->
  has (compiled idp d (VObj props)) "_id" = true /\
  get (compiled idp d (VObj props)) "_id" = get (VObj props) "_id".
Proof.
  intros Ht Hh. unfold compiled. rewrite Ht, Hh. simpl andb.
  pose proof (transform_object_is_obj d props (Node (tree_of d))) as Ho.
  destruct (transform d (VObj props) (Node (tree_of d)))
    as [ | | | | | | |res]; try discriminate.
  cbn [negb andb].
  split; [apply has_set_same | apply get_set_same].
Qed.

Lemma compiled_removes_id idp d props :
  truthy idp = false -> has (compiled idp d (VObj props)) "_id" = false.
Proof.
  intros Ht. unfold compiled. rewrite Ht. cbn [negb andb].
  pose proof (transform_object_is_obj d props (Node (tree_of d))) as Ho.
  set (res := transform d (VObj props) (Node (tree_of d))) in *.
  destruct (has res "_id") eqn:E.
  - now apply has_delete_same.
  - assumption.
Qed.

(** C5. The identifier-field rule runs after the recursive pass and
    whatever the rule tree did: with [_id] included (the default when the
    specification does not mention it) a document's [_id] is forced into
    the result with the document's value, and with [_id] excluded the
    result has no [_id].  The three sample projections give
    [{a:1, _id:"x"}], [{_id:"x", b:2}] and [{a:1}], the first being
    deep-equal to [{_id:"x", a:1}]. *)
Theorem identifier_field_rule :
  let doc := VObj [("_id", VStr "x"); ("a", VNum 1); ("b", VNum 2)] in
  (apply_projection (VObj [("a", VNum 1)]) doc
     = Ok (VObj [("a", VNum 1); ("_id", VStr "x")]) /\
   deep_equal (VObj [("a", VNum 1); ("_id", VStr "x")])
              (VObj [("_id", VStr "x"); ("a", VNum 1)]) = true) /\
  apply_projection (VObj [("a", VNum 0)]) doc
    = Ok (VObj [("_id", VStr "x"); ("b", VNum 2)]) /\
  (apply_projection (VObj [("_id", VNum 0); ("a", VNum 1)]) doc
     = Ok (VObj [("a", VNum 1)]) /\
   has (VObj [("a", VNum 1)]) "_id" = false) /\
  (forall fields, has fields "_id" = false ->
                  id_projection fields = VBool true) /\
  (forall fields f props,
      _compileProjection fields = Ok f ->
      (truthy (id_projection fields) = true ->
       has (VObj props) "_id" = true ->
       has (f (VObj props)) "_id" = true /\
       get (f (VObj props)) "_id" = get (VObj props) "_id") /\
      (truthy (id_projection fields) = false ->
       has (f (VObj props)) "_id" = false)).
Proof.
  cbv zeta.
  split; [split; reflexivity|].
  split; [reflexivity|].
  split; [split; reflexivity|].
  split.
  - intros fields. unfold id_projection, has, get, assoc_has.
    destruct (assoc_get "_id" (own_props fields)); [discriminate|reflexivity].
  - intros fields f props Hc.
    destruct (compile_inv _ Hc) as (_ & d & _ & ->).
    split.
    + apply compiled_forces_id.
    + apply compiled_removes_id.
Qed.

(** ** Validation *)

Lemma contains_In l s : contains l s = true <-> In s l.
Proof.
  unfold contains. rewrite existsb_exists. split.
  - intros (x & Hx & E). apply String.eqb_eq in E. now subst.
  - intros H. exists s. split; [assumption | apply String.eqb_refl].
Qed.

Lemma literal_dec val :
  existsb (fun lit => strict_eq lit val)
          [VNum 1; VNum 0; VBool true; VBool false] = true <-> literal val.
Proof.
  unfold literal. split.
  - destruct val as [ | |[]|n| | | | ]; cbn [existsb strict_eq orb];
      try discriminate; auto.
    destruct (Z.eqb_spec 1 n) as [<-|]; [auto|].
    destruct (Z.eqb_spec 0 n) as [<-|]; [auto|discriminate].
  - intros [->|[->|[->| ->]]]; reflexivity.
Qed.

Lemma literal_not_object val : literal val -> typeof_object val = false.
Proof. intros [->|[->|[->| ->]]]; reflexivity. Qed.

Lemma index_key_digit i : starts_with_digit (index_key i) = true.
Proof.
  unfold index_key. destruct (Nat.to_uint i); reflexivity.
Qed.

Lemma indexed_get_None (A : Type) k (l : list A) i :
  starts_with_digit k = false -> assoc_get k (indexed i l) = None.
Proof.
  intros Hk. revert i. induction l as [|a l IH]; intros i; simpl.
  - reflexivity.
  - destruct (String.eqb_spec k (index_key i)) as [->|_].
    + rewrite index_key_digit in Hk. discriminate.
    + apply IH.
Qed.

Lemma indexed_keys_digit (A : Type) k (l : list A) i :
  In k (keys_of (indexed i l)) -> starts_with_digit k = true.
Proof.
  revert i. induction l as [|a l IH]; intros i; simpl; [tauto|].
  intros [<-|H]; [apply index_key_digit | eauto].
Qed.

Lemma operator_value_dec val :
  typeof_object val &&
  (0 <? List.length
          (intersection ["$elemMatch"; "$meta"; "$slice"] (keys val)))%nat
  = true -> operator_value val.
Proof.
  intros H. apply andb_true_iff in H as [Ht Hl].
  destruct val as [ | | | | | |elems|props]; try discriminate.
  - exfalso. apply Nat.ltb_lt in Hl.
    destruct (intersection ["$elemMatch"; "$meta"; "$slice"] (keys (VArr elems)))
      as [|op rest] eqn:E; [simpl in Hl; lia|].
    assert (Hin : In op (intersection ["$elemMatch"; "$meta"; "$slice"]
                                      (keys (VArr elems))))
      by (rewrite E; now left).
    unfold intersection in Hin. apply filter_In in Hin as [Hop Hk].
    apply contains_In in Hk. simpl in Hk. apply indexed_keys_digit in Hk.
    destruct Hop as [<-|[<-|[<-|[]]]]; discriminate.
  - apply Nat.ltb_lt in Hl.
    destruct (intersection ["$elemMatch"; "$meta"; "$slice"] (keys (VObj props)))
      as [|op rest] eqn:E; [simpl in Hl; lia|].
    assert (Hin : In op (intersection ["$elemMatch"; "$meta"; "$slice"]
                                      (keys (VObj props))))
      by (rewrite E; now left).
    unfold intersection in Hin. apply filter_In in Hin as [Hop Hk].
    apply contains_In in Hk. exists props, op. auto.
Qed.

Lemma operator_value_check props op :
  In op ["$elemMatch"; "$meta"; "$slice"] -> In op (keys_of props) ->
  typeof_object (VObj props) &&
  (0 <? List.length
          (intersection ["$elemMatch"; "$meta"; "$slice"] (keys (VObj props))))%nat
  = true.
Proof.
  intros Hop Hk. cbn [typeof_object andb]. apply Nat.ltb_lt.
  assert (Hin : In op (intersection ["$elemMatch"; "$meta"; "$slice"]
                                    (keys (VObj props)))).
  { unfold intersection. apply filter_In. split; [assumption|].
    now apply contains_In. }
  remember (intersection ["$elemMatch"; "$meta"; "$slice"] (keys (VObj props)))
    as common.
  destruct common; [contradiction | cbn [List.length]; lia].
Qed.

(** What the loop body answers, in the words of the specification. *)
Lemma check_entry_spec keyPath val :
  (dollar_segment keyPath ->
   check_entry (keyPath, val) = Throw (MinimongoError msg_dollar)) /\
  (~ dollar_segment keyPath -> operator_value val ->
   check_entry (keyPath, val) = Throw (MinimongoError msg_operators)) /\
  (~ dollar_segment keyPath -> ~ operator_value val -> ~ literal val ->
   check_entry (keyPath, val) = Throw (MinimongoError msg_value)) /\
  (accepted (keyPath, val) -> check_entry (keyPath, val) = Ok tt).
Proof.
  unfold check_entry, dollar_segment, accepted. simpl fst. simpl snd.
  destruct (contains (split dot keyPath) "$") eqn:Ed.
  - apply contains_In in Ed. repeat split; intros; try contradiction; tauto.
  - assert (Hnd : ~ In "$" (split dot keyPath)).
    { intros H. apply contains_In in H. congruence. }
    split; [tauto|]. split; [|split].
    + intros _ (props & op & -> & Hop & Hk).
      now rewrite operator_value_check with (op := op).
    + intros _ Hno Hnl.
      destruct (typeof_object val && _)%bool eqn:Eo.
      { apply operator_value_dec in Eo. contradiction. }
      destruct (existsb _ _) eqn:El; [|reflexivity].
      apply literal_dec in El. contradiction.
    + intros [_ Hl]. rewrite (literal_not_object Hl). simpl andb.
      apply literal_dec in Hl. now rewrite Hl.
Qed.

Lemma check_entry_cases kv :
  (accepted kv /\ check_entry kv = Ok tt) \/
  (~ accepted kv /\
   exists msg, check_entry kv = Throw (MinimongoError msg) /\
               (msg = msg_dollar \/ msg = msg_operators \/ msg = msg_value)).
Proof.
  destruct kv as [keyPath val].
  destruct (check_entry_spec keyPath val) as (H1 & H2 & H3 & H4).
  unfold accepted. simpl fst. simpl snd.
  unfold check_entry in *.
  destruct (contains (split dot keyPath) "$") eqn:Ed.
  - right. apply contains_In in Ed. split; [tauto|]. eauto.
  - assert (Hnd : ~ dollar_segment keyPath).
    { intros H. apply contains_In in H. congruence. }
    destruct (typeof_object val && _)%bool eqn:Eo.
    + right. split; [|eauto 6].
      intros [_ Hl]. apply literal_not_object in Hl.
      rewrite Hl in Eo. discriminate.
    + destruct (existsb _ _) eqn:El; simpl.
      * left. apply literal_dec in El. tauto.
      * right. split; [|eauto 6]. intros [_ Hl].
        apply literal_dec in Hl. congruence.
Qed.



(** *** What [_.each] visits *)

Lemma numeric_length_array_like obj :
  numeric_length obj = false -> array_like_length obj = None.
Proof.
  destruct obj as [ | | | | | | |props]; try reflexivity. simpl.
  destruct (assoc_get "length" props) as [[ | | |n| | | | ]|];
    try reflexivity; discriminate.
Qed.

Lemma visited_named obj :
  array_like_length obj = None ->
  visited obj = map (fun kv => (VStr (fst kv), snd kv)) (own_props obj).
Proof. unfold visited. now intros ->. Qed.

Lemma visited_length props n :
  assoc_get "length" props = Some (VNum n) ->
  (0 <= n <= MAX_ARRAY_INDEX)%Z ->
  visited (VObj props) =
  map (fun i => (VNum (Z.of_nat i), get (VObj props) (index_key i)))
      (seq 0 (Z.to_nat n)).
Proof.
  intros E Hn. unfold visited, array_like_length. rewrite E.
  destruct (Z.leb_spec 0 n); [|lia].
  destruct (Z.leb_spec n MAX_ARRAY_INDEX); [reflexivity | lia].
Qed.

Lemma visited_empty props :
  assoc_get "length" props = Some (VNum 0) -> visited (VObj props) = [].
Proof.
  intros E. rewrite (visited_length _ E); [reflexivity|].
  unfold MAX_ARRAY_INDEX. lia.
Qed.

Lemma visited_index props n :
  assoc_get "length" props = Some (VNum n) ->
  (0 < n <= MAX_ARRAY_INDEX)%Z ->
  exists rest,
    visited (VObj props) = (VNum 0, get (VObj props) "0") :: rest.
Proof.
  intros E Hn. rewrite (visited_length _ E) by lia.
  destruct (Z.to_nat n) as [|m] eqn:Em; [lia|].
  simpl. eauto.
Qed.

Lemma check_loop_named l :
  each (fun _ kv => check_visited kv)
       (map (fun kv : string * value => (VStr (fst kv), snd kv)) l) tt =
  each (fun _ kv => check_entry kv) l tt.
Proof.
  induction l as [|[k v] l IH]; [reflexivity|].
  cbn [map each]. unfold check_visited at 1. cbn [fst snd].
  destruct (check_entry (k, v)) as [[]|e]; [exact IH | reflexivity].
Qed.

(** On an object whose [length] is no number the validation visits the
    own properties. *)
Lemma check_named props :
  numeric_length (VObj props) = false ->
  _checkSupportedProjection (VObj props) =
  each (fun _ kv => check_entry kv) props tt.
Proof.
  intros H. unfold _checkSupportedProjection. cbn [isObject _isArray negb orb].
  rewrite visited_named by now apply numeric_length_array_like.
  apply check_loop_named.
Qed.

(** With [length] zero nothing is visited, and nothing validated. *)
Lemma check_length_zero props :
  assoc_get "length" props = Some (VNum 0) ->
  _checkSupportedProjection (VObj props) = Ok tt.
Proof.
  intros E. unfold _checkSupportedProjection. cbn [isObject _isArray negb orb].
  now rewrite visited_empty.
Qed.

(** With a positive [length] the first key visited is the number [0]. *)
Lemma check_length_positive props n :
  assoc_get "length" props = Some (VNum n) ->
  (0 < n <= MAX_ARRAY_INDEX)%Z ->
  _checkSupportedProjection (VObj props) =
  Throw (TypeError "keyPath.split is not a function").
Proof.
  intros E Hn. unfold _checkSupportedProjection.
  cbn [isObject _isArray negb orb].
  destruct (visited_index _ E Hn) as [rest ->]. reflexivity.
Qed.






(** ** [isOperatorObject] *)

Lemma isPlainObject_truthy x :
  truthy (isPlainObject x) = true <-> exists props, x = VObj props.
Proof.
  unfold isPlainObject. split.
  - destruct (truthy x) eqn:E.
    + destruct x; try discriminate. eauto.
    + congruence.
  - intros [props ->]. reflexivity.
Qed.

Lemma array_like_inv obj n :
  array_like_length obj = Some n ->
  exists props,
    obj = VObj props /\ assoc_get "length" props = Some (VNum n) /\
    (0 <= n <= MAX_ARRAY_INDEX)%Z.
Proof.
  destruct obj as [ | | | | | | |props]; try discriminate. simpl.
  destruct (assoc_get "length" props) as [[ | | |m| | | | ]|] eqn:E;
    try discriminate.
  destruct (Z.leb_spec 0 m); [|discriminate].
  destruct (Z.leb_spec m MAX_ARRAY_INDEX); [|discriminate].
  intros [= <-]. eauto.
Qed.

Lemma operator_loop_named x ok l acc :
  each (operator_visited x ok)
       (map (fun kv : string * value => (VStr (fst kv), snd kv)) l) acc =
  each (operator_step x ok) l acc.
Proof.
  revert acc. induction l as [|[k v] l IH]; intros acc; [reflexivity|].
  cbn [map each]. unfold operator_visited at 1. cbn [fst snd].
  destruct (operator_step x ok acc (k, v)); [apply IH | reflexivity].
Qed.

(** On an object that is not array-like the loop visits the own
    properties. *)
Lemma isOperatorObject_named props ok :
  array_like_length (VObj props) = None ->
  isOperatorObject (VObj props) ok =
  (theseAreOperators <- each (operator_step (VObj props) ok) props None ;;
   Ok (match theseAreOperators with Some b => b | None => false end)).
Proof.
  intros H. unfold isOperatorObject. cbn [isPlainObject truthy negb _type].
  rewrite visited_named by assumption. cbn [own_props].
  now rewrite operator_loop_named.
Qed.

(** With [length] zero the loop has no turn. *)
Lemma isOperatorObject_length_zero props ok :
  assoc_get "length" props = Some (VNum 0) ->
  isOperatorObject (VObj props) ok = Ok false.
Proof.
  intros E. unfold isOperatorObject. cbn [isPlainObject truthy negb _type].
  now rewrite visited_empty.
Qed.

(** With a positive [length] its first key is the number [0]. *)
Lemma isOperatorObject_length_positive props n ok :
  assoc_get "length" props = Some (VNum n) ->
  (0 < n <= MAX_ARRAY_INDEX)%Z ->
  isOperatorObject (VObj props) ok
  = Throw (TypeError "selKey.substr is not a function").
Proof.
  intros E Hn. unfold isOperatorObject.
  cbn [isPlainObject truthy negb _type].
  destruct (visited_index _ E Hn) as [rest ->]. reflexivity.
Qed.

Lemma isOperatorObject_array_like props n ok :
  array_like_length (VObj props) = Some n ->
  isOperatorObject (VObj props) ok = Ok false \/
  isOperatorObject (VObj props) ok
  = Throw (TypeError "selKey.substr is not a function").
Proof.
  intros H. apply array_like_inv in H as (props' & [= <-] & E & Hn).
  destruct (Z.eq_dec n 0) as [->|Hne].
  - left. now apply isOperatorObject_length_zero.
  - right. apply isOperatorObject_length_positive with n; [assumption | lia].
Qed.

(** Once the loop has seen a key, it goes on with [Some b]: [b] stays as
    long as the keys agree with it. *)
Lemma operator_loop_uniform x ok b props :
  Forall (fun kv => starts_with_dollar (fst kv) = b) props ->
  each (operator_step x ok) props (Some b) = Ok (Some b).
Proof.
  induction 1 as [|kv l Hkv _ IH]; simpl; [reflexivity|].
  unfold operator_step at 1. rewrite Hkv, Bool.eqb_reflx. simpl. exact IH.
Qed.

(** With [inconsistentOK] the loop never throws, and ends on [false] once
    it has met a key without the marker. *)
Lemma operator_loop_tolerant x b props :
  each (operator_step x true) props (Some b) =
  Ok (Some (b && forallb (fun kv => starts_with_dollar (fst kv)) props)).
Proof.
  revert b. induction props as [|kv l IH]; intros b; simpl.
  - now rewrite andb_true_r.
  - unfold operator_step at 1.
    destruct (starts_with_dollar (fst kv)), b; simpl; rewrite IH; reflexivity.
Qed.

(** Without it the loop throws at the first key that disagrees. *)
Lemma operator_loop_strict x b props :
  each (operator_step x false) props (Some b) =
  if forallb (fun kv => Bool.eqb (starts_with_dollar (fst kv)) b) props
  then Ok (Some b) else Throw (InconsistentOperator x).
Proof.
  induction props as [|kv l IH]; simpl; [reflexivity|].
  unfold operator_step at 1.
  destruct (starts_with_dollar (fst kv)), b; simpl; try reflexivity;
    exact IH.
Qed.

Lemma mixed_keys_differ props :
  mixed_keys props ->
  exists kv rest, props = kv :: rest /\
    forallb (fun kv' => Bool.eqb (starts_with_dollar (fst kv'))
                                 (starts_with_dollar (fst kv))) rest = false /\
    starts_with_dollar (fst kv) &&
    forallb (fun kv' => starts_with_dollar (fst kv')) rest = false.
Proof.
  intros ((k1 & Hin1 & Hs1) & (k2 & Hin2 & Hs2)).
  destruct props as [|kv rest]; [contradiction|].
  exists kv, rest. split; [reflexivity|].
  destruct (starts_with_dollar (fst kv)) eqn:E.
  - destruct Hin2 as [->|Hin2]; [congruence|].
    assert (forallb (fun kv' => starts_with_dollar (fst kv')) rest = false).
    { destruct (forallb _ rest) eqn:F; [|reflexivity].
      rewrite forallb_forall in F. specialize (F _ Hin2). congruence. }
    split; [|now rewrite H].
    destruct (forallb (fun kv' => Bool.eqb _ true) rest) eqn:F; [|reflexivity].
    rewrite forallb_forall in F. specialize (F _ Hin2).
    rewrite Hs2 in F. discriminate.
  - split; [|reflexivity].
    destruct Hin1 as [->|Hin1]; [congruence|].
    destruct (forallb _ rest) eqn:F; [|reflexivity].
    rewrite forallb_forall in F. specialize (F _ Hin1).
    rewrite Hs1 in F. discriminate.
Qed.

(** What the function does on the own properties of an object that is not
    array-like. *)
Lemma isOperatorObject_by_name props inconsistentOK :
  array_like_length (VObj props) = None ->
  (isOperatorObject (VObj props) inconsistentOK = Ok true <->
   props <> [] /\
   Forall (fun kv => starts_with_dollar (fst kv) = true) props) /\
  (mixed_keys props ->
   isOperatorObject (VObj props) false
   = Throw (InconsistentOperator (VObj props)) /\
   isOperatorObject (VObj props) true = Ok false) /\
  (Forall (fun kv => starts_with_dollar (fst kv) = false) props ->
   isOperatorObject (VObj props) inconsistentOK = Ok false).
Proof.
  intros Hlen. rewrite !isOperatorObject_named by assumption.
  split; [|split].
  - split.
    + intros H. destruct props as [|kv rest]; [discriminate|].
      split; [discriminate|].
      cbn [each] in H. unfold operator_step at 1 in H. cbn [bind] in H.
      destruct inconsistentOK.
      * rewrite operator_loop_tolerant in H. cbn [bind] in H.
        injection H as H. apply andb_true_iff in H as [H1 H2].
        constructor; [assumption|].
        apply Forall_forall. rewrite forallb_forall in H2. exact H2.
      * rewrite operator_loop_strict in H.
        destruct (forallb _ rest) eqn:F; [|discriminate].
        cbn [bind] in H. injection H as H.
        constructor; [assumption|].
        apply Forall_forall. intros kv' Hin.
        rewrite forallb_forall in F. specialize (F _ Hin).
        rewrite H in F. now apply Bool.eqb_prop in F.
    + intros (Hne & Hall).
      destruct props as [|kv rest]; [congruence|].
      inversion Hall as [|? ? Hkv Hrest]; subst.
      cbn [each]. unfold operator_step at 1. cbn [bind]. rewrite Hkv.
      now rewrite operator_loop_uniform.
  - intros Hmixed.
    destruct (mixed_keys_differ Hmixed) as (kv & rest & -> & Hs & Ht).
    cbn [each]. unfold operator_step at 1 3. cbn [bind].
    rewrite operator_loop_strict, Hs, operator_loop_tolerant, Ht.
    split; reflexivity.
  - intros Hall. destruct props as [|kv rest]; [reflexivity|].
    inversion Hall as [|? ? Hkv Hrest]; subst.
    cbn [each]. unfold operator_step at 1. cbn [bind]. rewrite Hkv.
    now rewrite operator_loop_uniform.
Qed.

(** C9 at the failing input: [isOperatorObject] of [{$gt: 1, length: 0}]
    without [inconsistentOK].  The keys of the object mix marked and
    unmarked ones, and the comment above the function has it throw then
    ("throws if some keys begin with $ and others don't"); the call
    returns [false]: [_.each] takes the object for an empty list and the
    loop that compares the keys has no turn.  The same object with [size]
    for [length] throws the inconsistent-operator error.  Every plain
    object whose [length] is zero returns [false] so, whatever its other
    keys; and with a positive [length], up to [2^53 - 1], as in
    [{$gt: 1, length: 1}], the call throws a [TypeError] with
    [inconsistentOK] as without it. *)
Theorem length_hides_mixed_keys :
  let x := VObj [("$gt", VNum 1); ("length", VNum 0)] in
  let y := VObj [("$gt", VNum 1); ("size", VNum 0)] in
  let z := VObj [("$gt", VNum 1); ("length", VNum 1)] in
  (mixed_keys [("$gt", VNum 1); ("length", VNum 0)] /\
   truthy (isPlainObject x) = true /\
   visited x = [] /\
   isOperatorObject x false = Ok false) /\
  (isOperatorObject y false = Throw (InconsistentOperator y) /\
   kind_of (InconsistentOperator y) = Some InconsistentOperatorError) /\
  (mixed_keys [("$gt", VNum 1); ("length", VNum 1)] /\
   isOperatorObject z true
   = Throw (TypeError "selKey.substr is not a function") /\
   isOperatorObject z false
   = Throw (TypeError "selKey.substr is not a function")) /\
  (forall props ok,
      assoc_get "length" props = Some (VNum 0) ->
      isOperatorObject (VObj props) ok = Ok false) /\
  (forall props n ok,
      assoc_get "length" props = Some (VNum n) ->
      (0 < n <= MAX_ARRAY_INDEX)%Z ->
      isOperatorObject (VObj props) ok
      = Throw (TypeError "selKey.substr is not a function")).
Proof.
  cbv zeta. split; [|split; [|split; [|split]]].
  - split; [|repeat split; reflexivity].
    split.
    + exists ("$gt", VNum 1). split; [now left | reflexivity].
    + exists ("length", VNum 0). split; [right; now left | reflexivity].
  - split; reflexivity.
  - split; [|split; reflexivity].
    split.
    + exists ("$gt", VNum 1). split; [now left | reflexivity].
    + exists ("length", VNum 1). split; [right; now left | reflexivity].
  - intros props ok. apply isOperatorObject_length_zero.
  - intros props n ok. apply isOperatorObject_length_positive.
Qed.

Lemma isOperatorObject_not_plain x ok :
  truthy (isPlainObject x) = false -> isOperatorObject x ok = Ok false.
Proof. unfold isOperatorObject. now intros ->. Qed.

(** X21.  [isOperatorObject(x, inconsistentOK)] returns [true] exactly
    when [x] is a plain object with at least one key and every key begins
    with ["$"].  On a plain object whose [length] is no number: if its
    keys mix marked and unmarked ones, the call throws the
    inconsistent-operator error when [inconsistentOK] is false and
    returns [false] when it is true; if no key is marked, it returns
    [false].  On a value that is no plain object it returns [false]. *)
Theorem isOperatorObject_spec x inconsistentOK :
  (isOperatorObject x inconsistentOK = Ok true <->
   exists props,
     x = VObj props /\ props <> [] /\
     Forall (fun kv => starts_with_dollar (fst kv) = true) props) /\
  (forall props,
      x = VObj props -> numeric_length x = false -> mixed_keys props ->
      isOperatorObject x false = Throw (InconsistentOperator x) /\
      kind_of (InconsistentOperator x) = Some InconsistentOperatorError /\
      isOperatorObject x true = Ok false) /\
  (forall props,
      x = VObj props -> numeric_length x = false ->
      Forall (fun kv => starts_with_dollar (fst kv) = false) props ->
      isOperatorObject x inconsistentOK = Ok false) /\
  ((forall props, x <> VObj props) ->
   isOperatorObject x inconsistentOK = Ok false).
Proof.
  split; [|split; [|split]].
  - destruct (truthy (isPlainObject x)) eqn:Ep.
    + apply isPlainObject_truthy in Ep as [props ->].
      destruct (array_like_length (VObj props)) as [n|] eqn:Hlen.
      * split.
        -- intros H.
           destruct (@isOperatorObject_array_like _ _ inconsistentOK Hlen)
             as [H'|H']; rewrite H' in H; discriminate H.
        -- intros (props' & [= <-] & _ & Hall).
           apply array_like_inv in Hlen as (props' & [= <-] & E & _).
           apply assoc_get_In in E. rewrite Forall_forall in Hall.
           specialize (Hall _ E). discriminate Hall.
      * destruct (@isOperatorObject_by_name _ inconsistentOK Hlen) as (H & _).
        rewrite H. split.
        -- intros (Hne & Hall). eauto.
        -- intros (props' & [= <-] & Hne & Hall). auto.
    + rewrite isOperatorObject_not_plain by assumption. split.
      * discriminate.
      * intros (props & -> & _). discriminate Ep.
  - intros props -> Hlen Hmixed.
    apply numeric_length_array_like in Hlen.
    destruct (@isOperatorObject_by_name _ false Hlen) as (_ & H & _).
    destruct (H Hmixed) as (H1 & H2). repeat split; assumption.
  - intros props -> Hlen Hall.
    apply numeric_length_array_like in Hlen.
    now apply (@isOperatorObject_by_name _ inconsistentOK Hlen).
  - intros Hno. apply isOperatorObject_not_plain.
    destruct (truthy (isPlainObject x)) eqn:Ep; [|reflexivity].
    apply isPlainObject_truthy in Ep as [props ->]. now destruct (Hno props).
Qed.

(** The theorem at the selector [{$gt: 1, b: 2}]. *)
Lemma isOperatorObject_spec_witness :
  isOperatorObject (VObj [("$gt", VNum 1); ("b", VNum 2)]) false
  = Throw (InconsistentOperator (VObj [("$gt", VNum 1); ("b", VNum 2)])) /\
  isOperatorObject (VObj [("$gt", VNum 1); ("b", VNum 2)]) true = Ok false.
Proof.
  pose (x := VObj [("$gt", VNum 1); ("b", VNum 2)]).
  assert (Hm : mixed_keys [("$gt", VNum 1); ("b", VNum 2)]).
  { split.
    - exists ("$gt", VNum 1). split; [now left | reflexivity].
    - exists ("b", VNum 2). split; [right; now left | reflexivity]. }
  destruct (isOperatorObject_spec x false) as (_ & H & _).
  destruct (H _ eq_refl eq_refl Hm) as (H1 & _ & H2).
  split; assumption.
Defined.

(** ** Sorted keys *)

Lemma le_string_refl a : le_string a a.
Proof.
  unfold le_string, String.leb.
  pose proof (proj2 (String_as_OT.cmp_eq a a) eq_refl) as H.
  unfold String_as_OT.cmp in H. now rewrite H.
Qed.

Lemma le_string_trans a b c : le_string a b -> le_string b c -> le_string a c.
Proof.
  unfold le_string, String.leb. intros Hab Hbc.
  destruct (String.compare a b) eqn:Eab; try discriminate.
  - apply (String_as_OT.cmp_eq a b) in Eab. now subst.
  - destruct (String.compare b c) eqn:Ebc; try discriminate.
    + apply (String_as_OT.cmp_eq b c) in Ebc. subst. now rewrite Eab.
    + apply (String_as_OT.cmp_lt a b) in Eab.
      apply (String_as_OT.cmp_lt b c) in Ebc.
      pose proof (@String_as_OT.lt_trans a b c Eab Ebc) as Hac.
      apply String_as_OT.cmp_lt in Hac. unfold String_as_OT.cmp in Hac.
      now rewrite Hac.
Qed.

Lemma le_string_total a b : le_string a b \/ le_string b a.
Proof. apply String.leb_total. Qed.

Lemma le_string_antisym a b : le_string a b -> le_string b a -> a = b.
Proof. apply String.leb_antisym. Qed.

Lemma insert_sorted_perm s l : Permutation (insert_sorted s l) (s :: l).
Proof.
  induction l as [|x l IH]; simpl; [reflexivity|].
  destruct (String.leb s x); [reflexivity|].
  rewrite IH. apply perm_swap.
Qed.

Lemma sort_perm l : Permutation (sort l) l.
Proof.
  induction l as [|s l IH]; simpl; [reflexivity|].
  rewrite insert_sorted_perm. now constructor.
Qed.

Lemma sort_In l x : In x (sort l) <-> In x l.
Proof.
  split; apply Permutation_in; [apply sort_perm | symmetry; apply sort_perm].
Qed.

Lemma sort_NoDup l : NoDup l -> NoDup (sort l).
Proof.
  intros H. eapply Permutation_NoDup; [symmetry; apply sort_perm | exact H].
Qed.

Lemma insert_sorted_sorted s l :
  StronglySorted le_string l -> StronglySorted le_string (insert_sorted s l).
Proof.
  induction 1 as [|x l Hl IH Hx]; simpl.
  - constructor; constructor.
  - destruct (String.leb s x) eqn:E.
    + constructor; [now constructor|].
      constructor; [exact E|].
      eapply Forall_impl; [|exact Hx]. intros y Hy.
      now apply le_string_trans with x.
    + constructor; [assumption|].
      assert (Hxs : le_string x s).
      { destruct (le_string_total s x) as [H|H]; [unfold le_string in H; congruence|assumption]. }
      apply Forall_forall. intros y Hy.
      apply (Permutation_in _ (insert_sorted_perm s l)) in Hy.
      destruct Hy as [<-|Hy]; [assumption|].
      rewrite Forall_forall in Hx. auto.
Qed.

Lemma sort_sorted l : StronglySorted le_string (sort l).
Proof.
  induction l as [|s l IH]; simpl; [constructor|].
  now apply insert_sorted_sorted.
Qed.

Lemma filter_sorted (f : string -> bool) l :
  StronglySorted le_string l -> StronglySorted le_string (filter f l).
Proof.
  induction 1 as [|x l Hl IH Hx]; simpl; [constructor|].
  destruct (f x); [|assumption].
  constructor; [assumption|].
  apply Forall_forall. intros y Hy. apply filter_In in Hy as [Hy _].
  rewrite Forall_forall in Hx. auto.
Qed.

(** The working keys are the keys of the specification in sorted order,
    with or without [_id]. *)
Lemma working_keys_sorted fields :
  StronglySorted le_string (working_keys fields).
Proof.
  unfold working_keys.
  destruct (_ && _ && _)%bool;
    [apply filter_sorted|]; apply sort_sorted.
Qed.

Lemma working_keys_keys fields k :
  In k (working_keys fields) -> In k (keys fields).
Proof.
  unfold working_keys.
  destruct (_ && _ && _)%bool; intros H.
  - apply filter_In in H as [H _]. now apply sort_In.
  - now apply sort_In.
Qed.

Lemma working_keys_other fields k :
  In k (keys fields) -> k <> "_id" -> In k (working_keys fields).
Proof.
  unfold working_keys. intros Hin Hne.
  destruct (_ && _ && _)%bool.
  - apply filter_In. split; [now apply sort_In|].
    apply negb_true_iff. now apply String.eqb_neq.
  - now apply sort_In.
Qed.

Lemma working_keys_NoDup fields :
  NoDup (keys fields) -> NoDup (working_keys fields).
Proof.
  unfold working_keys. intros H.
  destruct (_ && _ && _)%bool;
    [apply NoDup_filter|]; now apply sort_NoDup.
Qed.

(** ** The mode of a specification *)

Lemma mode_loop fields b ks :
  each (mode_step fields) ks (Some b) =
  if forallb (fun k => Bool.eqb b (truthy (get fields k))) ks
  then Ok (Some b) else Throw (MinimongoError msg_mixed).
Proof.
  induction ks as [|k ks IH]; simpl; [reflexivity|].
  unfold mode_step at 1.
  destruct (Bool.eqb b (truthy (get fields k))); simpl; [exact IH|reflexivity].
Qed.

Lemma mode_loop_start fields k ks :
  each (mode_step fields) (k :: ks) None =
  each (mode_step fields) ks (Some (truthy (get fields k))).
Proof.
  simpl. unfold mode_step at 1. now rewrite Bool.eqb_reflx.
Qed.

Lemma mode_mixed fields ks k1 k2 :
  In k1 ks -> In k2 ks ->
  truthy (get fields k1) <> truthy (get fields k2) ->
  each (mode_step fields) ks None = Throw (MinimongoError msg_mixed).
Proof.
  intros H1 H2 Hne. destruct ks as [|k ks]; [contradiction|].
  rewrite mode_loop_start, mode_loop.
  destruct (forallb _ ks) eqn:F; [|reflexivity].
  exfalso. rewrite forallb_forall in F.
  assert (Hall : forall x, In x (k :: ks) ->
                           truthy (get fields x) = truthy (get fields k)).
  { intros x [<-|Hx]; [reflexivity|].
    specialize (F _ Hx). apply Bool.eqb_prop in F. now symmetry. }
  apply Hne. now rewrite (Hall _ H1), (Hall _ H2).
Qed.

Lemma details_mode fields d :
  projectionDetails fields = Ok d ->
  each (mode_step fields) (working_keys fields) None = Ok (including d).
Proof.
  unfold projectionDetails.
  destruct (each (mode_step fields) (working_keys fields) None) as [inc|e];
    [|discriminate].
  cbn [bind].
  destruct (pathsToTree _ _ _ _) as [t|e]; [|discriminate].
  cbn [bind]. now intros [= <-].
Qed.

(** C4, as the code has it.  A specification whose working keys (the
    sorted keys after the identifier-field removal rule; they contain
    every key other than [_id]) mix truthy and falsy values does not
    compile: [projectionDetails] throws the mixed-mode error, and so does
    [compileProjection] unless validation, which runs first, has already
    rejected the specification.  The mode is the truthiness of the first
    working key, which is the least in the order of the strings, and a
    later key with another truthiness makes [projectionDetails] throw. *)
Theorem mixed_modes_rejected fields :
  (forall k1 k2,
      In k1 (working_keys fields) -> In k2 (working_keys fields) ->
      truthy (get fields k1) <> truthy (get fields k2) ->
      projectionDetails fields = Throw (MinimongoError msg_mixed) /\
      exists e,
        _compileProjection fields = Throw e /\
        (_checkSupportedProjection fields = Ok tt ->
         e = MinimongoError msg_mixed)) /\
  kind_of (MinimongoError msg_mixed) = Some MixedProjectionModeError /\
  (forall k, In k (keys fields) -> k <> "_id" ->
             In k (working_keys fields)) /\
  (forall first rest,
      working_keys fields = first :: rest ->
      (forall k, In k rest -> String.leb first k = true) /\
      (forall d, projectionDetails fields = Ok d ->
                 including d = Some (truthy (get fields first))) /\
      (forall k, In k rest ->
                 truthy (get fields k) <> truthy (get fields first) ->
                 projectionDetails fields = Throw (MinimongoError msg_mixed))).
Proof.
  split; [|split; [|split]].
  - intros k1 k2 H1 H2 Hne.
    assert (Hd : projectionDetails fields = Throw (MinimongoError msg_mixed)).
    { unfold projectionDetails.
      now rewrite (@mode_mixed fields _ k1 k2 H1 H2 Hne). }
    split; [exact Hd|].
    unfold _compileProjection.
    destruct (_checkSupportedProjection fields) as [[]|e]; cbn [bind].
    + rewrite Hd. cbn [bind]. eauto.
    + exists e. split; [reflexivity|discriminate].
  - reflexivity.
  - intros k. apply working_keys_other.
  - intros first rest Hw. split; [|split].
    + pose proof (working_keys_sorted fields) as Hs. rewrite Hw in Hs.
      inversion Hs as [|? ? _ Hall]; subst.
      rewrite Forall_forall in Hall. exact Hall.
    + intros d Hd. apply details_mode in Hd.
      rewrite Hw, mode_loop_start, mode_loop in Hd.
      destruct (forallb _ rest); [congruence|discriminate].
    + intros k Hin Hne. unfold projectionDetails.
      rewrite (@mode_mixed fields (working_keys fields) k first);
        [reflexivity| | |assumption]; rewrite Hw; [now right|now left].
Qed.

(** The theorem at the specification [{a:1, b:0}]. *)
Lemma mixed_modes_rejected_witness :
  _compileProjection (VObj [("a", VNum 1); ("b", VNum 0)])
  = Throw (MinimongoError msg_mixed).
Proof.
  pose (fields := VObj [("a", VNum 1); ("b", VNum 0)]).
  destruct (mixed_modes_rejected fields) as (H & _).
  destruct (H "a" "b") as (_ & e & He & Hmixed).
  - simpl. now left.
  - simpl. right. now left.
  - simpl. discriminate.
  - fold fields. rewrite He. f_equal. now apply Hmixed.
Defined.

(** Mixed values do not always give the mixed-mode error: the values of
    [{a: 1, "b.$": 0}] mix a truthy and a falsy one, and the
    specification fails in the validation, which runs before the mode is
    looked at, with the unsupported-operator error. *)
Lemma mixed_modes_after_validation :
  working_keys (VObj [("a", VNum 1); ("b.$", VNum 0)]) = ["a"; "b.$"] /\
  truthy (get (VObj [("a", VNum 1); ("b.$", VNum 0)]) "a")
  <> truthy (get (VObj [("a", VNum 1); ("b.$", VNum 0)]) "b.$") /\
  projectionDetails (VObj [("a", VNum 1); ("b.$", VNum 0)])
  = Throw (MinimongoError msg_mixed) /\
  _compileProjection (VObj [("a", VNum 1); ("b.$", VNum 0)])
  = Throw (MinimongoError msg_dollar) /\
  kind_of (MinimongoError msg_dollar)
  = Some UnsupportedProjectionOperatorError /\
  kind_of (MinimongoError msg_dollar) <> Some MixedProjectionModeError.
Proof.
  split; [reflexivity|]. split; [discriminate|].
  split; [reflexivity|]. split; [reflexivity|].
  split; [reflexivity | discriminate].
Qed.

(** ** One key of the result *)

Lemma own_set_same v k x :
  assoc_get k (own_props (set v k x)) =
  if is_obj v then Some x else assoc_get k (own_props v).
Proof.
  destruct v; try reflexivity. simpl. apply assoc_get_set_same.
Qed.

Lemma own_set_other v k k' x :
  k <> k' -> assoc_get k (own_props (set v k' x)) = assoc_get k (own_props v).
Proof.
  intros Hne. destruct v; try reflexivity. simpl.
  now apply assoc_get_set_other.
Qed.

Lemma own_delete_same v k :
  assoc_get k (own_props (delete v k)) =
  if is_obj v then None else assoc_get k (own_props v).
Proof.
  destruct v; try reflexivity. simpl. apply assoc_get_del_same.
Qed.

Lemma own_delete_other v k k' :
  k <> k' -> assoc_get k (own_props (delete v k')) = assoc_get k (own_props v).
Proof.
  intros Hne. destruct v; try reflexivity. simpl.
  now apply assoc_get_del_other.
Qed.

Lemma rule_step_same d recur doc res key rule :
  assoc_get key (own_props (rule_step d recur doc res (key, rule))) =
  after_rule d recur doc key rule (is_obj res)
             (assoc_get key (own_props res)).
Proof.
  unfold rule_step, after_rule.
  destruct (negb (has doc key)); [reflexivity|].
  destruct rule.
  - destruct (is_including d).
    + apply own_set_same.
    + apply own_delete_same.
  - destruct (isObject (get doc key)); [apply own_set_same | reflexivity].
Qed.

Lemma rule_step_other d recur doc res key key' rule :
  key <> key' ->
  assoc_get key (own_props (rule_step d recur doc res (key', rule))) =
  assoc_get key (own_props res).
Proof.
  intros Hne. unfold rule_step.
  destruct (negb (has doc key')); [reflexivity|].
  destruct rule.
  - destruct (is_including d);
      [now apply own_set_other | now apply own_delete_other].
  - destruct (isObject (get doc key'));
      [now apply own_set_other | reflexivity].
Qed.

Lemma fold_rule_step_other d recur doc children res key :
  ~ In key (keys_of children) ->
  assoc_get key (own_props (fold_left (rule_step d recur doc) children res)) =
  assoc_get key (own_props res).
Proof.
  revert res. induction children as [|[k r] l IH]; intros res Hn; simpl.
  - reflexivity.
  - simpl in Hn. rewrite IH by tauto.
    apply rule_step_other. intros E. apply Hn. now left.
Qed.

Lemma fold_rule_step_same d recur doc children res key rule :
  NoDup (keys_of children) -> In (key, rule) children ->
  assoc_get key (own_props (fold_left (rule_step d recur doc) children res)) =
  after_rule d recur doc key rule (is_obj res)
             (assoc_get key (own_props res)).
Proof.
  revert res. induction children as [|[k r] l IH]; intros res Hnd Hin.
  - contradiction.
  - simpl in Hnd. inversion Hnd as [|? ? Hk Hnd']; subst.
    cbn [fold_left]. destruct Hin as [E|Hin].
    + injection E as -> ->.
      rewrite fold_rule_step_other by assumption. apply rule_step_same.
    + assert (Hne : key <> k).
      { intros ->. apply Hk. change k with (fst (k, rule)).
        now apply in_map. }
      rewrite IH by assumption.
      rewrite rule_step_is_obj. now rewrite rule_step_other.
Qed.

Lemma own_props_primitive doc key :
  is_obj doc = false -> _isArray doc = false ->
  isObject (get doc key) = false.
Proof.
  destruct doc as [ | | | |s| | | ]; try discriminate; try reflexivity.
  intros _ _. unfold get. simpl own_props.
  destruct (assoc_get key _) as [v|] eqn:E; [|reflexivity].
  apply assoc_get_In in E. apply in_app_or in E as [E|[E|[]]].
  - assert (H : forall i l, In (key, v) (indexed i (chars l)) ->
                            isObject v = false).
    { clear. intros i l. revert i.
      induction l as [|c l IH]; intros i; simpl; [tauto|].
      intros [E|H]; [injection E as _ <-; reflexivity | eauto]. }
    eauto.
  - injection E as _ <-. reflexivity.
Qed.

Lemma initial_result_is_obj d doc :
  is_obj doc = true -> is_obj (initial_result d doc) = true.
Proof.
  unfold initial_result. destruct (is_including d); [reflexivity|].
  destruct doc; try discriminate. reflexivity.
Qed.

(** What the code does at a subtree.  For a document that is not an array
    and a key at which the rule tree holds a subtree: the transform descends
    into [doc[key]] exactly when the document has the key and its value is
    an object in the sense of [_.isObject] (a nested document, an array,
    and also a date); the result then holds the transform of [doc[key]]
    under the subtree.  In every other case the property is left as the
    initial result has it: absent in inclusive mode, the copy of the
    original in exclusive mode.  [_.isObject] is not [isIndexable]: every
    indexable value is an object, a date is an object and not indexable. *)
Lemma subtree_descends_into_objects d children key sub doc :
  NoDup (keys_of children) ->
  In (key, Node sub) children ->
  _isArray doc = false ->
  assoc_get key (own_props (transform d doc (Node children))) =
    (if has doc key && isObject (get doc key)
     then Some (transform d (get doc key) (Node sub))
     else assoc_get key (own_props (initial_result d doc))) /\
  (forall v, truthy (isIndexable v) = true -> isObject v = true) /\
  (forall ms, isObject (VDate ms) = true /\
              truthy (isIndexable (VDate ms)) = false).
Proof.
  intros Hnd Hin Harr. split; [|split].
  - rewrite transform_node by assumption.
    rewrite fold_rule_step_same with (rule := Node sub) by assumption.
    unfold after_rule.
    destruct (has doc key) eqn:Eh; cbn [negb andb]; [|reflexivity].
    destruct (isObject (get doc key)) eqn:Eo; [|reflexivity].
    destruct (is_obj doc) eqn:Ed.
    + now rewrite initial_result_is_obj.
    + rewrite own_props_primitive in Eo by assumption. discriminate.
  - intros v. unfold isIndexable.
    destruct (isArray v) eqn:Ea.
    + intros _. destruct v; try discriminate. reflexivity.
    + intros H. apply isPlainObject_truthy in H as [props ->]. reflexivity.
  - intros ms. split; reflexivity.
Qed.

(** C2 at the failing input: the projection [{"a.b": 1}] of the document
    [{a: Date}].  The rule tree holds a subtree at [a], the document has
    the key, and its value, a date, is neither a nested document nor an
    array: [isIndexable] is false of it.  Left untouched, the property [a]
    of the result would be what the initial result has, nothing; the
    transform descends into the date and the result is [{a: {}}]. *)
Theorem date_subfield_is_entered :
  let doc := VObj [("a", VDate 0)] in
  let d := {| tree_of := [("a", Node [("b", Leaf (Some true))])];
              including := Some true |} in
  projectionDetails (VObj [("a.b", VNum 1)]) = Ok d /\
  has doc "a" = true /\
  truthy (isIndexable (get doc "a")) = false /\
  isObject (get doc "a") = true /\
  assoc_get "a" (own_props (initial_result d doc)) = None /\
  assoc_get "a" (own_props (transform d doc (Node (tree_of d))))
    = Some (transform d (get doc "a") (Node [("b", Leaf (Some true))])) /\
  transform d (get doc "a") (Node [("b", Leaf (Some true))]) = VObj [] /\
  apply_projection (VObj [("a.b", VNum 1)]) doc = Ok (VObj [("a", VObj [])]).
Proof.
  cbv zeta. repeat split; reflexivity.
Qed.

(** The lemma at the same projection and document. *)
Lemma subtree_descends_into_objects_witness :
  let d := {| tree_of := [("a", Node [("b", Leaf (Some true))])];
              including := Some true |} in
  assoc_get "a" (own_props (transform d (VObj [("a", VDate 0)])
                                      (Node (tree_of d))))
  = Some (transform d (VDate 0) (Node [("b", Leaf (Some true))])).
Proof.
  cbv zeta.
  refine (proj1 (@subtree_descends_into_objects _ _ "a"
                   [("b", Leaf (Some true))] (VObj [("a", VDate 0)]) _ _ _)).
  - simpl. constructor; [simpl; tauto | constructor].
  - simpl. left. reflexivity.
  - reflexivity.
Defined.

(** ** Rule trees are well formed *)

Lemma Forall_assoc_set (A : Type) (P : string * A -> Prop) k a l :
  Forall P l -> P (k, a) -> Forall P (assoc_set k a l).
Proof.
  intros Hl Hk. induction Hl as [|[k' a'] l Hx Hl IH]; simpl.
  - constructor; [assumption | constructor].
  - destruct (String.eqb k k'); constructor; assumption.
Qed.

Lemma wf_node_set (A : Type) k (t : tree A) children :
  wf_tree (Node children) -> wf_tree t ->
  wf_tree (Node (assoc_set k t children)).
Proof.
  intros Hc Ht. inversion Hc as [|? Hnd Hall]; subst.
  constructor.
  - now apply NoDup_keys_set.
  - now apply Forall_assoc_set.
Qed.

Lemma wf_node_get (A : Type) k (t : tree A) children :
  wf_tree (Node children) -> assoc_get k children = Some t -> wf_tree t.
Proof.
  intros Hc Hg. inversion Hc as [|? Hnd Hall]; subst.
  apply assoc_get_In in Hg. rewrite Forall_forall in Hall.
  exact (Hall _ Hg).
Qed.

(** *** Assignments to a node *)

Lemma tree_assign_cases (A : Type) key (t : tree A) treePos :
  tree_assign key t treePos = treePos \/
  tree_assign key t treePos = assoc_set key t treePos.
Proof.
  unfold tree_assign.
  destruct (String.eqb key "__proto__" && negb (assoc_has key treePos));
    auto.
Qed.

Lemma tree_assign_own (A : Type) key (t old : tree A) treePos :
  assoc_get key treePos = Some old ->
  tree_assign key t treePos = assoc_set key t treePos.
Proof.
  intros E. unfold tree_assign, assoc_has. rewrite E.
  now rewrite andb_false_r.
Qed.

Lemma tree_assign_plain (A : Type) key (t : tree A) treePos :
  key <> "__proto__" ->
  tree_assign key t treePos = assoc_set key t treePos.
Proof.
  intros Hne. unfold tree_assign.
  destruct (String.eqb_spec key "__proto__"); [contradiction | reflexivity].
Qed.

Lemma tree_assign_proto (A : Type) (t : tree A) treePos :
  assoc_get "__proto__" treePos = None ->
  tree_assign "__proto__" t treePos = treePos.
Proof. intros E. unfold tree_assign, assoc_has. now rewrite E. Qed.

Lemma wf_node_assign (A : Type) k (t : tree A) children :
  wf_tree (Node children) -> wf_tree t ->
  wf_tree (Node (tree_assign k t children)).
Proof.
  intros Hc Ht. destruct (tree_assign_cases k t children) as [-> | ->];
    [assumption | now apply wf_node_set].
Qed.

Lemma walk_wf newLeafFn keyPath lastKey inner :
  forall seen treePos treePos',
    wf_tree (Node treePos) ->
    walk newLeafFn projection_conflict keyPath lastKey seen inner treePos
    = Ok treePos' ->
    wf_tree (Node treePos').
Proof.
  induction inner as [|key rest IH]; intros seen treePos treePos' Hwf; simpl.
  - destruct (assoc_get lastKey treePos) as [old|]; [discriminate|].
    intros [= <-]. apply wf_node_assign; [assumption | constructor].
  - destruct (assoc_get key treePos) as [[a|children]|] eqn:E.
    + discriminate.
    + destruct (walk _ _ _ _ _ rest children) as [sub|e] eqn:W;
        [|discriminate].
      intros [= <-]. apply wf_node_assign; [assumption|].
      eapply IH; [|exact W]. eapply wf_node_get; eassumption.
    + destruct (walk _ _ _ _ _ rest []) as [sub|e] eqn:W; [|discriminate].
      intros [= <-]. apply wf_node_assign; [assumption|].
      eapply IH; [|exact W]. constructor; constructor.
Qed.

Lemma pathsToTree_wf newLeafFn paths :
  forall root root',
    wf_tree (Node root) ->
    pathsToTree newLeafFn projection_conflict paths root = Ok root' ->
    wf_tree (Node root').
Proof.
  unfold pathsToTree.
  induction paths as [|p paths IH]; intros root root' Hwf; simpl.
  - now intros [= <-].
  - destruct (add_path _ _ root p) as [t|e] eqn:E; [|discriminate].
    cbn [bind]. apply IH. unfold add_path in E.
    eapply walk_wf; eassumption.
Qed.

Lemma details_tree fields d :
  projectionDetails fields = Ok d ->
  pathsToTree (fun _ => including d) projection_conflict
              (working_keys fields) [] = Ok (tree_of d).
Proof.
  unfold projectionDetails.
  destruct (each (mode_step fields) (working_keys fields) None) as [inc|e];
    [|discriminate].
  cbn [bind].
  destruct (pathsToTree _ _ _ _) as [t|e] eqn:E; [|discriminate].
  cbn [bind]. intros [= <-]. exact E.
Qed.

Lemma details_wf fields d :
  projectionDetails fields = Ok d -> wf_tree (Node (tree_of d)).
Proof.
  intros H. apply details_tree in H.
  eapply pathsToTree_wf; [|exact H]. constructor; constructor.
Qed.

(** ** The inclusive transform *)

Lemma assoc_get_app (A : Type) k (l1 l2 : list (string * A)) :
  assoc_get k (l1 ++ l2) =
  match assoc_get k l1 with Some a => Some a | None => assoc_get k l2 end.
Proof.
  induction l1 as [|[k' a'] l1 IH]; simpl; [reflexivity|].
  destruct (String.eqb k k'); [reflexivity | exact IH].
Qed.

Lemma pick_key recur doc kr e : pick recur doc kr = Some e -> fst e = fst kr.
Proof.
  unfold pick. destruct kr as [key rule].
  destruct (has doc key); [|discriminate].
  destruct rule.
  - now intros [= <-].
  - destruct (isObject (get doc key)); [now intros [= <-] | discriminate].
Qed.

Lemma rule_step_pick d recur doc acc kr :
  is_including d = true ->
  rule_step d recur doc (VObj acc) kr =
  match pick recur doc kr with
  | Some e => VObj (assoc_set (fst e) (snd e) acc)
  | None => VObj acc
  end.
Proof.
  intros Hi. unfold rule_step, pick. destruct kr as [key rule].
  destruct (has doc key); [|reflexivity]. cbn [negb].
  destruct rule.
  - rewrite Hi. reflexivity.
  - destruct (isObject (get doc key)); reflexivity.
Qed.

(** In inclusive mode the rules append, in the order of the rule tree,
    the properties they pick. *)
Lemma fold_inclusive d recur doc children :
  is_including d = true ->
  NoDup (keys_of children) ->
  forall acc,
    (forall k, In k (keys_of children) -> assoc_get k acc = None) ->
    fold_left (rule_step d recur doc) children (VObj acc) =
    VObj (acc ++ collect (pick recur doc) children).
Proof.
  intros Hi. induction children as [|kr l IH]; intros Hnd acc Hfresh.
  - simpl. now rewrite app_nil_r.
  - cbn [fold_left collect]. simpl in Hnd.
    inversion Hnd as [|? ? Hk Hnd']; subst.
    rewrite rule_step_pick by assumption.
    destruct (pick recur doc kr) as [e|] eqn:E.
    + pose proof (pick_key _ _ _ E) as Hke.
      rewrite assoc_set_fresh.
      2:{ apply Hfresh. rewrite Hke. now left. }
      rewrite IH; [| assumption |].
      * rewrite <- app_assoc. destruct e. reflexivity.
      * intros k Hin. rewrite assoc_get_app, Hfresh by now right.
        destruct e as [ke ve]. simpl in *. subst ke.
        destruct (String.eqb_spec k (fst kr)) as [->|]; [contradiction|].
        reflexivity.
    + apply IH; [assumption|]. intros k Hin. apply Hfresh. now right.
Qed.

Lemma transform_inclusive d doc children :
  is_including d = true -> _isArray doc = false ->
  NoDup (keys_of children) ->
  transform d doc (Node children) =
  VObj (collect (pick (fun rule sub => transform d sub rule) doc) children).
Proof.
  intros Hi Ha Hnd. rewrite transform_node by assumption.
  unfold initial_result. rewrite Hi.
  now rewrite fold_inclusive.
Qed.

(** An inclusive transform returns a new array or a new object. *)
Lemma transform_inclusive_object d doc ruleTree :
  is_including d = true -> isObject (transform d doc ruleTree) = true.
Proof.
  intros Hi. destruct (_isArray doc) eqn:Ea.
  - destruct doc; try discriminate. now rewrite transform_array.
  - destruct ruleTree as [a|children].
    + rewrite transform_leaf by assumption. unfold initial_result.
      now rewrite Hi.
    + rewrite transform_node by assumption.
      assert (H : is_obj (fold_left
                            (rule_step d (fun rule sub => transform d sub rule) doc)
                            children (initial_result d doc)) = true).
      { rewrite fold_rule_step_is_obj. unfold initial_result. now rewrite Hi. }
      destruct (fold_left _ _ _); try discriminate. reflexivity.
Qed.

Lemma pick_lookup recur doc key rule :
  pick recur doc (key, rule) =
  match assoc_get key (own_props doc) with
  | Some v =>
      match rule with
      | Node _ => if isObject v then Some (key, recur rule v) else None
      | Leaf _ => Some (key, clone v)
      end
  | None => None
  end.
Proof.
  unfold pick, has, get, assoc_has.
  destruct (assoc_get key (own_props doc)); reflexivity.
Qed.

Lemma pick_ext recur doc1 doc2 key rule :
  assoc_get key (own_props doc1) = assoc_get key (own_props doc2) ->
  pick recur doc1 (key, rule) = pick recur doc2 (key, rule).
Proof. intros H. now rewrite !pick_lookup, H. Qed.

Lemma collect_ext (A B : Type) (f g : A -> option B) l :
  (forall a, In a l -> f a = g a) -> collect f l = collect g l.
Proof.
  induction l as [|a l IH]; intros H; simpl; [reflexivity|].
  rewrite (H a) by now left.
  rewrite IH; [reflexivity|]. intros b Hb. apply H. now right.
Qed.

(** What an inclusive transform has at a key of its rule tree. *)
Lemma transform_inclusive_lookup d doc children key rule :
  is_including d = true -> _isArray doc = false ->
  NoDup (keys_of children) -> In (key, rule) children ->
  assoc_get key (own_props (transform d doc (Node children))) =
  option_map snd (pick (fun rule sub => transform d sub rule) doc (key, rule)).
Proof.
  intros Hi Ha Hnd Hin. rewrite transform_node by assumption.
  rewrite fold_rule_step_same with (rule := rule) by assumption.
  unfold after_rule, pick, initial_result. rewrite Hi. cbn [is_obj own_props].
  destruct (has doc key); [|reflexivity]. cbn [negb assoc_get].
  destruct rule; [reflexivity|].
  destruct (isObject (get doc key)); reflexivity.
Qed.

(** The rule at [key] picks from the result what it picked from the
    document, once the transform under its subtree is idempotent. *)
Lemma pick_again d doc children key rule :
  is_including d = true -> _isArray doc = false ->
  NoDup (keys_of children) -> In (key, rule) children ->
  (forall sub, transform d (transform d sub rule) rule = transform d sub rule) ->
  pick (fun rule sub => transform d sub rule)
       (transform d doc (Node children)) (key, rule) =
  pick (fun rule sub => transform d sub rule) doc (key, rule).
Proof.
  intros Hi Ha Hnd Hin Hidem.
  rewrite (pick_lookup _ (transform d doc (Node children))).
  rewrite transform_inclusive_lookup with (rule := rule) by assumption.
  rewrite (pick_lookup _ doc).
  destruct (assoc_get key (own_props doc)) as [v|]; [|reflexivity].
  destruct rule as [a|sub].
  - cbn [option_map snd]. now rewrite clone_id.
  - destruct (isObject v) eqn:Eo; [|reflexivity].
    cbn [option_map snd]. rewrite transform_inclusive_object by assumption.
    now rewrite Hidem.
Qed.

Lemma map_idem (f : value -> value) elems :
  Forall (fun x => f (f x) = f x) elems -> map f (map f elems) = map f elems.
Proof.
  induction 1 as [|x l Hx _ IH]; cbn [map]; [reflexivity|].
  now rewrite Hx, IH.
Qed.

(** The recursive pass of an inclusive projection is idempotent. *)
Lemma transform_idempotent d ruleTree :
  is_including d = true -> wf_tree ruleTree ->
  forall doc,
    transform d (transform d doc ruleTree) ruleTree = transform d doc ruleTree.
Proof.
  intros Hi.
  induction ruleTree as [a|children IH] using tree_nested_ind; intros Hwf doc.
  - induction doc as [ | | | | | |elems IHe|props _] using value_nested_ind;
      try (match goal with
           | |- _ = transform d ?x _ =>
               rewrite (@transform_leaf d x a) by reflexivity
           end;
           unfold initial_result; rewrite Hi;
           rewrite transform_leaf by reflexivity;
           unfold initial_result; now rewrite Hi).
    rewrite !transform_array. f_equal.
    now apply (map_idem (fun subdoc => transform d subdoc (Leaf a))).
  - inversion Hwf as [|? Hnd Hall]; subst.
    assert (Hobj : forall doc, _isArray doc = false ->
              transform d (transform d doc (Node children)) (Node children)
              = transform d doc (Node children)).
    { intros doc0 Ha.
      rewrite (transform_inclusive d (transform d doc0 (Node children)));
        [| assumption | | assumption].
      2:{ rewrite transform_inclusive by assumption. reflexivity. }
      rewrite (transform_inclusive d doc0) at 2 by assumption.
      f_equal. apply collect_ext. intros [key rule] Hin.
      apply pick_again; try assumption.
      rewrite Forall_forall in IH, Hall.
      intros sub. apply (IH _ Hin). exact (Hall _ Hin). }
    induction doc as [ | | | | | |elems IHe|props _] using value_nested_ind;
      try (apply Hobj; reflexivity).
    rewrite !transform_array. f_equal.
    now apply (map_idem (fun subdoc => transform d subdoc (Node children))).
Qed.

(** ** The compiled projection in inclusive mode *)

Lemma has_id_object doc : has doc "_id" = true -> is_obj doc = true.
Proof.
  destruct doc as [ | | | |s| |elems|props]; try discriminate;
    try reflexivity; unfold has, assoc_has; simpl own_props;
    rewrite assoc_get_app, indexed_get_None by reflexivity; discriminate.
Qed.

Lemma has_id_array elems : has (VArr elems) "_id" = false.
Proof.
  destruct (has (VArr elems) "_id") eqn:E; [|reflexivity].
  apply has_id_object in E. discriminate.
Qed.

(** On an array the compiled projection is the recursive pass alone. *)
Lemma compiled_array idp d elems :
  compiled idp d (VArr elems) =
  VArr (map (fun subdoc => transform d subdoc (Node (tree_of d))) elems).
Proof.
  unfold compiled. rewrite has_id_array, andb_false_r.
  rewrite transform_array, has_id_array, andb_false_r. reflexivity.
Qed.

Lemma In_assoc_del (A : Type) k k' (a : A) l :
  In (k, a) (assoc_del k' l) -> k <> k' /\ In (k, a) l.
Proof.
  induction l as [|[k1 a1] l IH]; simpl; [tauto|].
  destruct (String.eqb_spec k' k1) as [->|Hne].
  - intros H. destruct (IH H). auto.
  - intros [E|H].
    + injection E as -> ->. split; [congruence | now left].
    + destruct (IH H). auto.
Qed.

Lemma del_collect_pick recur doc k children :
  assoc_del k (collect (pick recur doc) children) =
  collect (pick recur doc) (assoc_del k children).
Proof.
  induction children as [|kr l IH]; [reflexivity|].
  cbn [collect]. destruct kr as [key rule].
  destruct (pick recur doc (key, rule)) as [e|] eqn:E.
  - pose proof (pick_key _ _ _ E) as Hk. destruct e as [ke ve].
    simpl in Hk. subst ke. cbn [assoc_del].
    destruct (String.eqb k key); [exact IH|].
    cbn [collect]. now rewrite E, IH.
  - cbn [assoc_del]. destruct (String.eqb k key); [exact IH|].
    cbn [collect]. now rewrite E.
Qed.

Lemma assoc_del_twice (A : Type) k (l : list (string * A)) :
  assoc_del k (assoc_del k l) = assoc_del k l.
Proof. apply assoc_del_absent, assoc_get_del_same. Qed.

Lemma remove_if_present k props :
  (if has (VObj props) k then delete (VObj props) k else VObj props) =
  VObj (assoc_del k props).
Proof.
  unfold has. simpl. destruct (assoc_has k props) eqn:E; [reflexivity|].
  apply assoc_has_false in E. now rewrite assoc_del_absent.
Qed.

Lemma wf_subtree (A : Type) children key (rule : tree A) :
  wf_tree (Node children) -> In (key, rule) children -> wf_tree rule.
Proof.
  intros Hwf Hin. inversion Hwf as [|? _ Hall]; subst.
  rewrite Forall_forall in Hall. exact (Hall _ Hin).
Qed.

(** An inclusive transform sets no key the document does not have. *)
Lemma transform_inclusive_has d doc children k :
  is_including d = true -> _isArray doc = false ->
  NoDup (keys_of children) ->
  has (transform d doc (Node children)) k = true ->
  has doc k = true /\ In k (keys_of children).
Proof.
  intros Hi Ha Hnd. unfold has at 1. unfold assoc_has.
  destruct (in_dec string_dec k (keys_of children)) as [Hin|Hnin].
  - unfold keys_of in Hin. apply in_map_iff in Hin as ([k' rule] & <- & Hin).
    simpl. rewrite transform_inclusive_lookup with (rule := rule)
      by assumption.
    unfold pick. destruct (has doc k'); [|discriminate].
    intros _. split; [reflexivity|].
    change k' with (fst (k', rule)). now apply in_map.
  - rewrite transform_node by assumption.
    rewrite fold_rule_step_other by assumption.
    unfold initial_result. rewrite Hi. discriminate.
Qed.

Lemma compiled_idempotent idp d :
  is_including d = true -> wf_tree (Node (tree_of d)) ->
  forall doc, compiled idp d (compiled idp d doc) = compiled idp d doc.
Proof.
  intros Hi Hwf doc.
  pose proof Hwf as Hwf'. inversion Hwf' as [|? Hnd _]; subst.
  destruct (_isArray doc) eqn:Ea.
  { destruct doc; try discriminate. rewrite !compiled_array. f_equal.
    apply (map_idem (fun subdoc => transform d subdoc (Node (tree_of d)))).
    apply Forall_forall. intros x _. now apply transform_idempotent. }
  set (recur := fun (rule : tree (option bool)) sub => transform d sub rule).
  assert (Hagain : forall key rule,
             In (key, rule) (tree_of d) ->
             pick recur (transform d doc (Node (tree_of d))) (key, rule)
             = pick recur doc (key, rule)).
  { intros key rule Hin. apply pick_again; try assumption.
    intros sub. apply transform_idempotent; [assumption|].
    eapply wf_subtree; eassumption. }
  pose proof (@transform_inclusive d doc (tree_of d) Hi Ea Hnd) as HR.
  fold recur in HR.
  set (L := collect (pick recur doc) (tree_of d)) in *.
  destruct (truthy idp) eqn:Et; [destruct (has doc "_id") eqn:Eh|].
  - assert (HF : compiled idp d doc
                 = VObj (assoc_set "_id" (get doc "_id") L)).
    { unfold compiled. rewrite HR, Et, Eh. reflexivity. }
    rewrite HF. unfold compiled. rewrite Et. cbn [negb andb].
    assert (Hh : has (VObj (assoc_set "_id" (get doc "_id") L)) "_id" = true)
      by apply has_set_same.
    rewrite Hh.
    rewrite (@transform_inclusive d (VObj (assoc_set "_id" (get doc "_id") L)))
      by (assumption || reflexivity).
    fold recur.
    assert (HL : collect (pick recur (VObj (assoc_set "_id" (get doc "_id") L)))
                         (tree_of d) = L).
    { apply collect_ext. intros [key rule] Hin.
      destruct (String.eqb_spec key "_id") as [->|Hne].
      - apply pick_ext. simpl. rewrite assoc_get_set_same.
        unfold has, assoc_has, get in *.
        destruct (assoc_get "_id" (own_props doc)); [reflexivity|discriminate].
      - rewrite <- Hagain by assumption. rewrite HR.
        apply pick_ext. simpl. now apply assoc_get_set_other. }
    rewrite HL.
    change (VObj (assoc_set "_id" (get doc "_id") L))
      with (set (VObj L) "_id" (get doc "_id")).
    now rewrite get_set_same.
  - assert (Hno : has (transform d doc (Node (tree_of d))) "_id" = false).
    { destruct (has (transform d doc (Node (tree_of d))) "_id") eqn:E;
        [|reflexivity].
      apply transform_inclusive_has in E; try assumption.
      destruct E. congruence. }
    assert (HF : compiled idp d doc = transform d doc (Node (tree_of d))).
    { unfold compiled. rewrite Et, Eh. reflexivity. }
    rewrite HF. unfold compiled. rewrite Et, Hno. cbn [negb andb].
    now apply transform_idempotent.
  - assert (HF : compiled idp d doc = VObj (assoc_del "_id" L)).
    { unfold compiled. rewrite HR, Et. cbn [negb andb].
      apply remove_if_present. }
    rewrite HF. unfold compiled. rewrite Et. cbn [negb andb].
    rewrite (@transform_inclusive d (VObj (assoc_del "_id" L)))
      by (assumption || reflexivity).
    fold recur. rewrite remove_if_present. f_equal.
    transitivity (collect (pick recur doc) (assoc_del "_id" (tree_of d))).
    + rewrite del_collect_pick.
      apply collect_ext. intros [key rule] Hin.
      apply In_assoc_del in Hin as [Hne Hin].
      rewrite <- Hagain by assumption. rewrite HR.
      apply pick_ext. simpl. now apply assoc_get_del_other.
    + symmetry. apply del_collect_pick.
Qed.

(** C6. For a specification that compiles to [f] in inclusive mode, and
    for every document, [f (f doc)] is [f doc]: equal as a value, hence
    deep-equal. *)
Theorem inclusive_projection_idempotent fields f d :
  _compileProjection fields = Ok f ->
  projectionDetails fields = Ok d ->
  including d = Some true ->
  forall doc, f (f doc) = f doc.
Proof.
  intros Hc Hd Hi doc.
  destruct (@compile_inv fields f Hc) as (_ & d' & Hd' & ->).
  assert (d' = d) by congruence. subst d'.
  apply compiled_idempotent.
  - unfold is_including. now rewrite Hi.
  - eapply details_wf. eassumption.
Qed.

(** The theorem at the specification [{"a.b": 1}] and a document with an
    array under [a]. *)
Lemma inclusive_projection_idempotent_witness :
  let doc := VObj [("_id", VStr "x");
                   ("a", VArr [VObj [("b", VNum 1); ("c", VNum 2)]; VNum 3])] in
  exists f, _compileProjection (VObj [("a.b", VNum 1)]) = Ok f /\
            f (f doc) = f doc.
Proof.
  cbv zeta. eexists. split; [reflexivity|].
  eapply (@inclusive_projection_idempotent (VObj [("a.b", VNum 1)])); reflexivity.
Defined.

(** ** The keys at the root of a rule tree *)

Lemma keys_of_set_In (A : Type) k k' (a : A) l :
  In k (keys_of (assoc_set k' a l)) -> In k (keys_of l) \/ k = k'.
Proof.
  rewrite keys_of_set. destruct (assoc_has k' l); [tauto|].
  intros H. apply in_app_or in H as [H|[H|[]]]; auto.
Qed.

Lemma keys_of_assign_In (A : Type) k k' (t : tree A) l :
  In k (keys_of (tree_assign k' t l)) -> In k (keys_of l) \/ k = k'.
Proof.
  destruct (tree_assign_cases k' t l) as [-> | ->];
    [auto | apply keys_of_set_In].
Qed.

Lemma walk_root_keys (A : Type) (newLeafFn : string -> A) conflictFn
      keyPath lastKey seen inner treePos treePos' :
  walk newLeafFn conflictFn keyPath lastKey seen inner treePos = Ok treePos' ->
  forall k, In k (keys_of treePos') ->
            In k (keys_of treePos) \/ k = hd lastKey inner.
Proof.
  destruct inner as [|key rest]; simpl.
  - destruct (assoc_get lastKey treePos) as [old|].
    + destruct (conflictFn old keyPath keyPath) as [r|e]; [|discriminate].
      cbn [bind]. intros [= <-] k. apply keys_of_assign_In.
    + intros [= <-] k. apply keys_of_assign_In.
  - destruct (assoc_get key treePos) as [[a|children]|].
    + destruct (conflictFn _ _ _) as [[a'|children]|e]; cbn [bind];
        [| |discriminate].
      * intros [= <-] k. apply keys_of_assign_In.
      * destruct (walk _ _ _ _ _ rest children) as [sub|e]; [|discriminate].
        cbn [bind]. intros [= <-] k. apply keys_of_assign_In.
    + destruct (walk _ _ _ _ _ rest children) as [sub|e]; [|discriminate].
      cbn [bind]. intros [= <-] k. apply keys_of_assign_In.
    + destruct (walk _ _ _ _ _ rest []) as [sub|e]; [|discriminate].
      cbn [bind]. intros [= <-] k. apply keys_of_assign_In.
Qed.

Lemma hd_removelast (l : list string) :
  hd (last l "") (removelast l) = hd "" l.
Proof. destruct l as [|x [|y l]]; reflexivity. Qed.

Lemma pathsToTree_root_keys (A : Type) (newLeafFn : string -> A) conflictFn
      paths :
  forall root root',
    pathsToTree newLeafFn conflictFn paths root = Ok root' ->
    forall k, In k (keys_of root') ->
              In k (keys_of root) \/
              exists p, In p paths /\ hd "" (split dot p) = k.
Proof.
  unfold pathsToTree.
  induction paths as [|p paths IH]; intros root root'; simpl.
  - intros [= <-]. auto.
  - destruct (add_path newLeafFn conflictFn root p) as [t|e] eqn:E;
      [|discriminate].
    cbn [bind]. intros H k Hk.
    destruct (IH _ _ H k Hk) as [Hin|(q & Hq & Hhd)].
    + unfold add_path in E.
      destruct (walk_root_keys _ _ _ _ _ _ _ E k Hin) as [Hr|Hr]; [auto|].
      right. exists p. split; [now left|].
      now rewrite Hr, hd_removelast.
    + right. exists q. split; [now right | assumption].
Qed.

(** C10. On an array the compiled projection maps the recursive pass over
    the elements, and the identifier-field rule is applied to none of
    them.  In inclusive mode, when no working key of the specification
    begins with the segment [_id], no element of the result has an [_id];
    so [{a:1}] maps [[{_id:"x", a:1}]] to [[{a:1}]], while [{_id:1, a:1}],
    which names [_id], keeps it. *)
Theorem array_elements_skip_id_rule fields f :
  _compileProjection fields = Ok f ->
  (exists d,
      projectionDetails fields = Ok d /\
      (forall elems,
          f (VArr elems) =
          VArr (map (fun subdoc => transform d subdoc (Node (tree_of d)))
                    elems)) /\
      (including d = Some true ->
       Forall (fun k => hd "" (split dot k) <> "_id") (working_keys fields) ->
       forall elems r,
         f (VArr elems) = VArr r ->
         Forall (fun x => has x "_id" = false) r)) /\
  apply_projection (VObj [("a", VNum 1)])
                   (VArr [VObj [("_id", VStr "x"); ("a", VNum 1)]])
  = Ok (VArr [VObj [("a", VNum 1)]]) /\
  apply_projection (VObj [("_id", VNum 1); ("a", VNum 1)])
                   (VArr [VObj [("_id", VStr "x"); ("a", VNum 1)]])
  = Ok (VArr [VObj [("_id", VStr "x"); ("a", VNum 1)]]).
Proof.
  intros Hc. split; [|split; reflexivity].
  destruct (@compile_inv fields f Hc) as (_ & d & Hd & ->).
  exists d. split; [assumption|]. split.
  - intros elems. apply compiled_array.
  - intros Hi Hkeys elems r. rewrite compiled_array. intros [= <-].
    pose proof (details_wf _ Hd) as Hwf.
    inversion Hwf as [|? Hnd _]; subst.
    assert (Hno : ~ In "_id" (keys_of (tree_of d))).
    { intros Hin.
      destruct (pathsToTree_root_keys _ _ _ _ (details_tree _ Hd) _ Hin)
        as [[]|(p & Hp & Hhd)].
      rewrite Forall_forall in Hkeys. exact (Hkeys _ Hp Hhd). }
    apply Forall_forall. intros x Hx.
    apply in_map_iff in Hx as (subdoc & <- & _).
    destruct (_isArray subdoc) eqn:Ea.
    + destruct subdoc; try discriminate.
      rewrite transform_array. apply has_id_array.
    + destruct (has (transform d subdoc (Node (tree_of d))) "_id") eqn:E;
        [|reflexivity].
      apply transform_inclusive_has in E; try assumption.
      * destruct E as [_ E]. contradiction.
      * unfold is_including. now rewrite Hi.
Qed.

(** The theorem at the specification [{a:1}] and an array of two
    documents. *)
Lemma array_elements_skip_id_rule_witness :
  exists f,
    _compileProjection (VObj [("a", VNum 1)]) = Ok f /\
    f (VArr [VObj [("_id", VStr "x"); ("a", VNum 1)];
             VObj [("_id", VStr "y"); ("b", VNum 2)]])
    = VArr [VObj [("a", VNum 1)]; VObj []].
Proof.
  eexists. split; [reflexivity|].
  destruct (@array_elements_skip_id_rule (VObj [("a", VNum 1)]) _ eq_refl)
    as ((d & Hd & Harr & _) & _).
  rewrite Harr. injection Hd as <-. reflexivity.
Defined.

(** ** Paths and their segments *)

Lemma split_nonempty sep s : split sep s <> [].
Proof.
  destruct s as [|c s]; simpl; [discriminate|].
  destruct (Ascii.eqb c sep); [discriminate|].
  destruct (split sep s); discriminate.
Qed.

Lemma join_cons_char c seg segs :
  join (String c seg :: segs) = String c (join (seg :: segs)).
Proof. unfold join. destruct segs; reflexivity. Qed.

(** Joining the segments gives the path back. *)
Lemma join_split s : join (split dot s) = s.
Proof.
  induction s as [|c s IH]; [reflexivity|]. simpl.
  destruct (Ascii.eqb_spec c dot) as [->|Hne].
  - pose proof (split_nonempty dot s) as Hn.
    destruct (split dot s) as [|y l] eqn:E; [contradiction|].
    change (join ("" :: y :: l)) with ("" ++ "." ++ join (y :: l)).
    now rewrite IH.
  - pose proof (split_nonempty dot s) as Hn.
    destruct (split dot s) as [|seg segs] eqn:E; [contradiction|].
    now rewrite join_cons_char, IH.
Qed.

Lemma split_inj p q : split dot p = split dot q -> p = q.
Proof. intros H. rewrite <- (join_split p), <- (join_split q). now rewrite H. Qed.

Lemma append_assoc (s1 s2 s3 : string) :
  (s1 ++ s2) ++ s3 = s1 ++ (s2 ++ s3).
Proof. induction s1 as [|c s1 IH]; simpl; [reflexivity | now rewrite IH]. Qed.

Lemma join_app a b :
  a <> [] -> b <> [] -> join (a ++ b) = join a ++ "." ++ join b.
Proof.
  intros Ha Hb. induction a as [|x a IH]; [contradiction|].
  destruct a as [|y a].
  - destruct b as [|z b]; [contradiction|]. reflexivity.
  - change (join ((x :: y :: a) ++ b))
      with (x ++ "." ++ join ((y :: a) ++ b)).
    rewrite IH by discriminate.
    change (join (x :: y :: a)) with (x ++ "." ++ join (y :: a)).
    now rewrite !append_assoc.
Qed.

Lemma ascii_compare_refl c : Ascii.compare c c = Eq.
Proof. unfold Ascii.compare. apply N.compare_refl. Qed.

Lemma le_string_prefix p s : le_string p (p ++ s).
Proof.
  unfold le_string, String.leb.
  induction p as [|c p IH]; simpl.
  - destruct s; reflexivity.
  - now rewrite ascii_compare_refl.
Qed.

(** A strict dot-prefix comes first in the order of the strings. *)
Lemma strict_dot_prefix_le p q : strict_dot_prefix p q -> le_string p q.
Proof.
  intros (suffix & Hne & E).
  rewrite <- (join_split q), E.
  rewrite join_app by (assumption || apply split_nonempty).
  rewrite join_split. apply le_string_prefix.
Qed.


Lemma sorted_before done k todo r :
  StronglySorted le_string (done ++ k :: todo) -> In r done -> le_string r k.
Proof.
  induction done as [|x done IH]; simpl; [tauto|].
  intros Hs [<-|Hin].
  - inversion Hs as [|? ? _ Hall]; subst.
    rewrite Forall_forall in Hall. apply Hall.
    apply in_or_app. right. now left.
  - inversion Hs; subst. auto.
Qed.

(** ** Where the leaves of the tree are *)

Section positions.
Variable A : Type.
Implicit Types (children : list (string * tree A)) (t : tree A).

Lemma leaf_at_nil segs : ~ leaf_at segs (@nil (string * tree A)).
Proof. destruct segs; simpl; tauto. Qed.

Lemma occupied_nil segs : occupied segs (@nil (string * tree A)) -> segs = [].
Proof. destruct segs; simpl; tauto. Qed.

Lemma leaf_at_set_same key rest t children :
  leaf_at (key :: rest) (assoc_set key t children) <->
  match t with Leaf _ => rest = [] | Node sub => leaf_at rest sub end.
Proof. simpl. rewrite assoc_get_set_same. reflexivity. Qed.

Lemma leaf_at_set_other key key' rest t children :
  key <> key' ->
  leaf_at (key :: rest) (assoc_set key' t children) <->
  leaf_at (key :: rest) children.
Proof. intros H. simpl. rewrite assoc_get_set_other by assumption. reflexivity. Qed.

Lemma occupied_set_same key rest t children :
  occupied (key :: rest) (assoc_set key t children) <->
  match t with Leaf _ => rest = [] | Node sub => occupied rest sub end.
Proof. simpl. rewrite assoc_get_set_same. reflexivity. Qed.

Lemma occupied_set_other key key' rest t children :
  key <> key' ->
  occupied (key :: rest) (assoc_set key' t children) <->
  occupied (key :: rest) children.
Proof. intros H. simpl. rewrite assoc_get_set_other by assumption. reflexivity. Qed.

(** A leaf has nothing below it. *)
Lemma leaf_at_no_extension segs suffix children :
  leaf_at segs children -> suffix <> [] -> ~ leaf_at (segs ++ suffix) children.
Proof.
  revert children. induction segs as [|key rest IH]; intros children; simpl.
  - tauto.
  - destruct (assoc_get key children) as [[a|sub]|]; [| |tauto].
    + intros -> Hs. simpl. intros ->. contradiction.
    + apply IH.
Qed.
End positions.

Section walk_positions.
Variable newLeafFn : string -> option bool.
Variable keyPath lastKey : string.

(** A walk that ends well, on a path without a segment [__proto__], has
    added one leaf, at the end of its path, and objects on the way to
    it. *)
Lemma walk_ok inner :
  forall seen treePos treePos',
    ~ In "__proto__" (inner ++ [lastKey])%list ->
    walk newLeafFn projection_conflict keyPath lastKey seen inner treePos
    = Ok treePos' ->
    (forall q, leaf_at q treePos' <->
               leaf_at q treePos \/ q = (inner ++ [lastKey])%list) /\
    (forall q, occupied q treePos' ->
               occupied q treePos \/
               exists suffix, (inner ++ [lastKey] = q ++ suffix)%list).
Proof.
  induction inner as [|key rest IH]; intros seen treePos treePos' Hproto;
    simpl.
  - assert (Hk : lastKey <> "__proto__")
      by (intros ->; apply Hproto; now left).
    destruct (assoc_get lastKey treePos) as [old|] eqn:E; [discriminate|].
    rewrite tree_assign_plain by assumption.
    intros [= <-]. split.
    + intros [|k r]; [simpl; split; [tauto|intros [[]|H]; discriminate]|].
      destruct (String.eqb_spec k lastKey) as [->|Hne].
      * rewrite leaf_at_set_same. simpl. rewrite E.
        split; [intros ->; now right | intros [[]|[= ->]]; reflexivity].
      * rewrite leaf_at_set_other by assumption.
        split; [tauto | intros [H|[= H _]]; [assumption|contradiction]].
    + intros [|k r]; [simpl; tauto|].
      destruct (String.eqb_spec k lastKey) as [->|Hne].
      * rewrite occupied_set_same. intros ->. right. now exists [].
      * rewrite occupied_set_other by assumption. tauto.
  - assert (Hk : key <> "__proto__")
      by (intros ->; apply Hproto; now left).
    assert (Hrest : ~ In "__proto__" (rest ++ [lastKey])%list)
      by (intros H; apply Hproto; now right).
    destruct (assoc_get key treePos) as [[a|children]|] eqn:E.
    + discriminate.
    + destruct (walk _ _ _ _ _ rest children) as [sub|e] eqn:W;
        [|discriminate].
      cbn [bind]. rewrite tree_assign_plain by assumption.
      intros [= <-]. destruct (IH _ _ _ Hrest W) as [IHl IHo]. split.
      * intros [|k r]; [simpl; split; [tauto|intros [[]|H]; discriminate]|].
        destruct (String.eqb_spec k key) as [->|Hne].
        -- rewrite leaf_at_set_same, IHl. simpl. rewrite E.
           split; (intros [H|H]; [now left | right; congruence]).
        -- rewrite leaf_at_set_other by assumption.
           split; [tauto | intros [H|[= H _]]; [assumption|contradiction]].
      * intros [|k r]; [simpl; tauto|].
        destruct (String.eqb_spec k key) as [->|Hne].
        -- rewrite occupied_set_same. intros H.
           destruct (IHo _ H) as [Ho|[suffix Hs]].
           ++ left. simpl. now rewrite E.
           ++ right. exists suffix. simpl. now rewrite Hs.
        -- rewrite occupied_set_other by assumption. tauto.
    + destruct (walk _ _ _ _ _ rest []) as [sub|e] eqn:W; [|discriminate].
      cbn [bind]. rewrite tree_assign_plain by assumption.
      intros [= <-]. destruct (IH _ _ _ Hrest W) as [IHl IHo]. split.
      * intros [|k r]; [simpl; split; [tauto|intros [[]|H]; discriminate]|].
        destruct (String.eqb_spec k key) as [->|Hne].
        -- rewrite leaf_at_set_same, IHl. simpl. rewrite E.
           split.
           ++ intros [H|H]; [now apply leaf_at_nil in H | right; congruence].
           ++ intros [[]|[= ->]]. now right.
        -- rewrite leaf_at_set_other by assumption.
           split; [tauto | intros [H|[= H _]]; [assumption|contradiction]].
      * intros [|k r]; [simpl; tauto|].
        destruct (String.eqb_spec k key) as [->|Hne].
        -- rewrite occupied_set_same. intros H. right.
           destruct (IHo _ H) as [Ho|[suffix Hs]].
           ++ apply occupied_nil in Ho. subst r. now exists (rest ++ [lastKey])%list.
           ++ exists suffix. simpl. now rewrite Hs.
        -- rewrite occupied_set_other by assumption. tauto.
Qed.

(** A walk that throws has met a leaf on a strict prefix of its path, or
    found the end of its path taken. *)
Lemma walk_throw inner :
  forall seen treePos e,
    walk newLeafFn projection_conflict keyPath lastKey seen inner treePos
    = Throw e ->
    (exists pre suffix,
        pre <> [] /\ suffix <> [] /\
        (inner ++ [lastKey] = pre ++ suffix)%list /\
        leaf_at pre treePos /\
        e = MinimongoError (msg_both keyPath (join (seen ++ pre)))) \/
    (occupied (inner ++ [lastKey]) treePos /\
     e = MinimongoError (msg_both keyPath keyPath)).
Proof.
  induction inner as [|key rest IH]; intros seen treePos e; simpl.
  - destruct (assoc_get lastKey treePos) as [old|] eqn:E; [|discriminate].
    intros [= <-]. right. split; [|reflexivity].
    destruct old; simpl; tauto.
  - destruct (assoc_get key treePos) as [[a|children]|] eqn:E.
    + intros [= <-]. left. exists [key], (rest ++ [lastKey])%list.
      repeat split; try discriminate.
      * destruct rest; discriminate.
      * simpl. now rewrite E.
    + destruct (walk _ _ _ _ _ rest children) as [sub|e'] eqn:W;
        [discriminate|].
      intros [= <-].
      destruct (IH _ _ _ W) as [(pre & suffix & Hp & Hs & Hsplit & Hl & He)|[Ho He]].
      * left. exists (key :: pre), suffix. repeat split; try assumption.
        -- discriminate.
        -- simpl. now rewrite Hsplit.
        -- simpl. now rewrite E.
        -- rewrite He. now rewrite <- app_assoc.
      * right. split; [|assumption]. exact Ho.
    + destruct (walk _ _ _ _ _ rest []) as [sub|e'] eqn:W; [discriminate|].
      intros [= <-]. exfalso.
      destruct (IH _ _ _ W) as [(pre & suffix & Hp & Hs & Hsplit & Hl & He)|[Ho He]].
      * now apply leaf_at_nil in Hl.
      * apply occupied_nil in Ho. destruct rest; discriminate.
Qed.
End walk_positions.

(** ** Overlapping paths *)

Lemma add_path_walk newLeafFn root keyPath :
  add_path newLeafFn projection_conflict root keyPath =
  walk newLeafFn projection_conflict keyPath (last (split dot keyPath) "") []
       (removelast (split dot keyPath)) root /\
  (removelast (split dot keyPath) ++ [last (split dot keyPath) ""])%list
  = split dot keyPath.
Proof.
  split; [reflexivity|].
  symmetry. apply app_removelast_last, split_nonempty.
Qed.

(** The loop of [pathsToTree] over sorted, distinct paths without a segment
    [__proto__].  [done] are the paths already in the tree: they are its
    leaves, and every position of the tree lies on the way to one of
    them.  If two of the paths overlap,
    the loop throws, and the error names an overlapping pair. *)
Lemma paths_loop_throws newLeafFn todo :
  forall done root,
    StronglySorted le_string (done ++ todo) ->
    NoDup (done ++ todo) ->
    (forall k, In k todo -> ~ proto_segment k) ->
    (forall q, leaf_at q root -> exists k, In k done /\ split dot k = q) ->
    (forall k, In k done -> leaf_at (split dot k) root) ->
    (forall q, occupied q root ->
               q = [] \/
               exists k suffix,
                 In k done /\ split dot k = (q ++ suffix)%list) ->
    (exists p q, In p (done ++ todo) /\ In q (done ++ todo) /\
                 strict_dot_prefix p q) ->
    exists p q,
      In p (done ++ todo) /\ In q (done ++ todo) /\ strict_dot_prefix p q /\
      pathsToTree newLeafFn projection_conflict todo root
      = Throw (MinimongoError (msg_both q p)).
Proof.
  induction todo as [|k todo IH]; intros done root Hs Hnd Hproto I1 I2 I3 Hpair.
  - exfalso. rewrite app_nil_r in Hpair.
    destruct Hpair as (p & q & Hp & Hq & suffix & Hne & E).
    apply (@leaf_at_no_extension _ (split dot p) suffix root); auto.
    rewrite <- E. auto.
  - destruct (add_path_walk newLeafFn root k) as [Ha Hsplit].
    unfold pathsToTree. cbn [each]. rewrite Ha.
    destruct (walk _ _ _ _ _ _ root) as [root'|e] eqn:W.
    + cbn [bind].
      assert (Hk : ~ In "__proto__"
                        (removelast (split dot k)
                         ++ [last (split dot k) ""])%list).
      { rewrite Hsplit. apply Hproto. now left. }
      destruct (walk_ok _ _ _ _ _ _ Hk W) as [Wl Wo].
      rewrite Hsplit in Wl, Wo.
      assert (Happ : ((done ++ [k]) ++ todo = done ++ k :: todo)%list)
        by now rewrite <- app_assoc.
      destruct (IH (done ++ [k])%list root') as (p & q & Hp & Hq & Hpq & Hthrow);
        try (rewrite Happ; assumption).
      * intros k' Hk'. apply Hproto. now right.
      * intros q Hq. apply Wl in Hq as [Hq| ->].
        -- destruct (I1 _ Hq) as (k' & Hk' & E). exists k'. split; [|assumption].
           apply in_or_app. now left.
        -- exists k. split; [|reflexivity]. apply in_or_app. right. now left.
      * intros k' Hk'. apply Wl. apply in_app_or in Hk' as [Hk'|[<-|[]]].
        -- left. auto.
        -- now right.
      * intros q Hq. apply Wo in Hq as [Hq|[suffix E]].
        -- destruct (I3 _ Hq) as [->|(k' & suffix & Hk' & E)]; [now left|].
           right. exists k', suffix. split; [|assumption].
           apply in_or_app. now left.
        -- right. exists k, suffix. split; [|assumption].
           apply in_or_app. right. now left.
      * rewrite Happ in Hp, Hq. exists p, q. auto.
    + cbn [bind].
      destruct (walk_throw _ _ _ _ _ _ W)
        as [(pre & suffix & Hp & Hsuf & E & Hl & ->)|[Ho ->]].
      * destruct (I1 _ Hl) as (p & Hpin & Ep).
        exists p, k. repeat split.
        -- apply in_or_app. now left.
        -- apply in_or_app. right. now left.
        -- exists suffix. split; [assumption|]. now rewrite Ep, <- E.
        -- cbn [app]. now rewrite <- Ep, join_split.
      * exfalso. rewrite Hsplit in Ho.
        assert (Hk : ~ In k done).
        { intros Hin. apply NoDup_remove_2 in Hnd. apply Hnd.
          apply in_or_app. now left. }
        destruct (I3 _ Ho) as [E|(r & suffix & Hr & E)].
        -- now apply (split_nonempty dot k).
        -- apply Hk. replace k with r; [assumption|].
           destruct suffix as [|x suffix].
           ++ rewrite app_nil_r in E. now apply split_inj.
           ++ apply le_string_antisym.
              ** eapply sorted_before; eassumption.
              ** apply strict_dot_prefix_le. exists (x :: suffix).
                 split; [discriminate|assumption].
Qed.


Lemma mode_uniform fields ks :
  (forall k1 k2, In k1 ks -> In k2 ks ->
                 truthy (get fields k1) = truthy (get fields k2)) ->
  exists inc, each (mode_step fields) ks None = Ok inc.
Proof.
  intros H. destruct ks as [|k ks]; [now exists None|].
  rewrite mode_loop_start, mode_loop.
  assert (F : forallb (fun k' => Bool.eqb (truthy (get fields k))
                                          (truthy (get fields k'))) ks = true).
  { apply forallb_forall. intros k' Hk'.
    rewrite (H k k') by (simpl; auto). apply Bool.eqb_reflx. }
  rewrite F. eauto.
Qed.

(** *** The order of the keys of a specification *)

Lemma sorted_perm_eq l1 :
  forall l2,
    StronglySorted le_string l1 -> StronglySorted le_string l2 ->
    Permutation l1 l2 -> l1 = l2.
Proof.
  induction l1 as [|a l1 IH]; intros l2 H1 H2 Hp.
  - apply Permutation_nil in Hp. now subst.
  - destruct l2 as [|b l2].
    { symmetry in Hp. apply Permutation_nil in Hp. discriminate. }
    inversion H1 as [|? ? S1 F1]; inversion H2 as [|? ? S2 F2]; subst.
    rewrite Forall_forall in F1, F2.
    assert (a = b).
    { assert (Ha : In a (b :: l2))
        by (eapply Permutation_in; [exact Hp | now left]).
      assert (Hb : In b (a :: l1))
        by (eapply Permutation_in; [symmetry; exact Hp | now left]).
      destruct Ha as [->|Ha]; [reflexivity|].
      destruct Hb as [->|Hb]; [reflexivity|].
      apply le_string_antisym; auto. }
    subst b. f_equal. apply IH; try assumption.
    now apply Permutation_cons_inv in Hp.
Qed.

Lemma assoc_get_perm (A : Type) k (l l' : list (string * A)) :
  NoDup (keys_of l) -> Permutation l l' -> assoc_get k l = assoc_get k l'.
Proof.
  intros Hnd Hp.
  assert (Hnd' : NoDup (keys_of l')).
  { eapply Permutation_NoDup; [|exact Hnd]. now apply Permutation_map. }
  destruct (assoc_get k l) as [a|] eqn:E.
  - apply assoc_get_In in E. symmetry. apply assoc_get_NoDup; [assumption|].
    eapply Permutation_in; eassumption.
  - symmetry. apply assoc_get_None. rewrite assoc_get_None in E.
    intros Hin. apply E.
    eapply Permutation_in; [|exact Hin].
    apply Permutation_map. now symmetry.
Qed.

Lemma mode_loop_ext fields fields' ks :
  (forall k, get fields k = get fields' k) ->
  forall inc,
    each (mode_step fields) ks inc = each (mode_step fields') ks inc.
Proof.
  intros Hget. induction ks as [|k ks IH]; intros inc; simpl; [reflexivity|].
  unfold mode_step at 1 3. rewrite Hget.
  destruct (match inc with Some _ => inc | None => _ end) as [b|];
    [destruct (Bool.eqb b _)|]; simpl; auto.
Qed.

Lemma check_loop_accepted props :
  each (fun _ kv => check_entry kv) props tt = Ok tt <->
  Forall accepted props.
Proof.
  induction props as [|kv props IH]; cbn [each].
  - split; [constructor|reflexivity].
  - destruct (check_entry_cases kv) as [[Ha ->]|[Hn (msg & -> & _)]];
      cbn [bind].
    + rewrite IH. split; [now constructor | now inversion 1].
    + split; [discriminate | inversion 1; contradiction].
Qed.

Lemma check_accepted props :
  numeric_length (VObj props) = false ->
  _checkSupportedProjection (VObj props) = Ok tt <-> Forall accepted props.
Proof.
  intros H. rewrite check_named by assumption. apply check_loop_accepted.
Qed.

(** What [_.each] visits depends on the properties of the object, and not
    on their order. *)
Lemma check_order_independent props props' :
  NoDup (keys_of props) -> Permutation props props' ->
  _checkSupportedProjection (VObj props) = Ok tt ->
  _checkSupportedProjection (VObj props') = Ok tt.
Proof.
  intros Hnd Hp.
  assert (Hget : forall k, assoc_get k props' = assoc_get k props)
    by (intros k; symmetry; now apply assoc_get_perm).
  assert (Hlen : array_like_length (VObj props')
                 = array_like_length (VObj props))
    by (unfold array_like_length; now rewrite Hget).
  unfold _checkSupportedProjection. cbn [isObject _isArray negb orb].
  destruct (array_like_length (VObj props)) as [n|] eqn:E.
  - assert (Hv : visited (VObj props') = visited (VObj props)).
    { unfold visited. rewrite Hlen, E. apply map_ext. intros i.
      unfold get. cbn [own_props]. now rewrite Hget. }
    now rewrite Hv.
  - rewrite !visited_named by congruence. cbn [own_props].
    rewrite !check_loop_named, !check_loop_accepted.
    rewrite !Forall_forall. intros Hc kv Hin. apply Hc.
    eapply Permutation_in; [symmetry; exact Hp | exact Hin].
Qed.

(** A specification that passes validation compiles to the same result
    whatever the order of its keys. *)
Lemma compile_order_independent props props' :
  NoDup (keys_of props) -> Permutation props props' ->
  _checkSupportedProjection (VObj props) = Ok tt ->
  _compileProjection (VObj props') = _compileProjection (VObj props).
Proof.
  intros Hnd Hp Hc.
  assert (Hget : forall k, get (VObj props) k = get (VObj props') k).
  { intros k. unfold get. simpl. now rewrite (assoc_get_perm k Hnd Hp). }
  assert (Hkeys : sort (keys (VObj props)) = sort (keys (VObj props'))).
  { apply sorted_perm_eq; try apply sort_sorted.
    rewrite !sort_perm. simpl. now apply Permutation_map. }
  assert (Hw : working_keys (VObj props) = working_keys (VObj props')).
  { unfold working_keys. now rewrite Hkeys, Hget. }
  assert (Hc' : _checkSupportedProjection (VObj props') = Ok tt)
    by (eapply check_order_independent; eassumption).
  unfold _compileProjection. rewrite Hc, Hc'. cbn [bind].
  unfold id_projection. rewrite <- Hget.
  unfold projectionDetails. rewrite <- Hw.
  now rewrite (@mode_loop_ext (VObj props') (VObj props)) by (symmetry; apply Hget).
Qed.




(** The key [__proto__] names no property of a node of the tree: the
    assignment [treePos["__proto__"] = ...] goes to the accessor the node
    inherits, and [_.has] finds nothing there afterwards.  So
    [{__proto__: 1, "__proto__.x": 1}] holds a path and a path under it,
    and compiles, to an empty tree. *)
Lemma proto_overlap_compiles :
  let fields := VObj [("__proto__", VNum 1); ("__proto__.x", VNum 1)] in
  strict_dot_prefix "__proto__" "__proto__.x" /\
  working_keys fields = ["__proto__"; "__proto__.x"] /\
  projectionDetails fields
  = Ok {| tree_of := []; including := Some true |} /\
  exists f, _compileProjection fields = Ok f.
Proof.
  cbv zeta. split; [|split; [|split]].
  - exists ["x"]. split; [discriminate|reflexivity].
  - reflexivity.
  - reflexivity.
  - eexists. reflexivity.
Qed.

(* ================================================================== *)
(** * Properties of the store model *)
(* ================================================================== *)

(** On the samples the store model computes the documents of the value
    model, in inclusive and in exclusive mode, and leaves the input as it
    was. *)
Lemma store_agrees_on_samples :
  Store.reify 5 sample_heap (Store.RRef 2) = Some sample_doc /\
  (forall fields,
      In fields [VObj [("a", VNum 1)]; VObj [("b", VNum 1)];
                 VObj [("a", VNum 0)]; VObj [("b.k", VNum 0)];
                 VObj [("_id", VNum 0); ("b.k", VNum 1)]; VObj []] ->
      exists res h,
        Store.run_projection 5 fields (Store.RRef 2) sample_heap
        = Some (res, h) /\
        option_map (@Ok value) (Store.reify 5 h res)
        = Some (apply_projection fields sample_doc) /\
        Store.reify 5 h (Store.RRef 2) = Some sample_doc).
Proof.
  split; [reflexivity|].
  intros fields [<-|[<-|[<-|[<-|[<-|[<-|[]]]]]]];
    eexists; eexists; (split; [reflexivity|split; reflexivity]).
Qed.

(** C1 at the failing input: the projection [{a: 1}] of the document
    [{_id: {k: 1}, a: 1, b: {k: 1}}].  The result is a new object, but its
    [_id] is the reference the document holds: [res._id = obj._id] copies
    the reference, not the object.  The assignment [res._id.k = 2], made
    through the result, changes the document.  The sibling path, a leaf
    rule as in [{b: 1}], stores a copy at a new location, and the same
    write through [res.b] leaves the document as it was. *)
Theorem id_value_is_shared :
  let obj := Store.RRef 2 in
  (exists res h1 h2,
      Store.run_projection 5 (VObj [("a", VNum 1)]) obj sample_heap
      = Some (res, h1) /\
      res = Store.RRef 3 /\
      Store.reify 5 h1 obj = Some sample_doc /\
      Store.get h1 res "_id" = Store.RRef 0 /\
      Store.get h1 obj "_id" = Store.RRef 0 /\
      Store.set (Store.get h1 res "_id") "k" (Store.RNum 2) h1
      = Some (tt, h2) /\
      Store.reify 5 h2 obj
      = Some (VObj [("_id", VObj [("k", VNum 2)]); ("a", VNum 1);
                    ("b", VObj [("k", VNum 1)])]) /\
      Store.reify 5 h2 obj <> Some sample_doc) /\
  (exists res h1 h2,
      Store.run_projection 5 (VObj [("b", VNum 1)]) obj sample_heap
      = Some (res, h1) /\
      Store.get h1 obj "b" = Store.RRef 1 /\
      Store.get h1 res "b" = Store.RRef 4 /\
      Store.set (Store.get h1 res "b") "k" (Store.RNum 2) h1
      = Some (tt, h2) /\
      Store.reify 5 h2 res
      = Some (VObj [("b", VObj [("k", VNum 2)]);
                    ("_id", VObj [("k", VNum 1)])]) /\
      Store.reify 5 h2 obj = Some sample_doc).
Proof.
  cbv zeta. split.
  - do 3 eexists. repeat split; try reflexivity. discriminate.
  - do 3 eexists. repeat split; reflexivity.
Qed.

(** ** Runs on the heap *)

Section runs.
Import Store.
Variables A B : Type.

Lemma returns_ret (a : A) h (Q : A -> heap -> Prop) :
  Q a h -> returns (ret a) h Q.
Proof. intros H. exists a, h. split; [reflexivity|assumption]. Qed.

Lemma returns_reads (f : heap -> A) h (Q : A -> heap -> Prop) :
  Q (f h) h -> returns (reads f) h Q.
Proof. intros H. exists (f h), h. split; [reflexivity|assumption]. Qed.

Lemma returns_bind (m : M A) (f : A -> M B) h (Q : B -> heap -> Prop) :
  returns m h (fun a h1 => returns (f a) h1 Q) ->
  returns (mbind m f) h Q.
Proof.
  intros (a & h1 & Hm & b & h2 & Hf & HQ). exists b, h2.
  split; [|assumption]. unfold mbind. now rewrite Hm.
Qed.

Lemma returns_weaken (m : M A) h (Q Q' : A -> heap -> Prop) :
  returns m h Q -> (forall a h', Q a h' -> Q' a h') -> returns m h Q'.
Proof. intros (a & h' & Hm & HQ) H. exists a, h'. auto. Qed.
End runs.

Lemma returns_alloc c h (Q : Store.rvalue -> Store.heap -> Prop) :
  Q (Store.RRef (List.length h)) (h ++ [c])%list ->
  returns (Store.alloc c) h Q.
Proof. intros H. eexists _, _. split; [reflexivity|assumption]. Qed.

(** ** Cells that stay *)

Lemma nth_error_replace_same (A : Type) n (a : A) l :
  n < List.length l -> nth_error (Store.replace_nth n a l) n = Some a.
Proof.
  revert n. induction l as [|x l IH]; intros [|n]; simpl; try lia.
  - reflexivity.
  - intros H. apply IH. lia.
Qed.

Lemma nth_error_replace_other (A : Type) n m (a : A) l :
  n <> m -> nth_error (Store.replace_nth n a l) m = nth_error l m.
Proof.
  revert n m. induction l as [|x l IH]; intros [|n] [|m] H; simpl;
    try reflexivity; try congruence.
  apply IH. congruence.
Qed.

Lemma length_replace (A : Type) n (a : A) l :
  List.length (Store.replace_nth n a l) = List.length l.
Proof.
  revert n. induction l as [|x l IH]; intros [|n]; simpl; auto.
Qed.

Lemma keeps_refl n h : keeps n h h.
Proof. split; auto. Qed.

Lemma keeps_trans n h1 h2 h3 : keeps n h1 h2 -> keeps n h2 h3 -> keeps n h1 h3.
Proof.
  intros [L1 K1] [L2 K2]. split; [lia|].
  intros l Hl. now rewrite K2, K1.
Qed.

Lemma keeps_le n m h h' : m <= n -> keeps n h h' -> keeps m h h'.
Proof. intros Hm [L K]. split; [assumption|]. intros l Hl. apply K. lia. Qed.

(** What came after a run that kept the heap it started from keeps that
    heap too. *)
Lemma keeps_then h1 h2 h3 :
  keeps (List.length h1) h1 h2 -> keeps (List.length h2) h2 h3 ->
  keeps (List.length h1) h1 h3.
Proof.
  intros K1 K2. apply keeps_trans with h2; [assumption|].
  apply keeps_le with (List.length h2); [apply K1 | assumption].
Qed.

Lemma keeps_alloc h c : keeps (List.length h) h (h ++ [c])%list.
Proof.
  split; [rewrite length_app; lia|].
  intros l Hl. now apply nth_error_app1.
Qed.

Lemma keeps_store n l c h : n <= l -> keeps n h (Store.replace_nth l c h).
Proof.
  intros Hl. split; [rewrite length_replace; lia|].
  intros m Hm. apply nth_error_replace_other. lia.
Qed.

(** ** Documents in the heap *)

Lemma props_rel_impl (A B : Type) (R R' : A -> B -> Prop) l1 l2 :
  props_rel R l1 l2 ->
  Forall (fun ka => forall b, R (snd ka) b -> R' (snd ka) b) l1 ->
  props_rel R' l1 l2.
Proof.
  unfold props_rel. induction 1 as [|ka kb l1 l2 [Hk HR] _ IH]; intros HF.
  - constructor.
  - inversion HF; subst. constructor; auto.
Qed.

Lemma Forall2_impl_in (A B : Type) (R R' : A -> B -> Prop) l1 l2 :
  Forall2 R l1 l2 ->
  Forall (fun a => forall b, R a b -> R' a b) l1 ->
  Forall2 R' l1 l2.
Proof.
  induction 1 as [|a b l1 l2 HR _ IH]; intros HF.
  - constructor.
  - inversion HF; subst. constructor; auto.
Qed.

(** A representation stays one in a wider range and in a heap that agrees
    on the range. *)
Lemma rep_mono doc :
  forall lo hi h v lo' hi' h',
    rep lo hi h doc v ->
    lo' <= lo -> hi <= hi' ->
    (forall l, lo <= l < hi -> nth_error h' l = nth_error h l) ->
    rep lo' hi' h' doc v.
Proof.
  induction doc as [ | | | | | |docs IH|dprops IH] using value_nested_ind;
    intros lo hi h v lo' hi' h' Hrep Hlo Hhi Hsame;
    inversion Hrep; subst; try solve [constructor].
  - constructor; [lia|]. now rewrite Hsame.
  - econstructor; [lia | rewrite Hsame; eassumption |].
    eapply Forall2_impl_in; [eassumption|].
    eapply Forall_impl; [|exact IH]. intros d Hd r Hr. eapply Hd; eauto.
  - econstructor; [lia | rewrite Hsame; eassumption |].
    eapply props_rel_impl; [eassumption|].
    eapply Forall_impl; [|exact IH]. intros d Hd r Hr. eapply Hd; eauto.
Qed.

Lemma rep_keeps lo hi h h' doc v :
  rep lo hi h doc v -> hi <= List.length h -> keeps (List.length h) h h' ->
  rep lo hi h' doc v.
Proof.
  intros Hrep Hhi [_ K]. eapply rep_mono; eauto. intros l Hl. apply K. lia.
Qed.

Lemma fresh_rep_rep n hi h doc v : fresh_rep n hi h doc v -> rep n hi h doc v.
Proof.
  destruct doc; simpl; auto.
  intros (-> & Hn & props' & Hc & Hp). econstructor; [lia|eassumption|].
  eapply props_rel_impl; [eassumption|].
  apply Forall_forall. intros kd _ r Hr.
  eapply rep_mono; eauto.
Qed.

Lemma props_rel_indexed (A B : Type) (R : A -> B -> Prop) l1 l2 :
  Forall2 R l1 l2 -> forall i, props_rel R (indexed i l1) (indexed i l2).
Proof.
  unfold props_rel. induction 1; intros i; simpl; constructor; auto.
Qed.

Lemma rep_chars lo hi h s : Forall2 (rep lo hi h) (chars s) (Store.rchars s).
Proof. induction s; simpl; constructor; [constructor|assumption]. Qed.

(** The own properties of a value in the heap are those of the document
    it stands for. *)
Lemma rep_own_props lo hi h doc v :
  rep lo hi h doc v ->
  props_rel (rep lo hi h) (own_props doc) (Store.own_props h v).
Proof.
  intros Hrep. inversion Hrep as [ | | | | |l ms Hr Hc|l ds es Hr Hc Hf|l dp ps Hr Hc Hp];
    subst; simpl; try constructor.
  - apply Forall2_app.
    + apply props_rel_indexed, rep_chars.
    + constructor; [|constructor]. split; [reflexivity|constructor].
  - rewrite Hc. constructor.
  - rewrite Hc. apply Forall2_app.
    + now apply props_rel_indexed.
    + constructor; [|constructor]. split; [reflexivity|].
      rewrite (Forall2_length Hf). constructor.
  - rewrite Hc. assumption.
Qed.

Lemma props_rel_get (A B : Type) (R : A -> B -> Prop) l1 l2 k :
  props_rel R l1 l2 ->
  match assoc_get k l1, assoc_get k l2 with
  | Some a, Some b => R a b
  | None, None => True
  | _, _ => False
  end.
Proof.
  unfold props_rel. induction 1 as [|[k1 a] [k2 b] l1 l2 [Hk HR] _ IH]; simpl.
  - exact I.
  - simpl in Hk. subst k2. destruct (String.eqb k k1); assumption.
Qed.

Lemma props_rel_keys (A B : Type) (R : A -> B -> Prop) l1 l2 :
  props_rel R l1 l2 -> keys_of l1 = keys_of l2.
Proof.
  unfold props_rel. induction 1 as [|[k1 a] [k2 b] l1 l2 [Hk HR] _ IH]; simpl.
  - reflexivity.
  - simpl in Hk. now rewrite Hk, IH.
Qed.

Lemma rep_has lo hi h doc v key :
  rep lo hi h doc v -> Store.has h v key = has doc key.
Proof.
  intros Hrep. apply rep_own_props in Hrep.
  pose proof (props_rel_get key Hrep) as H.
  unfold Store.has, has, assoc_has.
  destruct (assoc_get key (own_props doc)),
           (assoc_get key (Store.own_props h v)); tauto.
Qed.

Lemma rep_get lo hi h doc v key :
  rep lo hi h doc v -> rep lo hi h (get doc key) (Store.get h v key).
Proof.
  intros Hrep. apply rep_own_props in Hrep.
  pose proof (props_rel_get key Hrep) as H.
  unfold Store.get, get.
  destruct (assoc_get key (own_props doc)),
           (assoc_get key (Store.own_props h v)); try tauto. constructor.
Qed.

Lemma rep_isObject lo hi h doc v :
  rep lo hi h doc v -> Store.isObject v = isObject doc.
Proof. intros Hrep. inversion Hrep; reflexivity. Qed.

Lemma rep_isArray lo hi h doc v :
  rep lo hi h doc v -> Store._isArray h v = _isArray doc.
Proof.
  intros Hrep. inversion Hrep as [ | | | | |l ms Hr Hc|l ds es Hr Hc Hf|l dp ps Hr Hc Hp];
    subst; unfold Store._isArray; simpl; try reflexivity; now rewrite Hc.
Qed.

Lemma rep_elems lo hi h docs v :
  rep lo hi h (VArr docs) v ->
  Forall2 (rep lo hi h) docs (Store.elems_of h v).
Proof.
  intros Hrep. inversion Hrep as [ | | | | |l ms Hr Hc|l ds es Hr Hc Hf|l dp ps Hr Hc Hp]; subst.
  unfold Store.elems_of. simpl. now rewrite Hc.
Qed.

(** ** Heights *)

Lemma height_elem x elems : In x elems -> height x < height (VArr elems).
Proof.
  simpl. induction elems as [|y l IH]; simpl; [tauto|].
  intros [->|H]; [lia|]. specialize (IH H). lia.
Qed.

Lemma height_prop k x props :
  In (k, x) props -> height x < height (VObj props).
Proof.
  simpl. induction props as [|[k' y] l IH]; simpl; [tauto|].
  intros [[= -> ->]|H]; [lia|]. specialize (IH H). lia.
Qed.

Lemma indexed_In (A : Type) k (a : A) l i :
  In (k, a) (indexed i l) -> In a l.
Proof.
  revert i. induction l as [|y l IH]; intros i; simpl; [tauto|].
  intros [E|E]; [injection E as _ <-; now left | right; eauto].
Qed.

Lemma chars_height x s : In x (chars s) -> height x = 0.
Proof.
  induction s as [|c s IH]; simpl; [tauto|].
  intros [<-|H]; [reflexivity | auto].
Qed.

Lemma height_get doc key : height (get doc key) <= height doc.
Proof.
  unfold get. destruct (assoc_get key (own_props doc)) as [x|] eqn:E;
    [|simpl; lia].
  apply assoc_get_In in E.
  destruct doc as [ | | | |s| |elems|props]; simpl own_props in E;
    try contradiction.
  - assert (H : height x = 0); [|rewrite H; lia].
    apply in_app_or in E as [E|[E|[]]]; [|now injection E as _ <-].
    apply indexed_In in E. now apply chars_height in E.
  - apply in_app_or in E as [E|[E|[]]].
    + apply indexed_In in E. apply height_elem in E. lia.
    + injection E as _ <-. simpl. lia.
  - apply height_prop in E. lia.
Qed.

Lemma height_get_object doc key :
  _isArray doc = false -> isObject (get doc key) = true ->
  height (get doc key) < height doc.
Proof.
  intros Ha Ho. destruct (is_obj doc) eqn:Ed.
  - destruct doc; try discriminate. unfold get in *. simpl own_props in *.
    destruct (assoc_get key props) as [x|] eqn:E; [|discriminate].
    apply assoc_get_In in E. now apply height_prop in E.
  - rewrite own_props_primitive in Ho by assumption. discriminate.
Qed.

(** ** [EJSON.clone] on the heap *)

Lemma nth_error_alloc (A : Type) (h : list A) c :
  nth_error (h ++ [c]) (List.length h) = Some c.
Proof. rewrite nth_error_app2 by lia. now rewrite Nat.sub_diag. Qed.

(** Mapping a computation that keeps the heap and returns fresh results
    over the elements of an array. *)
Lemma mapM_spec (f : Store.rvalue -> Store.M Store.rvalue)
      (g : value -> value) h0 docs elems :
  Forall2 (fun d e =>
             forall h1, keeps (List.length h0) h0 h1 ->
               returns (f e) h1
                 (fun r h2 => keeps (List.length h1) h1 h2 /\
                              rep (List.length h1) (List.length h2) h2 (g d) r))
          docs elems ->
  forall h1, keeps (List.length h0) h0 h1 ->
    returns (Store.mapM f elems) h1
      (fun rs h2 => keeps (List.length h1) h1 h2 /\
                    Forall2 (rep (List.length h1) (List.length h2) h2)
                            (map g docs) rs).
Proof.
  induction 1 as [|d e docs elems Hstep _ IH]; intros h1 K1; simpl.
  - apply returns_ret. split; [apply keeps_refl | constructor].
  - apply returns_bind.
    eapply returns_weaken; [apply Hstep; assumption|].
    intros r h2 [K2 Hr]. apply returns_bind.
    eapply returns_weaken; [apply IH; eapply keeps_then; eassumption|].
    intros rs h3 [K3 Hrs]. apply returns_ret.
    split; [eapply keeps_then; eassumption|].
    constructor.
    + eapply rep_mono; [exact Hr | lia | apply K3 |].
      intros l Hl. apply K3. lia.
    + eapply Forall2_impl; [|exact Hrs]. intros a b Hab.
      eapply rep_mono; [exact Hab | apply K2 | lia | reflexivity].
Qed.

Lemma returns_set_object n key c acc h (Q : unit -> Store.heap -> Prop) :
  nth_error h n = Some (Store.CObj acc) ->
  Q tt (Store.replace_nth n (Store.CObj (assoc_set key c acc)) h) ->
  returns (Store.set (Store.RRef n) key c) h Q.
Proof.
  intros Hc HQ. exists tt, (Store.replace_nth n (Store.CObj (assoc_set key c acc)) h).
  split; [|assumption]. unfold Store.set. simpl. now rewrite Hc.
Qed.

Lemma returns_delete_object n key acc h (Q : unit -> Store.heap -> Prop) :
  nth_error h n = Some (Store.CObj acc) ->
  Q tt (Store.replace_nth n (Store.CObj (assoc_del key acc)) h) ->
  returns (Store.delete (Store.RRef n) key) h Q.
Proof.
  intros Hc HQ. exists tt, (Store.replace_nth n (Store.CObj (assoc_del key acc)) h).
  split; [|assumption]. unfold Store.delete. simpl. now rewrite Hc.
Qed.

(** The properties of an object under construction at [n] stay what they
    are when the object is written and the heap grows. *)
Lemma props_rel_rep_step n hc h2 c dprops acc :
  props_rel (rep (S n) (List.length hc) hc) dprops acc ->
  n < List.length hc ->
  keeps (List.length hc) hc h2 ->
  props_rel (rep (S n) (List.length h2) (Store.replace_nth n c h2)) dprops acc.
Proof.
  intros Hp Hn K. eapply props_rel_impl; [exact Hp|].
  apply Forall_forall. intros kd _ r Hr.
  eapply rep_mono; [exact Hr | lia | apply K |].
  intros l Hl. rewrite nth_error_replace_other by lia. apply K. lia.
Qed.

Section clone_object.
Variable fuel' : nat.
Variable h : Store.heap.
Let n := List.length h.

(** The loop of [clone] over the properties of an object: the copy under
    construction sits at [n], [dpre] are the properties already copied. *)
Lemma clone_loop dsuf psuf :
  props_rel
    (fun d e =>
       forall h1, keeps n h h1 ->
         returns (Store.clone fuel' e) h1
           (fun r h2 => keeps (List.length h1) h1 h2 /\
                        rep (List.length h1) (List.length h2) h2 d r))
    dsuf psuf ->
  forall dpre acc hc,
    keeps n h hc -> n < List.length hc ->
    nth_error hc n = Some (Store.CObj acc) ->
    props_rel (rep (S n) (List.length hc) hc) dpre acc ->
    NoDup (keys_of (dpre ++ dsuf)) ->
    returns
      (Store.eachM (fun kv => Store.mbind (Store.clone fuel' (snd kv))
                                (fun c => Store.set (Store.RRef n) (fst kv) c))
                   psuf)
      hc
      (fun _ hf =>
         keeps n h hf /\ n < List.length hf /\
         exists acc',
           nth_error hf n = Some (Store.CObj acc') /\
           props_rel (rep (S n) (List.length hf) hf) (dpre ++ dsuf) acc').
Proof.
  unfold props_rel at 1.
  induction 1 as [|[k d] [k' e] dsuf psuf [Hk Hstep] _ IH];
    intros dpre acc hc K Hn Hc Hp Hnd; simpl.
  - apply returns_ret. rewrite app_nil_r. eauto.
  - simpl in Hk, Hstep. subst k'. apply returns_bind. apply returns_bind.
    eapply returns_weaken; [apply Hstep; assumption|].
    intros r h2 [K2 Hr].
    assert (Hc2 : nth_error h2 n = Some (Store.CObj acc))
      by (rewrite <- Hc; now apply K2).
    eapply returns_set_object; [exact Hc2|].
    assert (Hfresh : assoc_get k acc = None).
    { apply assoc_get_None. rewrite <- (props_rel_keys Hp).
      unfold keys_of in Hnd. rewrite map_app in Hnd. simpl in Hnd.
      apply NoDup_remove_2 in Hnd. intros Hin. apply Hnd.
      apply in_or_app. now left. }
    rewrite assoc_set_fresh by assumption.
    replace (dpre ++ (k, d) :: dsuf)%list
      with ((dpre ++ [(k, d)]) ++ dsuf)%list by now rewrite <- app_assoc.
    assert (L2 : List.length hc <= List.length h2) by apply K2.
    apply IH with (acc := (acc ++ [(k, r)])%list).
    + apply keeps_trans with hc; [assumption|].
      apply keeps_trans with h2.
      * apply keeps_le with (List.length hc); [lia | assumption].
      * apply keeps_store. unfold n. lia.
    + rewrite length_replace. lia.
    + apply nth_error_replace_same. lia.
    + rewrite length_replace. apply Forall2_app.
      * now apply props_rel_rep_step with hc.
      * constructor; [|constructor]. split; [reflexivity|]. simpl.
        eapply rep_mono; [exact Hr | lia | lia |].
        intros l Hl. apply nth_error_replace_other. lia.
    + now rewrite <- app_assoc.
Qed.
End clone_object.

Lemma returns_eq (A : Type) (m m' : Store.M A) h (Q : A -> Store.heap -> Prop) :
  m h = m' h -> returns m' h Q -> returns m h Q.
Proof. unfold returns. now intros ->. Qed.

Lemma clone_date fuel' l ms h :
  nth_error h l = Some (Store.CDate ms) ->
  Store.clone (S fuel') (Store.RRef l) h = Store.alloc (Store.CDate ms) h.
Proof. intros H. simpl. now rewrite H. Qed.

Lemma clone_array fuel' l elems h :
  nth_error h l = Some (Store.CArr elems) ->
  Store.clone (S fuel') (Store.RRef l) h =
  Store.mbind (Store.mapM (Store.clone fuel') elems)
              (fun elems' => Store.alloc (Store.CArr elems')) h.
Proof. intros H. simpl. now rewrite H. Qed.

Lemma clone_object fuel' l props h :
  nth_error h l = Some (Store.CObj props) ->
  Store.clone (S fuel') (Store.RRef l) h =
  Store.mbind (Store.alloc (Store.CObj []))
    (fun ret_ =>
       Store.mbind
         (Store.eachM (fun kv => Store.mbind (Store.clone fuel' (snd kv))
                                   (fun c => Store.set ret_ (fst kv) c))
                      props)
         (fun _ => Store.ret ret_)) h.
Proof. intros H. simpl. now rewrite H. Qed.

(** [EJSON.clone] returns a copy in cells of its own and keeps the heap
    it started from. *)
Lemma clone_spec doc :
  wf_value doc ->
  forall fuel v h lo hi,
    rep lo hi h doc v -> hi <= List.length h -> height doc < fuel ->
    returns (Store.clone fuel v) h
      (fun r h' => keeps (List.length h) h h' /\
                   fresh_rep (List.length h) (List.length h') h' doc r).
Proof.
  induction doc as [ | | | | | |docs IH|dprops IH] using value_nested_ind;
    intros Hwf fuel v h lo hi Hrep Hhi Hfuel;
    (destruct fuel as [|fuel']; [lia|]);
    inversion Hrep as [ | | | | |l ms0 Hr Hc|l ds es Hr Hc Hf|l dp ps Hr Hc Hp];
    subst;
    try (apply returns_ret; split; [apply keeps_refl | constructor]).
  - (* a date *)
    apply returns_eq with (m' := Store.alloc (Store.CDate ms));
      [now apply clone_date|]. apply returns_alloc.
    split; [apply keeps_alloc|]. simpl. constructor.
    + rewrite length_app. simpl. lia.
    + apply nth_error_alloc.
  - (* an array *)
    eapply returns_eq; [apply clone_array; eassumption|]. apply returns_bind.
    inversion Hwf as [ | | | | | |? Hwfs|]; subst.
    eapply returns_weaken.
    { apply (@mapM_spec (Store.clone fuel') (fun d => d) h docs es);
        [|apply keeps_refl].
      eapply Forall2_impl_in; [exact Hf|].
      apply Forall_forall. intros d Hd e He h1 K1.
      rewrite Forall_forall in IH, Hwfs.
      eapply returns_weaken.
      - eapply (IH d Hd (Hwfs d Hd) fuel' e h1 lo hi).
        + eapply rep_keeps; eassumption.
        + destruct K1. lia.
        + apply height_elem in Hd. lia.
      - intros r h2 [K2 Hfr]. split; [assumption|].
        now apply fresh_rep_rep. }
    intros rs h2 [K2 Hrs]. rewrite map_id in Hrs.
    apply returns_alloc. split.
    + eapply keeps_then; [eassumption | apply keeps_alloc].
    + simpl. econstructor.
      * rewrite length_app. simpl. destruct K2. lia.
      * apply nth_error_alloc.
      * eapply Forall2_impl; [|exact Hrs]. intros a b Hab.
        eapply rep_mono; [exact Hab | lia | rewrite length_app; lia |].
        intros l' Hl'. apply nth_error_app1. lia.
  - (* an object *)
    eapply returns_eq; [apply clone_object; eassumption|].
    apply returns_bind. apply returns_alloc.
    apply returns_bind.
    inversion Hwf as [ | | | | | | |? Hnd Hwfs]; subst.
    eapply returns_weaken.
    { apply (@clone_loop fuel' h dprops ps) with (dpre := []) (acc := []).
      - eapply props_rel_impl; [exact Hp|].
        apply Forall_forall. intros [k d] Hd e He h1 K1. simpl in *.
        rewrite Forall_forall in IH, Hwfs.
        eapply returns_weaken.
        + eapply (IH (k, d) Hd (Hwfs (k, d) Hd) fuel' e h1 lo hi).
          * eapply rep_mono; [exact He | lia | lia |].
            intros l' Hl'. apply K1. lia.
          * destruct K1. lia.
          * apply height_prop in Hd. simpl in *. lia.
        + intros r h2 [K2 Hfr]. split; [assumption|].
          now apply fresh_rep_rep.
      - apply keeps_le with (List.length h); [lia | apply keeps_alloc].
      - rewrite length_app. simpl. lia.
      - apply nth_error_alloc.
      - constructor.
      - assumption. }
    intros _ hf (K & Hn & acc' & Hacc & Hrel). apply returns_ret.
    split; [exact K | simpl; eauto 6].
Qed.

(** ** The transform on the heap *)

Lemma store_transform_array d fuel' v ruleTree h :
  Store._isArray h v = true ->
  Store.transform d (S fuel') v ruleTree h =
  Store.mbind
    (Store.mapM (fun subdoc => Store.transform d fuel' subdoc ruleTree)
                (Store.elems_of h v))
    (fun results => Store.alloc (Store.CArr results)) h.
Proof.
  intros H. simpl. unfold Store.mbind at 1, Store.reads at 1. rewrite H.
  reflexivity.
Qed.

Lemma store_transform_other d fuel' v ruleTree h :
  Store._isArray h v = false ->
  Store.transform d (S fuel') v ruleTree h =
  Store.mbind
    (if is_including d then Store.alloc (Store.CObj [])
     else Store.clone fuel' v)
    (fun res =>
       Store.mbind
         (Store.eachM (store_rule_step d fuel' v res) (rules_of ruleTree))
         (fun _ => Store.ret res)) h.
Proof.
  intros H. simpl. unfold Store.mbind at 1, Store.reads at 1. rewrite H.
  reflexivity.
Qed.

Lemma transform_rules d doc ruleTree :
  _isArray doc = false ->
  transform d doc ruleTree =
  fold_left (rule_step d (fun rule sub => transform d sub rule) doc)
            (rules_of ruleTree) (initial_result d doc).
Proof.
  intros H. destruct ruleTree.
  - now apply transform_leaf.
  - now apply transform_node.
Qed.

Lemma wf_get doc key : wf_value doc -> wf_value (get doc key).
Proof.
  intros Hwf. unfold get.
  destruct (assoc_get key (own_props doc)) as [x|] eqn:E; [|constructor].
  apply assoc_get_In in E.
  inversion Hwf as [ | | | |s| |elems Hs|props Hnd Hs]; subst;
    simpl own_props in E; try contradiction.
  - apply in_app_or in E as [E|[E|[]]]; [|injection E as _ <-; constructor].
    apply indexed_In in E. clear Hwf.
    induction s as [|c s IH]; simpl in E; [contradiction|].
    destruct E as [<-|E]; [constructor | auto].
  - apply in_app_or in E as [E|[E|[]]]; [|injection E as _ <-; constructor].
    apply indexed_In in E. rewrite Forall_forall in Hs. auto.
  - rewrite Forall_forall in Hs. exact (Hs _ E).
Qed.

Lemma props_rel_set (A B : Type) (R : A -> B -> Prop) l1 l2 k a b :
  props_rel R l1 l2 -> R a b ->
  props_rel R (assoc_set k a l1) (assoc_set k b l2).
Proof.
  unfold props_rel. intros H Hab.
  induction H as [|[k1 a1] [k2 b1] l1 l2 [Hk HR] Ht IH]; simpl.
  - constructor; [split; [reflexivity|assumption] | constructor].
  - simpl in Hk. subst k2. destruct (String.eqb k k1).
    + constructor; [split; [reflexivity|exact Hab] | exact Ht].
    + constructor; [split; [reflexivity|exact HR] | exact IH].
Qed.

Lemma props_rel_del (A B : Type) (R : A -> B -> Prop) l1 l2 k :
  props_rel R l1 l2 -> props_rel R (assoc_del k l1) (assoc_del k l2).
Proof.
  unfold props_rel.
  induction 1 as [|[k1 a1] [k2 b1] l1 l2 [Hk HR] _ IH]; simpl.
  - constructor.
  - simpl in Hk. subst k2. destruct (String.eqb k k1); [assumption|].
    constructor; [split; [reflexivity|assumption] | assumption].
Qed.

(** A result under construction stays what it is while the heap grows
    above it. *)
Lemma fresh_rep_keeps n hc h2 resv res :
  fresh_rep n (List.length hc) hc resv res ->
  keeps (List.length hc) hc h2 ->
  fresh_rep n (List.length h2) h2 resv res.
Proof.
  intros Hf K.
  assert (Hrep : forall lo x r, rep lo (List.length hc) hc x r ->
                                rep lo (List.length h2) h2 x r).
  { intros lo x r Hr. eapply rep_mono; [exact Hr | lia | apply K |].
    intros l Hl. apply K. lia. }
  destruct resv; simpl in *; auto.
  destruct Hf as (-> & Hn & acc & Hc & Hp).
  split; [reflexivity|]. split; [destruct K; lia|].
  exists acc. split; [rewrite <- Hc; now apply K|].
  eapply props_rel_impl; [exact Hp|].
  apply Forall_forall. intros kd _ r. apply Hrep.
Qed.

Lemma set_inert n hi h resv res key c :
  fresh_rep n hi h resv res -> is_obj resv = false ->
  Store.set res key c h = Some (tt, h).
Proof.
  intros Hf Ho. destruct resv; try discriminate; simpl in Hf;
    inversion Hf as [ | | | | |l ms0 Hr Hc|l ds es Hr Hc Hfa|l dp ps Hr Hc Hp];
    subst; unfold Store.set; simpl; try reflexivity; now rewrite Hc.
Qed.

Lemma delete_inert n hi h resv res key :
  fresh_rep n hi h resv res -> is_obj resv = false ->
  Store.delete res key h = Some (tt, h).
Proof.
  intros Hf Ho. destruct resv; try discriminate; simpl in Hf;
    inversion Hf as [ | | | | |l ms0 Hr Hc|l ds es Hr Hc Hfa|l dp ps Hr Hc Hp];
    subst; unfold Store.delete; simpl; try reflexivity; now rewrite Hc.
Qed.

(** [res[key] = r] on a result under construction, for an [r] that lies
    above it. *)
Lemma returns_set_fresh n h resv res key x r
      (Q : unit -> Store.heap -> Prop) :
  fresh_rep n (List.length h) h resv res ->
  (is_obj resv = true -> rep (S n) (List.length h) h x r) ->
  (forall h', List.length h' = List.length h -> keeps n h h' ->
              fresh_rep n (List.length h') h' (set resv key x) res ->
              Q tt h') ->
  returns (Store.set res key r) h Q.
Proof.
  intros Hf Hr HQ. destruct (is_obj resv) eqn:Ho.
  - specialize (Hr eq_refl).
    destruct resv; try discriminate. simpl in Hf.
    destruct Hf as (-> & Hn & acc & Hc & Hp).
    eapply returns_set_object; [exact Hc|].
    apply HQ.
    + apply length_replace.
    + apply keeps_store. lia.
    + simpl. split; [reflexivity|]. rewrite length_replace.
      split; [assumption|].
      exists (assoc_set key r acc).
      split; [now apply nth_error_replace_same|].
      apply props_rel_set.
      * eapply props_rel_impl; [exact Hp|].
        apply Forall_forall. intros kd _ r' Hr'.
        eapply rep_mono; [exact Hr' | lia | lia |].
        intros l Hl. apply nth_error_replace_other. lia.
      * eapply rep_mono; [exact Hr | lia | lia |].
        intros l Hl. apply nth_error_replace_other. lia.
  - exists tt, h. split; [eapply set_inert; eassumption|].
    apply HQ; [reflexivity | apply keeps_refl |].
    destruct resv; try discriminate; exact Hf.
Qed.

Lemma returns_delete_fresh n h resv res key
      (Q : unit -> Store.heap -> Prop) :
  fresh_rep n (List.length h) h resv res ->
  (forall h', List.length h' = List.length h -> keeps n h h' ->
              fresh_rep n (List.length h') h' (delete resv key) res ->
              Q tt h') ->
  returns (Store.delete res key) h Q.
Proof.
  intros Hf HQ. destruct (is_obj resv) eqn:Ho.
  - destruct resv; try discriminate. simpl in Hf.
    destruct Hf as (-> & Hn & acc & Hc & Hp).
    eapply returns_delete_object; [exact Hc|].
    apply HQ.
    + apply length_replace.
    + apply keeps_store. lia.
    + simpl. split; [reflexivity|]. rewrite length_replace.
      split; [assumption|].
      exists (assoc_del key acc).
      split; [now apply nth_error_replace_same|].
      apply props_rel_del.
      eapply props_rel_impl; [exact Hp|].
      apply Forall_forall. intros kd _ r' Hr'.
      eapply rep_mono; [exact Hr' | lia | lia |].
      intros l Hl. apply nth_error_replace_other. lia.
  - exists tt, h. split; [eapply delete_inert; eassumption|].
    apply HQ; [reflexivity | apply keeps_refl |].
    destruct resv; try discriminate; exact Hf.
Qed.

Lemma fresh_rep_object_bound n hi h resv res :
  fresh_rep n hi h resv res -> is_obj resv = true -> n < hi.
Proof.
  destruct resv; try discriminate. simpl. intros (_ & H & _) _. exact H.
Qed.

Section transform_loop.
Variable d : details.
Variable fuel' : nat.
Variable h0 : Store.heap.
Variables (doc : value) (v res : Store.rvalue) (lo hi : nat).
Hypothesis Hwf : wf_value doc.
Hypothesis Hrep : rep lo hi h0 doc v.
Hypothesis Hhi : hi <= List.length h0.
Hypothesis Hfuel : height doc < fuel'.
Hypothesis Harr : _isArray doc = false.

Let n0 := List.length h0.
Let recur := fun (rule : tree (option bool)) (sub : value) =>
               transform d sub rule.

Lemma doc_rep_later hc : keeps n0 h0 hc -> rep lo hi hc doc v.
Proof.
  intros K. eapply rep_mono; [exact Hrep | lia | lia |].
  intros l Hl. apply K. unfold n0. lia.
Qed.

(** One rule: the heap run does to the result under construction what
    [rule_step] does to the result of the value model. *)
Lemma store_rule_step_spec key rule hc resv :
  transform_ok d fuel' rule ->
  keeps n0 h0 hc ->
  fresh_rep n0 (List.length hc) hc resv res ->
  returns (store_rule_step d fuel' v res (key, rule)) hc
    (fun _ hf =>
       keeps n0 h0 hf /\
       fresh_rep n0 (List.length hf) hf
                 (rule_step d recur doc resv (key, rule)) res).
Proof.
  intros Hok K Hres.
  pose proof (doc_rep_later K) as Hdoc.
  assert (Lc : n0 <= List.length hc) by apply K.
  unfold store_rule_step, rule_step.
  apply returns_bind, returns_reads.
  rewrite (rep_has key Hdoc).
  destruct (has doc key); cbn [negb]; [|apply returns_ret; auto].
  apply returns_bind, returns_reads.
  pose proof (rep_get key Hdoc) as Hsub.
  assert (Hset : forall x r h2,
             keeps (List.length hc) hc h2 ->
             fresh_rep (List.length hc) (List.length h2) h2 x r ->
             returns (Store.set res key r) h2
               (fun _ hf =>
                  keeps n0 h0 hf /\
                  fresh_rep n0 (List.length hf) hf (set resv key x) res)).
  { intros x r h2 K2 Hr.
    eapply returns_set_fresh.
    - eapply fresh_rep_keeps; eassumption.
    - intros Ho. apply (fresh_rep_object_bound _ _ _ _ _ Hres) in Ho.
      eapply rep_mono; [apply fresh_rep_rep; exact Hr | lia | lia | reflexivity].
    - intros h' L' K' Hf'. split; [|assumption].
      apply keeps_trans with hc; [assumption|].
      apply keeps_trans with h2; [|assumption].
      apply keeps_le with (List.length hc); assumption. }
  destruct rule as [a|children].
  - destruct (is_including d).
    + apply returns_bind.
      eapply returns_weaken.
      * eapply (@clone_spec (get doc key)); [now apply wf_get | exact Hsub | lia |].
        pose proof (height_get doc key). lia.
      * intros c h2 [K2 Hc]. rewrite clone_id. now apply Hset.
    + eapply returns_delete_fresh; [exact Hres|].
      intros h' L' K' Hf'. split; [|assumption].
      apply keeps_trans with hc; assumption.
  - rewrite (rep_isObject Hsub).
    destruct (isObject (get doc key)) eqn:Eo; [|apply returns_ret; auto].
    apply returns_bind.
    eapply returns_weaken.
    + eapply (Hok (get doc key)); [now apply wf_get | exact Hsub | lia |].
      pose proof (height_get_object doc key Harr Eo). lia.
    + intros r h2 [K2 Hr]. now apply Hset.
Qed.

Lemma transform_loop rules :
  Forall (fun kr => transform_ok d fuel' (snd kr)) rules ->
  forall hc resv,
    keeps n0 h0 hc ->
    fresh_rep n0 (List.length hc) hc resv res ->
    returns (Store.eachM (store_rule_step d fuel' v res) rules) hc
      (fun _ hf =>
         keeps n0 h0 hf /\
         fresh_rep n0 (List.length hf) hf
                   (fold_left (rule_step d recur doc) rules resv) res).
Proof.
  induction 1 as [|[key rule] rules Hok _ IH]; intros hc resv K Hres.
  - apply returns_ret. auto.
  - cbn [Store.eachM fold_left]. apply returns_bind.
    eapply returns_weaken;
      [apply store_rule_step_spec; [exact Hok | exact K | exact Hres]|].
    intros _ h1 [K1 Hres1]. now apply IH.
Qed.
End transform_loop.

(** A document that is not an array. *)
Lemma transform_spec_other d ruleTree fuel' doc v h lo hi :
  Forall (fun kr => transform_ok d fuel' (snd kr)) (rules_of ruleTree) ->
  wf_value doc -> rep lo hi h doc v -> hi <= List.length h ->
  height doc < fuel' -> _isArray doc = false ->
  returns (Store.transform d (S fuel') v ruleTree) h
    (fun r h' => keeps (List.length h) h h' /\
                 fresh_rep (List.length h) (List.length h') h'
                           (transform d doc ruleTree) r).
Proof.
  intros Hrules Hwf Hrep Hhi Hfuel Harr.
  eapply returns_eq.
  { apply store_transform_other. now rewrite (rep_isArray Hrep). }
  rewrite transform_rules by assumption.
  apply returns_bind.
  apply returns_weaken
    with (Q := fun res h1 =>
                 keeps (List.length h) h h1 /\
                 fresh_rep (List.length h) (List.length h1) h1
                           (initial_result d doc) res).
  - unfold initial_result. destruct (is_including d).
    + apply returns_alloc. split; [apply keeps_alloc|].
      simpl. split; [reflexivity|].
      split; [rewrite length_app; simpl; lia|].
      exists []. split; [apply nth_error_alloc | apply Forall2_nil].
    + rewrite clone_id. eapply clone_spec; eassumption.
  - intros res h1 [K1 Hres]. apply returns_bind.
    eapply returns_weaken.
    + eapply transform_loop with (h0 := h) (lo := lo) (hi := hi);
        eassumption.
    + intros _ hf [Kf Hf]. apply returns_ret. split; assumption.
Qed.

Lemma transform_spec_from_rules d ruleTree :
  (forall fuel,
      Forall (fun kr => transform_ok d fuel (snd kr)) (rules_of ruleTree)) ->
  forall fuel, transform_ok d fuel ruleTree.
Proof.
  intros Hrules fuel doc. revert fuel.
  induction doc as [ | | | | | |docs IH|dprops _] using value_nested_ind;
    intros fuel Hwf v h lo hi Hrep Hhi Hfuel;
    (destruct fuel as [|fuel']; [lia|]);
    try (eapply transform_spec_other; try eassumption;
         [apply Hrules | lia | reflexivity]).
  (* an array *)
  eapply returns_eq.
  { apply store_transform_array. now rewrite (rep_isArray Hrep). }
  apply returns_bind.
  inversion Hwf as [ | | | | | |? Hwfs|]; subst.
  eapply returns_weaken.
  { apply (@mapM_spec (fun subdoc => Store.transform d fuel' subdoc ruleTree)
                      (fun x => transform d x ruleTree) h docs
                      (Store.elems_of h v));
      [|apply keeps_refl].
    eapply Forall2_impl_in; [exact (rep_elems Hrep)|].
    apply Forall_forall. intros x Hx e He h1 K1.
    rewrite Forall_forall in IH, Hwfs.
    eapply returns_weaken.
    - eapply (IH x Hx fuel' (Hwfs x Hx) e h1 lo hi).
      + eapply rep_keeps; eassumption.
      + destruct K1. lia.
      + apply height_elem in Hx. lia.
    - intros r h2 [K2 Hfr]. split; [assumption|].
      now apply fresh_rep_rep. }
  intros rs h2 [K2 Hrs]. apply returns_alloc. split.
  - eapply keeps_then; [eassumption | apply keeps_alloc].
  - rewrite transform_array. simpl. econstructor.
    + rewrite length_app. simpl. destruct K2. lia.
    + apply nth_error_alloc.
    + eapply Forall2_impl; [|exact Hrs]. intros a b Hab.
      eapply rep_mono; [exact Hab | lia | rewrite length_app; lia |].
      intros l' Hl'. apply nth_error_app1. lia.
Qed.

(** The transform on the heap finishes when it has fuel for the nesting
    of the document, keeps the heap it started from, and builds in new
    cells the result of the value model. *)
Lemma transform_spec d ruleTree : forall fuel, transform_ok d fuel ruleTree.
Proof.
  induction ruleTree as [a|children IH] using tree_nested_ind;
    apply transform_spec_from_rules; intros fuel; simpl.
  - constructor.
  - eapply Forall_impl; [|exact IH]. intros kr H. apply H.
Qed.

(** ** The compiled projection on the heap *)

Lemma get_keeps lo hi h h1 doc v key :
  rep lo hi h doc v -> hi <= List.length h -> keeps (List.length h) h h1 ->
  Store.get h1 v key = Store.get h v key.
Proof.
  intros Hrep Hhi K.
  assert (E : Store.own_props h1 v = Store.own_props h v).
  { inversion Hrep as [ | | | | |l ms0 Hr Hc|l ds es Hr Hc Hf|l dp ps Hr Hc Hp];
      subst; try reflexivity; unfold Store.own_props; simpl;
      (replace (nth_error h1 l) with (nth_error h l)
        by (symmetry; apply K; lia)); reflexivity. }
  unfold Store.get. now rewrite E.
Qed.

(** X18.  The compiled projection on the heap, for every document the
    heap holds: the run finishes when it has fuel for the nesting of the
    document, it writes to no cell the heap had, and its result stands for
    the result of the value model.  When the [_id] of the document is not
    forced into the result, the result lies in new cells entirely; when it
    is, the [_id] of the result is the very value the document holds. *)
Theorem compiled_on_heap idp d doc fuel v h :
  wf_value doc ->
  rep 0 (List.length h) h doc v ->
  height doc + 1 < fuel ->
  returns (Store.compiled fuel idp d v) h
    (fun r h' =>
       keeps (List.length h) h h' /\
       rep 0 (List.length h') h' (compiled idp d doc) r /\
       (truthy idp && has doc "_id" = false ->
        fresh_rep (List.length h) (List.length h') h' (compiled idp d doc) r) /\
       (truthy idp && has doc "_id" = true ->
        Store.get h' r "_id" = Store.get h v "_id")).
Proof.
  intros Hwf Hrep Hfuel. unfold Store.compiled.
  apply returns_bind.
  eapply returns_weaken.
  { eapply (@transform_spec d (Node (tree_of d)) fuel doc Hwf v h);
      [exact Hrep | lia | exact Hfuel]. }
  intros res h1 [K1 Hres].
  set (R := transform d doc (Node (tree_of d))) in *.
  assert (Hdoc1 : rep 0 (List.length h) h1 doc v)
    by (eapply rep_keeps; [exact Hrep | lia | exact K1]).
  apply returns_bind, returns_reads. rewrite (rep_has "_id" Hdoc1).
  unfold compiled. fold R.
  destruct (truthy idp) eqn:Et; [destruct (has doc "_id") eqn:Eh|];
    cbn [andb negb].
  - (* the identifier is forced into the result *)
    apply returns_bind. apply returns_bind, returns_reads.
    assert (HR : is_obj R = true).
    { apply has_id_object in Eh. destruct doc; try discriminate.
      apply transform_object_is_obj. }
    destruct R as [ | | | | | | |Rprops]; try discriminate.
    simpl in Hres. destruct Hres as (-> & Hn & acc & Hacc & Hp).
    eapply returns_set_object; [exact Hacc|].
    apply returns_bind, returns_reads. apply returns_bind, returns_ret.
    apply returns_ret.
    set (n := List.length h) in *.
    set (idv := Store.get h1 (Store.RRef n) "_id").
    assert (L1 : n <= List.length h1) by apply K1.
    split; [|split; [|split]].
    + apply keeps_trans with h1; [assumption|]. apply keeps_store. lia.
    + rewrite length_replace. simpl. econstructor.
      * lia.
      * now apply nth_error_replace_same.
      * apply props_rel_set.
        -- eapply props_rel_impl; [exact Hp|].
           apply Forall_forall. intros kd _ r' Hr'.
           eapply rep_mono; [exact Hr' | lia | lia |].
           intros l Hl. apply nth_error_replace_other. lia.
        -- eapply rep_mono; [exact (rep_get "_id" Hdoc1) | lia | lia |].
           intros l Hl. apply nth_error_replace_other. unfold n. lia.
    + discriminate.
    + intros _. unfold Store.get at 1. unfold Store.own_props. simpl.
      rewrite nth_error_replace_same by assumption.
      rewrite assoc_get_set_same.
      eapply get_keeps; [exact Hrep | lia | exact K1].
  - (* the document has no identifier *)
    apply returns_bind, returns_ret.
    apply returns_bind, returns_reads. apply returns_bind, returns_ret.
    apply returns_ret.
    split; [assumption|]. split; [|split; [auto|discriminate]].
    apply fresh_rep_rep in Hres.
    eapply rep_mono; [exact Hres | lia | lia | reflexivity].
  - (* the identifier is excluded *)
    apply returns_bind, returns_ret.
    apply returns_bind, returns_reads.
    rewrite (rep_has "_id" (fresh_rep_rep _ _ _ _ _ Hres)).
    destruct (has R "_id").
    + apply returns_bind.
      eapply returns_delete_fresh; [exact Hres|].
      intros h2 L2 K2 Hf2. apply returns_ret.
      split; [|split; [|split; [auto|discriminate]]].
      * apply keeps_trans with h1; [assumption|].
        apply keeps_le with (List.length h); [lia|assumption].
      * apply fresh_rep_rep in Hf2.
        eapply rep_mono; [exact Hf2 | lia | lia | reflexivity].
    + apply returns_bind, returns_ret. apply returns_ret.
      split; [assumption|]. split; [|split; [auto|discriminate]].
      apply fresh_rep_rep in Hres.
      eapply rep_mono; [exact Hres | lia | lia | reflexivity].
Qed.

(** The theorem at the document of the samples. *)
Lemma compiled_on_heap_witness :
  exists r h',
    Store.run_projection 5 (VObj [("a", VNum 1)]) (Store.RRef 2) sample_heap
    = Some (r, h') /\
    keeps 3 sample_heap h' /\
    Store.get h' r "_id" = Store.RRef 0.
Proof.
  assert (Hk : wf_value (VObj [("k", VNum 1)])).
  { apply wf_obj; simpl.
    - constructor; [simpl; tauto | constructor].
    - constructor; [constructor | constructor]. }
  assert (Hwf : wf_value sample_doc).
  { apply wf_obj; simpl.
    - constructor; [simpl; intuition discriminate|].
      constructor; [simpl; intuition discriminate|].
      constructor; [simpl; tauto | constructor].
    - constructor; [exact Hk|]. constructor; [constructor|].
      constructor; [exact Hk | constructor]. }
  assert (Hrk : forall l, l < 2 ->
              rep 0 3 sample_heap (VObj [("k", VNum 1)]) (Store.RRef l)).
  { intros l Hl. eapply rep_obj with (props := [("k", Store.RNum 1)]).
    - lia.
    - destruct l as [|[|l]]; [reflexivity | reflexivity | lia].
    - constructor; [split; [reflexivity|constructor] | constructor]. }
  assert (Hrep : rep 0 3 sample_heap sample_doc (Store.RRef 2)).
  { eapply rep_obj; [lia | reflexivity |].
    constructor; [split; [reflexivity | apply Hrk; lia]|].
    constructor; [split; [reflexivity | constructor]|].
    constructor; [split; [reflexivity | apply Hrk; lia] | constructor]. }
  destruct (@compiled_on_heap
              (id_projection (VObj [("a", VNum 1)]))
              {| tree_of := [("a", Leaf (Some true))]; including := Some true |}
              sample_doc 5 (Store.RRef 2) sample_heap Hwf Hrep)
    as (r & h' & Hrun & K & _ & _ & Hid).
  - simpl. lia.
  - exists r, h'. split; [exact Hrun|]. split; [exact K|].
    now rewrite Hid.
Defined.

(* ================================================================== *)
(** * Further properties of the compiler and of the helpers *)
(* ================================================================== *)

(** ** Trees built without a conflict *)
Section free_walk.
Variable A : Type.
Variable newLeafFn : string -> A.
Variable keyPath lastKey : string.

Lemma leaf_value_nil segs : leaf_value segs (@nil (string * tree A)) = None.
Proof. destruct segs; reflexivity. Qed.

(** [leaf_value] finds something exactly where [leaf_at] holds. *)
Lemma leaf_value_at segs (children : list (string * tree A)) :
  leaf_at segs children <-> exists a, leaf_value segs children = Some a.
Proof.
  revert children. induction segs as [|key rest IH]; intros children; simpl.
  - split; [tauto | intros [a H]; discriminate].
  - destruct (assoc_get key children) as [[a|sub]|].
    + destruct rest; split; eauto; try discriminate.
      intros [b H]. discriminate.
    + apply IH.
    + split; [tauto | intros [a H]; discriminate].
Qed.

(** A walk that meets no scalar on its way and whose end is free never
    calls [conflictFn]: it ends well, with one more leaf when its path has
    no segment [__proto__]. *)
Lemma walk_free inner :
  forall seen treePos,
    ~ In "__proto__" (inner ++ [lastKey])%list ->
    (forall pre suffix,
        suffix <> [] -> (inner ++ [lastKey] = pre ++ suffix)%list ->
        leaf_value pre treePos = None) ->
    ~ occupied (inner ++ [lastKey]) treePos ->
    exists treePos',
      (forall conflictFn,
          walk newLeafFn conflictFn keyPath lastKey seen inner treePos
          = Ok treePos') /\
      leaf_value (inner ++ [lastKey]) treePos' = Some (newLeafFn keyPath) /\
      (forall q, q <> (inner ++ [lastKey])%list ->
                 leaf_value q treePos' = leaf_value q treePos) /\
      (forall q, occupied q treePos' ->
                 occupied q treePos \/
                 exists suffix, (inner ++ [lastKey] = q ++ suffix)%list).
Proof.
  induction inner as [|key rest IH]; intros seen treePos Hproto Hfree Hend.
  - cbn [app] in *.
    assert (Hk : lastKey <> "__proto__")
      by (intros ->; apply Hproto; now left).
    destruct (assoc_get lastKey treePos) as [old|] eqn:E.
    { exfalso. apply Hend. simpl. rewrite E. destruct old; reflexivity. }
    eexists. split.
    { intros conflictFn. cbn [walk]. rewrite E.
      rewrite tree_assign_plain by assumption. reflexivity. }
    split; [|split].
    + simpl. now rewrite assoc_get_set_same.
    + intros [|k r] Hq; [reflexivity|]. simpl.
      destruct (String.eqb_spec k lastKey) as [->|Hne].
      * rewrite assoc_get_set_same, E.
        destruct r; [congruence | reflexivity].
      * now rewrite assoc_get_set_other.
    + intros [|k r]; [simpl; tauto|].
      destruct (String.eqb_spec k lastKey) as [->|Hne].
      * rewrite occupied_set_same. intros ->. right. now exists [].
      * rewrite occupied_set_other by assumption. tauto.
  - assert (Hk : key <> "__proto__")
      by (intros ->; apply Hproto; now left).
    assert (Hrest : ~ In "__proto__" (rest ++ [lastKey])%list)
      by (intros H; apply Hproto; now right).
    assert (Hsub : forall children,
               (assoc_get key treePos = Some (Node children) \/
                (assoc_get key treePos = None /\ children = [])) ->
               exists treePos',
                 (forall conflictFn,
                     (sub <- walk newLeafFn conflictFn keyPath lastKey
                                  (seen ++ [key]) rest children ;;
                      Ok (tree_assign key (Node sub) treePos)) = Ok treePos') /\
                 leaf_value ((key :: rest) ++ [lastKey]) treePos'
                 = Some (newLeafFn keyPath) /\
                 (forall q, q <> ((key :: rest) ++ [lastKey])%list ->
                            leaf_value q treePos' = leaf_value q treePos) /\
                 (forall q, occupied q treePos' ->
                            occupied q treePos \/
                            exists suffix,
                              ((key :: rest) ++ [lastKey] = q ++ suffix)%list)).
    { intros children Hc.
      destruct (IH (seen ++ [key])%list children Hrest)
        as (sub & W & Hv & Ho & Hocc).
      - intros pre suffix Hs E.
        destruct Hc as [Hc|[Hc ->]]; [|apply leaf_value_nil].
        specialize (Hfree (key :: pre) suffix Hs).
        simpl in Hfree. rewrite Hc in Hfree. apply Hfree. now rewrite E.
      - intros Hocc. destruct Hc as [Hc|[Hc ->]].
        + apply Hend. simpl. now rewrite Hc.
        + apply occupied_nil in Hocc. destruct rest; discriminate.
      - eexists. split.
        { intros conflictFn. rewrite W. cbn [bind].
          rewrite tree_assign_plain by assumption. reflexivity. }
        split; [|split].
        + simpl. now rewrite assoc_get_set_same.
        + intros [|k r] Hq; [reflexivity|]. simpl.
          destruct (String.eqb_spec k key) as [->|Hne].
          * rewrite assoc_get_set_same.
            rewrite Ho by (intros ->; now apply Hq).
            destruct Hc as [Hc|[Hc ->]]; rewrite Hc;
              [reflexivity | apply leaf_value_nil].
          * now rewrite assoc_get_set_other.
        + intros [|k r]; [simpl; tauto|].
          destruct (String.eqb_spec k key) as [->|Hne].
          * rewrite occupied_set_same. intros H.
            destruct (Hocc _ H) as [Hq|[suffix Hs]].
            -- destruct Hc as [Hc|[Hc ->]].
               ++ left. simpl. now rewrite Hc.
               ++ apply occupied_nil in Hq. subst r. right.
                  now exists (rest ++ [lastKey])%list.
            -- right. exists suffix. simpl. now rewrite Hs.
          * rewrite occupied_set_other by assumption. tauto. }
    destruct (assoc_get key treePos) as [[a|children]|] eqn:E.
    + exfalso.
      specialize (Hfree [key] (rest ++ [lastKey])%list).
      simpl in Hfree. rewrite E in Hfree.
      assert (Some a = None); [|discriminate].
      apply Hfree; [destruct rest; discriminate | reflexivity].
    + destruct (Hsub children) as (t & W & H); [now left|].
      exists t. split; [|exact H].
      intros conflictFn. cbn [walk]. rewrite E. apply W.
    + destruct (Hsub []) as (t & W & H); [now right|].
      exists t. split; [|exact H].
      intros conflictFn. cbn [walk]. rewrite E. apply W.
Qed.
End free_walk.

(** The loop of [pathsToTree] over distinct paths without a segment
    [__proto__], none of which is a strict dot-prefix of another, in any
    order. *)
Lemma paths_loop_free (A : Type) (newLeafFn : string -> A) todo :
  forall done root,
    NoDup (done ++ todo) ->
    prefix_free (done ++ todo) ->
    proto_free todo ->
    (forall q a, leaf_value q root = Some a ->
                 exists k, In k done /\ split dot k = q /\ a = newLeafFn k) ->
    (forall k, In k done -> leaf_value (split dot k) root = Some (newLeafFn k)) ->
    (forall q, occupied q root ->
               q = [] \/
               exists k suffix,
                 In k done /\ split dot k = (q ++ suffix)%list) ->
    exists root',
      (forall conflictFn,
          pathsToTree newLeafFn conflictFn todo root = Ok root') /\
      (forall k, In k (done ++ todo) ->
                 leaf_value (split dot k) root' = Some (newLeafFn k)) /\
      (forall q a, leaf_value q root' = Some a ->
                   exists k, In k (done ++ todo) /\ split dot k = q /\
                             a = newLeafFn k).
Proof.
  induction todo as [|k todo IH]; intros done root Hnd Hpf Hproto I1 I2 I3.
  - exists root. rewrite app_nil_r. split; [reflexivity|]. split; assumption.
  - assert (Hsplit : (removelast (split dot k) ++ [last (split dot k) ""])%list
                     = split dot k)
      by (symmetry; apply app_removelast_last, split_nonempty).
    assert (Hk : ~ In k done).
    { intros Hin. apply NoDup_remove_2 in Hnd. apply Hnd.
      apply in_or_app. now left. }
    assert (Hkin : In k (done ++ k :: todo))
      by (apply in_or_app; right; now left).
    destruct (@walk_free A newLeafFn k (last (split dot k) "")
                (removelast (split dot k)) [] root)
      as (root1 & W & Hv & Ho & Hocc).
    + rewrite Hsplit. apply Hproto. now left.
    + rewrite Hsplit. intros pre suffix Hs E.
      destruct (leaf_value pre root) as [a|] eqn:El; [|reflexivity].
      exfalso. destruct (I1 _ _ El) as (k' & Hk' & Ek' & _).
      apply (Hpf k' k); [apply in_or_app; now left | assumption |].
      exists suffix. split; [assumption|]. now rewrite Ek'.
    + rewrite Hsplit. intros Hocc.
      destruct (I3 _ Hocc) as [E|(k' & suffix & Hk' & E)].
      * now apply (split_nonempty dot k).
      * destruct suffix as [|x suffix].
        -- rewrite app_nil_r in E. apply split_inj in E. now subst k'.
        -- apply (Hpf k k'); [assumption | apply in_or_app; now left |].
           exists (x :: suffix). split; [discriminate | assumption].
    + rewrite Hsplit in Hv, Ho, Hocc.
      assert (Happ : ((done ++ [k]) ++ todo = done ++ k :: todo)%list)
        by now rewrite <- app_assoc.
      destruct (IH (done ++ [k])%list root1) as (root' & Hloop & R1 & R2);
        try (rewrite Happ; assumption).
      * intros k' Hk'. apply Hproto. now right.
      * intros q a Hq.
        destruct (list_eq_dec string_dec q (split dot k)) as [->|Hne].
        -- exists k. rewrite Hv in Hq. injection Hq as <-.
           split; [apply in_or_app; right; now left | auto].
        -- rewrite Ho in Hq by assumption.
           destruct (I1 _ _ Hq) as (k' & Hk' & E & Ea).
           exists k'. split; [apply in_or_app; now left | auto].
      * intros k' Hk'. apply in_app_or in Hk' as [Hk'|[<-|[]]].
        -- rewrite Ho; [now apply I2|].
           intros E. apply split_inj in E. now subst k'.
        -- exact Hv.
      * intros q Hq. apply Hocc in Hq as [Hq|[suffix E]].
        -- destruct (I3 _ Hq) as [->|(k' & suffix & Hk' & E)]; [now left|].
           right. exists k', suffix. split; [|assumption].
           apply in_or_app. now left.
        -- right. exists k, suffix. split; [|assumption].
           apply in_or_app. right. now left.
      * exists root'. rewrite Happ in R1, R2.
        split; [|split; assumption].
        intros conflictFn. specialize (Hloop conflictFn).
        unfold pathsToTree in *. cbn [each]. unfold add_path.
        rewrite W. exact Hloop.
Qed.

Lemma pathsToTree_free (A : Type) (newLeafFn : string -> A) paths :
  NoDup paths -> prefix_free paths -> proto_free paths ->
  exists root,
    (forall conflictFn, pathsToTree newLeafFn conflictFn paths [] = Ok root) /\
    (forall k, In k paths ->
               leaf_value (split dot k) root = Some (newLeafFn k)) /\
    (forall q a, leaf_value q root = Some a ->
                 exists k, In k paths /\ split dot k = q /\ a = newLeafFn k).
Proof.
  intros Hnd Hpf Hproto.
  apply (@paths_loop_free A newLeafFn paths [] []); try assumption.
  - intros q a H. now rewrite leaf_value_nil in H.
  - intros k [].
  - intros q H. left. now apply occupied_nil in H.
Qed.

(** X1.  [pathsToTree] on distinct paths without a segment [__proto__],
    none of which is a strict dot-prefix of another, starting from the
    empty tree: it returns a tree whatever the conflict function is,
    which it never calls; every path ends on a leaf holding
    [newLeafFn path], and the tree has no other leaf.  The paths in
    another order give a tree with the same leaves. *)
Theorem pathsToTree_without_conflict (A : Type) (newLeafFn : string -> A)
        paths :
  NoDup paths -> prefix_free paths -> proto_free paths ->
  exists root,
    (forall conflictFn, pathsToTree newLeafFn conflictFn paths [] = Ok root) /\
    (forall k, In k paths ->
               leaf_value (split dot k) root = Some (newLeafFn k)) /\
    (forall q a, leaf_value q root = Some a ->
                 exists k, In k paths /\ split dot k = q /\ a = newLeafFn k) /\
    (forall paths',
        Permutation paths paths' ->
        exists root',
          (forall conflictFn,
              pathsToTree newLeafFn conflictFn paths' [] = Ok root') /\
          forall q, leaf_value q root' = leaf_value q root).
Proof.
  intros Hnd Hpf Hproto.
  destruct (pathsToTree_free newLeafFn Hnd Hpf Hproto)
    as (root & Hroot & Hin & Hout).
  exists root. split; [assumption|]. split; [assumption|].
  split; [assumption|].
  intros paths' Hperm.
  destruct (@pathsToTree_free A newLeafFn paths')
    as (root' & Hroot' & Hin' & Hout').
  - eapply Permutation_NoDup; eassumption.
  - intros p q Hp Hq. apply Hpf; eapply Permutation_in;
      try eassumption; now symmetry.
  - intros k Hk. apply Hproto. eapply Permutation_in; [|exact Hk].
    now symmetry.
  - exists root'. split; [assumption|]. intros q.
    destruct (leaf_value q root') as [a|] eqn:E'.
    + destruct (Hout' _ _ E') as (k & Hk & <- & ->).
      symmetry. apply Hin. eapply Permutation_in; [|eassumption].
      now symmetry.
    + destruct (leaf_value q root) as [a|] eqn:E; [|reflexivity].
      destruct (Hout _ _ E) as (k & Hk & <- & ->).
      rewrite Hin' in E'; [discriminate|].
      eapply Permutation_in; eassumption.
Qed.

Lemma pathsToTree_without_conflict_witness :
  exists root,
    pathsToTree (fun path => String.length path) (fun node _ _ => Ok node)
                ["b.c"; "a"] [] = Ok root /\
    leaf_value ["b"; "c"] root = Some 3.
Proof.
  destruct (@pathsToTree_without_conflict nat (fun path => String.length path)
              ["b.c"; "a"])
    as (root & Hroot & Hin & _).
  - constructor; [simpl; intros [H|[]]; discriminate|].
    constructor; [simpl; tauto | constructor].
  - simpl. intros p q [<-|[<-|[]]] [<-|[<-|[]]] (suffix & Hne & E);
      simpl in E; destruct suffix; try discriminate; now apply Hne.
  - intros k [<-|[<-|[]]]; unfold proto_segment; simpl;
      intuition discriminate.
  - exists root. split; [apply Hroot|].
    apply (Hin "b.c"). now left.
Defined.

(** ** What a compiled specification looks like *)

Lemma details_prefix_free fields d :
  NoDup (keys fields) -> proto_free (working_keys fields) ->
  projectionDetails fields = Ok d ->
  prefix_free (working_keys fields).
Proof.
  intros Hnd Hproto Hd p q Hp Hq Hpq.
  destruct (@paths_loop_throws (fun _ => including d) (working_keys fields)
                               [] [])
    as (p' & q' & _ & _ & _ & Hthrow).
  - apply working_keys_sorted.
  - now apply working_keys_NoDup.
  - exact Hproto.
  - intros x Hx. now apply leaf_at_nil in Hx.
  - intros k [].
  - intros x Hx. left. now apply occupied_nil in Hx.
  - exists p, q. auto.
  - rewrite (details_tree _ Hd) in Hthrow. discriminate.
Qed.

Lemma details_uniform fields d k :
  projectionDetails fields = Ok d -> In k (working_keys fields) ->
  including d = Some (truthy (get fields k)).
Proof.
  intros Hd Hk. apply details_mode in Hd.
  destruct (working_keys fields) as [|first rest]; [destruct Hk|].
  rewrite mode_loop_start, mode_loop in Hd.
  destruct (forallb _ rest) eqn:F; [|discriminate].
  injection Hd as <-. destruct Hk as [->|Hk]; [reflexivity|].
  rewrite forallb_forall in F. apply F in Hk.
  apply Bool.eqb_prop in Hk. now rewrite Hk.
Qed.

Lemma working_keys_nil fields :
  NoDup (keys fields) -> working_keys fields = [] -> keys fields = [].
Proof.
  intros Hnd. apply sort_NoDup in Hnd. unfold working_keys.
  assert (Hs : sort (keys fields) = [] -> keys fields = []).
  { intros E. apply Permutation_nil. rewrite <- E. apply sort_perm. }
  destruct (sort (keys fields)) as [|a [|b l]] eqn:E.
  - auto.
  - cbn [List.length Nat.ltb Nat.leb Nat.eqb nth andb].
    destruct (String.eqb_spec a "_id") as [->|Hne]; cbn [negb andb].
    + discriminate.
    + destruct (negb _); cbn [filter]; [|discriminate].
      apply String.eqb_neq in Hne. rewrite Hne. discriminate.
  - destruct (_ && _ && _); [|discriminate].
    cbn [filter].
    destruct (String.eqb_spec a "_id") as [->|Ha]; cbn [negb]; [|discriminate].
    destruct (String.eqb_spec b "_id") as [->|Hb]; cbn [negb]; [|discriminate].
    inversion Hnd as [|? ? Hin _]. exfalso. apply Hin. now left.
Qed.

(** X2.  The rule tree of [projectionDetails] for a specification none of
    whose working keys has a segment [__proto__]: its leaves are the
    working keys, split at the dots, and every leaf holds [including],
    which is the truthiness of every working key; [including] stays
    [null] only for a specification without keys. *)
Theorem rule_tree_leaves fields d :
  NoDup (keys fields) -> proto_free (working_keys fields) ->
  projectionDetails fields = Ok d ->
  (forall k, In k (working_keys fields) ->
             leaf_value (split dot k) (tree_of d) = Some (including d) /\
             including d = Some (truthy (get fields k))) /\
  (forall q a, leaf_value q (tree_of d) = Some a ->
               a = including d /\
               exists k, In k (working_keys fields) /\ split dot k = q) /\
  (including d = None <-> keys fields = []).
Proof.
  intros Hnd Hproto Hd.
  destruct (@pathsToTree_free _ (fun _ : string => including d)
              (working_keys fields))
    as (root & Hroot & Hin & Hout).
  - now apply working_keys_NoDup.
  - eapply details_prefix_free; eassumption.
  - exact Hproto.
  - specialize (Hroot projection_conflict).
    rewrite (details_tree _ Hd) in Hroot. injection Hroot as <-.
    split; [|split].
    + intros k Hk. split; [now apply Hin | now apply details_uniform].
    + intros q a Ha. destruct (Hout _ _ Ha) as (k & Hk & E & ->). eauto.
    + split.
      * intros Hnone. apply working_keys_nil; [assumption|].
        destruct (working_keys fields) as [|k ks] eqn:E; [reflexivity|].
        rewrite (@details_uniform fields d k) in Hnone by (try rewrite E; simpl; auto).
        discriminate.
      * intros Hk. apply details_mode in Hd.
        unfold working_keys in Hd. rewrite Hk in Hd. simpl in Hd.
        now injection Hd.
Qed.

Lemma rule_tree_leaves_witness :
  exists d,
    projectionDetails (VObj [("b", VNum 1); ("a.c", VNum 1)]) = Ok d /\
    leaf_value ["a"; "c"] (tree_of d) = Some (Some true).
Proof.
  pose (fields := VObj [("b", VNum 1); ("a.c", VNum 1)]).
  assert (Hnd : NoDup (keys fields)).
  { simpl. constructor; [simpl; intros [H|[]]; discriminate|].
    constructor; [simpl; tauto | constructor]. }
  assert (Hproto : proto_free (working_keys fields)).
  { intros k [<-|[<-|[]]]; unfold proto_segment; simpl;
      intuition discriminate. }
  destruct (projectionDetails fields) as [d|e] eqn:Hd; [|discriminate].
  exists d. split; [exact Hd|].
  destruct (rule_tree_leaves fields Hnd Hproto Hd) as (H & _ & _).
  destruct (H "a.c") as [Hv Hi]; [simpl; auto|].
  rewrite Hi in Hv. exact Hv.
Defined.

Lemma compile_succeeds props :
  NoDup (keys_of props) ->
  numeric_length (VObj props) = false ->
  proto_free (working_keys (VObj props)) ->
  Forall accepted props ->
  (forall k1 k2,
      In k1 (working_keys (VObj props)) -> In k2 (working_keys (VObj props)) ->
      truthy (get (VObj props) k1) = truthy (get (VObj props) k2)) ->
  prefix_free (working_keys (VObj props)) ->
  exists f, _compileProjection (VObj props) = Ok f.
Proof.
  intros Hnd Hlen Hproto Hacc Hmode Hpf. set (fields := VObj props) in *.
  destruct (mode_uniform fields (working_keys fields) Hmode) as [inc Hinc].
  destruct (@pathsToTree_free _ (fun _ : string => inc)
              (working_keys fields))
    as (root & Hroot & _).
  - now apply working_keys_NoDup.
  - assumption.
  - assumption.
  - eexists. unfold _compileProjection.
    apply (@check_accepted props Hlen) in Hacc. fold fields in Hacc.
    rewrite Hacc.
    cbn [bind]. unfold projectionDetails. rewrite Hinc. cbn [bind].
    rewrite Hroot. cbn [bind]. reflexivity.
Qed.

(** X3.  For a specification whose [length] is no number and whose
    working keys have no segment [__proto__]: [_compileProjection]
    returns a function exactly when every property of the specification
    passes validation, the working keys agree in truthiness and no
    working key is a strict dot-prefix of another. *)
Theorem compile_succeeds_iff props :
  NoDup (keys_of props) ->
  let fields := VObj props in
  numeric_length fields = false ->
  proto_free (working_keys fields) ->
  (exists f, _compileProjection fields = Ok f) <->
  Forall accepted props /\
  (forall k1 k2,
      In k1 (working_keys fields) -> In k2 (working_keys fields) ->
      truthy (get fields k1) = truthy (get fields k2)) /\
  prefix_free (working_keys fields).
Proof.
  intros Hnd fields Hlen Hproto. split.
  - intros [f Hf]. apply compile_inv in Hf as (Hc & d & Hd & _).
    split; [now apply (@check_accepted props Hlen)|]. split.
    + intros k1 k2 H1 H2.
      pose proof (@details_uniform _ _ _ Hd H1) as E1.
      pose proof (@details_uniform _ _ _ Hd H2) as E2.
      congruence.
    + eapply details_prefix_free; eassumption.
  - intros (Hacc & Hmode & Hpf). now apply compile_succeeds.
Qed.

Lemma compile_succeeds_iff_witness :
  exists f, _compileProjection (VObj [("b", VNum 1); ("a.c", VNum 1)]) = Ok f.
Proof.
  apply (@compile_succeeds_iff [("b", VNum 1); ("a.c", VNum 1)]).
  - simpl. constructor; [simpl; intros [H|[]]; discriminate|].
    constructor; [simpl; tauto | constructor].
  - reflexivity.
  - intros k [<-|[<-|[]]]; unfold proto_segment; simpl;
      intuition discriminate.
  - split; [|split].
    + repeat constructor; simpl; try (intros [H|[H|[]]]; discriminate);
        try (intros [H|[]]; discriminate); auto.
    + simpl. intros k1 k2 [<-|[<-|[]]] [<-|[<-|[]]]; reflexivity.
    + simpl. intros p q [<-|[<-|[]]] [<-|[<-|[]]] (suffix & Hne & E);
        simpl in E; destruct suffix; try discriminate; now apply Hne.
Defined.

(** ** The fields a projection keeps and the fields it drops *)

(** A walk that ends well takes no leaf out of the tree. *)
Lemma walk_keeps_leaves newLeafFn keyPath lastKey inner :
  forall seen treePos treePos',
    walk newLeafFn projection_conflict keyPath lastKey seen inner treePos
    = Ok treePos' ->
    forall q, leaf_at q treePos -> leaf_at q treePos'.
Proof.
  induction inner as [|key rest IH]; intros seen treePos treePos'; simpl.
  - destruct (assoc_get lastKey treePos) as [old|] eqn:E; [discriminate|].
    intros [= <-] [|k r] Hq; [contradiction|].
    destruct (tree_assign_cases lastKey (Leaf (newLeafFn keyPath)) treePos)
      as [-> | ->]; [assumption|].
    destruct (String.eqb_spec k lastKey) as [->|Hne].
    + simpl in Hq. now rewrite E in Hq.
    + now rewrite leaf_at_set_other.
  - destruct (assoc_get key treePos) as [[a|children]|] eqn:E.
    + discriminate.
    + destruct (walk _ _ _ _ _ rest children) as [sub|e] eqn:W;
        [|discriminate].
      cbn [bind]. rewrite (@tree_assign_own _ _ _ _ _ E).
      intros [= <-] [|k r] Hq; [contradiction|].
      destruct (String.eqb_spec k key) as [->|Hne].
      * rewrite leaf_at_set_same. simpl in Hq. rewrite E in Hq.
        exact (IH _ _ _ W _ Hq).
      * now rewrite leaf_at_set_other.
    + destruct (walk _ _ _ _ _ rest []) as [sub|e] eqn:W; [|discriminate].
      cbn [bind]. intros [= <-] [|k r] Hq; [contradiction|].
      destruct (tree_assign_cases key (Node sub) treePos) as [-> | ->];
        [assumption|].
      destruct (String.eqb_spec k key) as [->|Hne].
      * simpl in Hq. now rewrite E in Hq.
      * now rewrite leaf_at_set_other.
Qed.

Lemma paths_loop_keeps_leaves newLeafFn paths :
  forall root root',
    pathsToTree newLeafFn projection_conflict paths root = Ok root' ->
    forall q, leaf_at q root -> leaf_at q root'.
Proof.
  induction paths as [|k paths IH]; intros root root'; unfold pathsToTree;
    cbn [each].
  - now intros [= <-].
  - destruct (add_path_walk newLeafFn root k) as [Ha _]. rewrite Ha.
    destruct (walk _ _ _ _ _ _ root) as [root1|e] eqn:W; [|discriminate].
    cbn [bind]. intros Hloop q Hq.
    apply (IH _ _ Hloop). exact (walk_keeps_leaves _ _ _ _ _ _ W _ Hq).
Qed.

(** Every path without a segment [__proto__] ends on a leaf of the tree
    the loop returns. *)
Lemma paths_loop_leaves newLeafFn paths :
  forall root root' k,
    pathsToTree newLeafFn projection_conflict paths root = Ok root' ->
    In k paths -> ~ proto_segment k ->
    leaf_at (split dot k) root'.
Proof.
  induction paths as [|p paths IH]; intros root root' k; unfold pathsToTree;
    cbn [each]; [intros _ []|].
  destruct (add_path_walk newLeafFn root p) as [Ha Hsplit]. rewrite Ha.
  destruct (walk _ _ _ _ _ _ root) as [root1|e] eqn:W; [|discriminate].
  cbn [bind]. intros Hloop [->|Hk] Hproto.
  - apply (paths_loop_keeps_leaves _ _ _ Hloop).
    assert (Hk : ~ In "__proto__"
                      (removelast (split dot k)
                       ++ [last (split dot k) ""])%list)
      by now rewrite Hsplit.
    destruct (walk_ok _ _ _ _ _ _ Hk W) as [Wl _]. rewrite Hsplit in Wl.
    apply Wl. now right.
  - exact (IH _ _ _ Hloop Hk Hproto).
Qed.

Lemma details_leaf fields d k :
  projectionDetails fields = Ok d -> In k (working_keys fields) ->
  ~ proto_segment k ->
  leaf_at (split dot k) (tree_of d).
Proof.
  intros Hd Hk Hproto.
  exact (paths_loop_leaves _ _ _ _ (details_tree _ Hd) Hk Hproto).
Qed.

Lemma get_path_undefined segs : get_path VUndefined segs = VUndefined.
Proof. induction segs as [|key rest IH]; [reflexivity | exact IH]. Qed.

Lemma get_path_scalar v segs :
  isObject v = false -> is_str v = false -> segs <> [] ->
  get_path v segs = VUndefined.
Proof.
  intros Ho Hs Hne. destruct segs as [|key rest]; [contradiction|].
  simpl. replace (get v key) with VUndefined
    by (destruct v; try discriminate; reflexivity).
  apply get_path_undefined.
Qed.

Lemma has_scalar v key :
  is_obj v = false -> _isArray v = false -> is_str v = false ->
  has v key = false.
Proof. destruct v; try discriminate; reflexivity. Qed.

Lemma get_absent doc key : has doc key = false -> get doc key = VUndefined.
Proof.
  unfold has, get. intros H. apply assoc_has_false in H. now rewrite H.
Qed.

Lemma leaf_at_not_nil (A : Type) segs (children : list (string * tree A)) :
  leaf_at segs children -> segs <> [].
Proof. destruct segs; [contradiction | discriminate]. Qed.

(** An inclusive transform keeps the value at the end of every path of
    its rule tree. *)
Lemma transform_keeps_path d :
  is_including d = true ->
  forall segs children doc,
    wf_tree (Node children) -> leaf_at segs children ->
    plain_path doc segs ->
    get_path (transform d doc (Node children)) segs = get_path doc segs.
Proof.
  intros Hinc. induction segs as [|key rest IH]; intros children doc Hwf Hl Hp.
  - contradiction.
  - destruct Hp as (Harr & Hstr & Hp).
    inversion Hwf as [|? Hnd Hall]; subst.
    cbn [leaf_at] in Hl. cbn [get_path].
    destruct (assoc_get key children) as [rule|] eqn:Er; [|contradiction].
    pose proof (assoc_get_In _ _ Er) as Hin.
    unfold get at 1.
    rewrite (@transform_inclusive_lookup d doc children key rule
               Hinc Harr Hnd Hin), pick_lookup.
    unfold get in Hp |- *.
    destruct (assoc_get key (own_props doc)) as [v|]; [|reflexivity].
    destruct rule as [a|sub].
    + subst rest. cbn [option_map snd get_path]. apply clone_id.
    + destruct (isObject v) eqn:Eo; cbn [option_map snd].
      * apply IH; try assumption. eapply wf_node_get; eassumption.
      * rewrite get_path_undefined. symmetry.
        apply get_path_scalar; try assumption.
        -- destruct rest; [contradiction | apply Hp].
        -- eapply leaf_at_not_nil; eassumption.
Qed.

(** An exclusive transform leaves nothing at the end of a path of its
    rule tree. *)
Lemma transform_removes_path d :
  is_including d = false ->
  forall segs children doc,
    wf_tree (Node children) -> leaf_at segs children ->
    plain_path doc segs ->
    get_path (transform d doc (Node children)) segs = VUndefined.
Proof.
  intros Hinc. induction segs as [|key rest IH]; intros children doc Hwf Hl Hp.
  - contradiction.
  - destruct Hp as (Harr & Hstr & Hp).
    inversion Hwf as [|? Hnd Hall]; subst.
    cbn [leaf_at] in Hl. cbn [get_path].
    destruct (assoc_get key children) as [rule|] eqn:Er; [|contradiction].
    pose proof (assoc_get_In _ _ Er) as Hin.
    unfold get at 1. rewrite transform_node by assumption.
    rewrite (@fold_rule_step_same d _ doc children _ key rule Hnd Hin).
    unfold after_rule, initial_result. rewrite Hinc, clone_id.
    destruct (has doc key) eqn:Eh; cbn [negb].
    + assert (Hobj : is_obj doc = true).
      { destruct (is_obj doc) eqn:E; [reflexivity|].
        now rewrite has_scalar in Eh. }
      rewrite Hobj. destruct rule as [a|sub].
      * apply get_path_undefined.
      * destruct (isObject (get doc key)) eqn:Eo.
        -- apply IH; try assumption. eapply wf_node_get; eassumption.
        -- fold (get doc key). apply get_path_scalar; try assumption.
           ++ destruct rest; [contradiction | apply Hp].
           ++ eapply leaf_at_not_nil; eassumption.
    + fold (get doc key). rewrite get_absent by assumption.
      apply get_path_undefined.
Qed.

Lemma compiled_get_other idp d doc key :
  key <> "_id" ->
  get (compiled idp d doc) key = get (transform d doc (Node (tree_of d))) key.
Proof.
  intros Hne. unfold compiled, get.
  destruct (truthy idp && has doc "_id"); cbn [negb].
  - match goal with |- context [if ?c then _ else _] => destruct c end;
      rewrite ?own_delete_other, ?own_set_other by assumption; reflexivity.
  - match goal with |- context [if ?c then _ else _] => destruct c end;
      rewrite ?own_delete_other by assumption; reflexivity.
Qed.

Lemma compiled_lookup_other idp d doc key :
  key <> "_id" ->
  assoc_get key (own_props (compiled idp d doc)) =
  assoc_get key (own_props (transform d doc (Node (tree_of d)))).
Proof.
  intros Hne. unfold compiled.
  destruct (truthy idp && has doc "_id"); cbn [negb].
  - match goal with |- context [if ?c then _ else _] => destruct c end;
      rewrite ?own_delete_other, ?own_set_other by assumption; reflexivity.
  - match goal with |- context [if ?c then _ else _] => destruct c end;
      rewrite ?own_delete_other by assumption; reflexivity.
Qed.

(** A key the document does not have is not in the result of
    [transform]. *)
Lemma transform_absent d children doc key :
  NoDup (keys_of children) -> _isArray doc = false ->
  has doc key = false ->
  assoc_get key (own_props (transform d doc (Node children))) = None.
Proof.
  intros Hnd Harr Hh. rewrite transform_node by assumption.
  assert (Hinit : assoc_get key (own_props (initial_result d doc)) = None).
  { unfold initial_result. destruct (is_including d); [reflexivity|].
    rewrite clone_id. now apply assoc_has_false. }
  destruct (assoc_get key children) as [rule|] eqn:Er.
  - apply assoc_get_In in Er.
    rewrite (@fold_rule_step_same d _ doc children _ key rule Hnd Er).
    unfold after_rule. rewrite Hh. exact Hinit.
  - rewrite fold_rule_step_other; [exact Hinit|].
    now apply assoc_get_None.
Qed.

Lemma compiled_id_forced idp d doc :
  truthy idp = true -> wf_tree (Node (tree_of d)) -> _isArray doc = false ->
  get (compiled idp d doc) "_id" = get doc "_id".
Proof.
  intros Ht Hwf Harr. inversion Hwf as [|? Hnd _]; subst.
  destruct (has doc "_id") eqn:Eh.
  - pose proof (has_id_object _ Eh) as Ho.
    destruct doc; try discriminate. now apply compiled_forces_id.
  - unfold compiled. rewrite Ht, Eh. cbn [andb negb].
    unfold get. rewrite transform_absent by assumption.
    apply assoc_has_false in Eh. now rewrite Eh.
Qed.

Lemma compiled_id_removed idp d doc :
  truthy idp = false -> get (compiled idp d doc) "_id" = VUndefined.
Proof.
  intros Ht. unfold compiled. rewrite Ht. cbn [andb negb].
  destruct (has (transform d doc (Node (tree_of d))) "_id") eqn:Eh.
  - unfold get. rewrite own_delete_same.
    now rewrite (has_id_object _ Eh).
  - now apply get_absent.
Qed.

(** X4.  An inclusive projection keeps what the document holds at the
    end of every listed path that has no segment [__proto__], when the
    path indexes no array and no string of the document; a path under
    [_id] is kept as long as the identifier is not excluded. *)
Theorem inclusive_keeps_listed_paths fields f d k doc :
  _compileProjection fields = Ok f ->
  projectionDetails fields = Ok d ->
  including d = Some true ->
  In k (working_keys fields) ->
  ~ proto_segment k ->
  truthy (id_projection fields) = true \/ hd "" (split dot k) <> "_id" ->
  plain_path doc (split dot k) ->
  get_path (f doc) (split dot k) = get_path doc (split dot k).
Proof.
  intros Hf Hd Hinc Hk Hproto Hid Hp.
  apply compile_inv in Hf as (_ & d' & Hd' & ->).
  rewrite Hd in Hd'. injection Hd' as <-.
  assert (Hi : is_including d = true) by (unfold is_including; now rewrite Hinc).
  pose proof (details_wf _ Hd) as Hwf.
  pose proof (@details_leaf _ _ _ Hd Hk Hproto) as Hl.
  destruct (split dot k) as [|key rest] eqn:Es; [contradiction|].
  destruct (string_dec key "_id") as [->|Hne].
  - destruct Hid as [Ht|Hne]; [|now contradiction Hne].
    cbn [get_path]. rewrite compiled_id_forced; auto. apply Hp.
  - cbn [get_path]. rewrite compiled_get_other by assumption.
    now apply (@transform_keeps_path d Hi (key :: rest)).
Qed.

Lemma inclusive_keeps_listed_paths_witness :
  let doc := VObj [("a", VObj [("b", VNum 7); ("c", VNum 8)]); ("d", VNum 9)] in
  exists f,
    _compileProjection (VObj [("a.b", VNum 1)]) = Ok f /\
    f doc = VObj [("a", VObj [("b", VNum 7)])] /\
    get_path (f doc) ["a"; "b"] = VNum 7.
Proof.
  intros doc.
  pose (d := {| tree_of := [("a", Node [("b", Leaf (Some true))])];
                including := Some true |}).
  exists (compiled (VBool true) d).
  split; [reflexivity|]. split; [reflexivity|].
  apply (@inclusive_keeps_listed_paths (VObj [("a.b", VNum 1)])
           (compiled (VBool true) d) d "a.b" doc).
  - reflexivity.
  - reflexivity.
  - reflexivity.
  - simpl. now left.
  - unfold proto_segment. simpl. intuition discriminate.
  - now left.
  - simpl. auto.
Defined.

(** X5.  An exclusive projection leaves nothing at the end of a listed
    path that has no segment [__proto__], when the path indexes no array
    and no string of the document.  A path under [_id] is an exception
    unless [_id] itself is excluded: the closure puts the whole [_id] of
    the document back. *)
Theorem exclusive_removes_listed_paths fields f d k doc :
  _compileProjection fields = Ok f ->
  projectionDetails fields = Ok d ->
  including d = Some false ->
  In k (working_keys fields) ->
  ~ proto_segment k ->
  truthy (id_projection fields) = false \/ hd "" (split dot k) <> "_id" ->
  plain_path doc (split dot k) ->
  get_path (f doc) (split dot k) = VUndefined.
Proof.
  intros Hf Hd Hinc Hk Hproto Hid Hp.
  apply compile_inv in Hf as (_ & d' & Hd' & ->).
  rewrite Hd in Hd'. injection Hd' as <-.
  assert (Hi : is_including d = false) by (unfold is_including; now rewrite Hinc).
  pose proof (details_wf _ Hd) as Hwf.
  pose proof (@details_leaf _ _ _ Hd Hk Hproto) as Hl.
  destruct (split dot k) as [|key rest] eqn:Es; [contradiction|].
  destruct (string_dec key "_id") as [->|Hne].
  - destruct Hid as [Ht|Hne]; [|now contradiction Hne].
    cbn [get_path]. rewrite compiled_id_removed by assumption.
    apply get_path_undefined.
  - cbn [get_path]. rewrite compiled_get_other by assumption.
    now apply (@transform_removes_path d Hi (key :: rest)).
Qed.

Lemma exclusive_removes_listed_paths_witness :
  let doc := VObj [("a", VObj [("b", VNum 7); ("c", VNum 8)]); ("d", VNum 9)] in
  exists f,
    _compileProjection (VObj [("a.b", VNum 0)]) = Ok f /\
    f doc = VObj [("a", VObj [("c", VNum 8)]); ("d", VNum 9)] /\
    get_path (f doc) ["a"; "b"] = VUndefined.
Proof.
  intros doc.
  pose (d := {| tree_of := [("a", Node [("b", Leaf (Some false))])];
                including := Some false |}).
  exists (compiled (VBool true) d).
  split; [reflexivity|]. split; [reflexivity|].
  apply (@exclusive_removes_listed_paths (VObj [("a.b", VNum 0)])
           (compiled (VBool true) d) d "a.b" doc).
  - reflexivity.
  - reflexivity.
  - reflexivity.
  - simpl. now left.
  - unfold proto_segment. simpl. intuition discriminate.
  - right. simpl. discriminate.
  - simpl. auto.
Defined.

Lemma details_root_keys fields d k :
  projectionDetails fields = Ok d -> In k (keys_of (tree_of d)) ->
  exists p, In p (working_keys fields) /\ hd "" (split dot p) = k.
Proof.
  intros Hd Hk.
  destruct (pathsToTree_root_keys _ _ _ _ (details_tree _ Hd) _ Hk)
    as [[]|H]; exact H.
Qed.

(** X6.  A top-level field other than [_id] that is the first segment of
    no working key: an inclusive projection drops it, an exclusive
    projection keeps it with its value. *)
Theorem unlisted_fields fields f d doc k :
  _compileProjection fields = Ok f ->
  projectionDetails fields = Ok d ->
  _isArray doc = false ->
  k <> "_id" ->
  (forall p, In p (working_keys fields) -> hd "" (split dot p) <> k) ->
  (including d = Some true -> has (f doc) k = false) /\
  (is_including d = false ->
   has (f doc) k = has doc k /\ get (f doc) k = get doc k).
Proof.
  intros Hf Hd Harr Hne Hun.
  apply compile_inv in Hf as (_ & d' & Hd' & ->).
  rewrite Hd in Hd'. injection Hd' as <-.
  assert (Hk : ~ In k (keys_of (tree_of d))).
  { intros Hin. destruct (@details_root_keys _ _ _ Hd Hin) as (p & Hp & E).
    now apply (Hun p). }
  pose proof (details_wf _ Hd) as Hwf.
  inversion Hwf as [|? Hnd _]; subst.
  unfold has, get, assoc_has.
  rewrite compiled_lookup_other by assumption.
  rewrite transform_node by assumption.
  rewrite fold_rule_step_other by assumption.
  unfold initial_result, is_including. split.
  - intros ->. reflexivity.
  - intros ->. now rewrite clone_id.
Qed.

Lemma unlisted_fields_witness :
  let doc := VObj [("a", VNum 1); ("b", VNum 2)] in
  (exists f, _compileProjection (VObj [("a", VNum 1)]) = Ok f /\
             has (f doc) "b" = false) /\
  (exists f, _compileProjection (VObj [("a", VNum 0)]) = Ok f /\
             get (f doc) "b" = VNum 2).
Proof.
  intros doc. split.
  - pose (d := {| tree_of := [("a", Leaf (Some true))];
                  including := Some true |}).
    exists (compiled (VBool true) d). split; [reflexivity|].
    apply (@unlisted_fields (VObj [("a", VNum 1)]) _ d doc "b");
      try reflexivity; try discriminate.
    simpl. intros p [<-|[]]. discriminate.
  - pose (d := {| tree_of := [("a", Leaf (Some false))];
                  including := Some false |}).
    exists (compiled (VBool true) d). split; [reflexivity|].
    apply (@unlisted_fields (VObj [("a", VNum 0)]) _ d doc "b");
      try reflexivity; try discriminate.
    simpl. intros p [<-|[]]. discriminate.
Defined.

Lemma keys_of_indexed (A B : Type) (l : list A) (l' : list B) :
  List.length l = List.length l' ->
  forall i, keys_of (indexed i l) = keys_of (indexed i l').
Proof.
  revert l'. induction l as [|a l IH]; intros [|b l'] E i;
    try discriminate; [reflexivity|].
  simpl. f_equal. apply IH. now injection E.
Qed.

Lemma assoc_has_keys (A B : Type) k (l : list (string * A))
      (l' : list (string * B)) :
  keys_of l = keys_of l' -> assoc_has k l = assoc_has k l'.
Proof.
  revert l'. induction l as [|[k1 a] l IH]; intros [|[k2 b] l'] E;
    try discriminate; [reflexivity|].
  simpl in E. injection E as -> E. unfold assoc_has in *. simpl.
  destruct (String.eqb k k2); [reflexivity | now apply IH].
Qed.

Lemma has_array elems elems' k :
  List.length elems = List.length elems' ->
  has (VArr elems) k = has (VArr elems') k.
Proof.
  intros E. unfold has. apply assoc_has_keys. simpl.
  unfold keys_of. rewrite !map_app. simpl. f_equal.
  now apply keys_of_indexed.
Qed.

(** X7.  The result of a compiled projection has no own property that
    its argument does not have, whatever the argument is. *)
Theorem projection_adds_no_key fields f doc k :
  _compileProjection fields = Ok f ->
  has (f doc) k = true -> has doc k = true.
Proof.
  intros Hf. apply compile_inv in Hf as (_ & d & Hd & ->).
  pose proof (details_wf _ Hd) as Hwf.
  inversion Hwf as [|? Hnd _]; subst.
  destruct (_isArray doc) eqn:Harr.
  - destruct doc; try discriminate. rewrite compiled_array.
    intros H. rewrite <- H. apply has_array. now rewrite length_map.
  - destruct (has doc k) eqn:Eh; [reflexivity|]. intros H. rewrite <- H.
    symmetry. unfold has at 1, assoc_has.
    destruct (string_dec k "_id") as [->|Hne].
    + unfold compiled. rewrite Eh, andb_false_r.
      destruct (negb _ && has _ "_id") eqn:Ec.
      * rewrite own_delete_same.
        apply andb_prop in Ec as [_ Ec].
        now rewrite (has_id_object _ Ec).
      * now rewrite transform_absent.
    + rewrite compiled_lookup_other by assumption.
      now rewrite transform_absent.
Qed.

Lemma projection_adds_no_key_witness :
  exists f,
    _compileProjection (VObj [("a", VNum 1)]) = Ok f /\
    has (VObj [("_id", VNum 5); ("a", VNum 1); ("b", VNum 2)]) "a" = true.
Proof.
  pose (d := {| tree_of := [("a", Leaf (Some true))];
                including := Some true |}).
  exists (compiled (VBool true) d). split; [reflexivity|].
  apply (@projection_adds_no_key (VObj [("a", VNum 1)])
           (compiled (VBool true) d)); reflexivity.
Defined.

(** ** The exclusive transform, property by property *)

Section exclusive.
Variable d : details.
Variable recur : tree (option bool) -> value -> value.
Hypothesis Hexcl : is_including d = false.

Lemma keep_key children kv e : keep recur children kv = Some e -> fst e = fst kv.
Proof.
  destruct kv as [key v]. unfold keep.
  destruct (assoc_get key children) as [[a|sub]|]; intros [= <-]; reflexivity.
Qed.

Lemma keep_nil props : collect (keep recur []) props = props.
Proof.
  induction props as [|[k v] l IH]; [reflexivity|]. simpl. now rewrite IH.
Qed.

Lemma keys_collect_keep children props k :
  In k (keys_of (collect (keep recur children) props)) -> In k (keys_of props).
Proof.
  induction props as [|kv l IH]; simpl; [tauto|].
  destruct (keep recur children kv) as [e|] eqn:E; simpl.
  - apply keep_key in E. rewrite E. tauto.
  - tauto.
Qed.

Lemma NoDup_collect_keep children props :
  NoDup (keys_of props) -> NoDup (keys_of (collect (keep recur children) props)).
Proof.
  induction props as [|kv l IH]; simpl; [constructor|].
  intros Hnd. inversion Hnd as [|? ? Hin Hnd']; subst.
  destruct (keep recur children kv) as [e|] eqn:E; simpl; [|auto].
  constructor; [|auto].
  apply keep_key in E. rewrite E. intros H. apply Hin.
  eapply keys_collect_keep; eassumption.
Qed.

Lemma keep_later done key rule kv :
  fst kv <> key ->
  keep recur (done ++ [(key, rule)]) kv = keep recur done kv.
Proof.
  destruct kv as [k v]. simpl. intros Hne. unfold keep.
  rewrite assoc_get_app. simpl.
  apply String.eqb_neq in Hne. rewrite Hne.
  destruct (assoc_get k done); reflexivity.
Qed.

Lemma keep_new done key rule v :
  assoc_get key done = None ->
  keep recur (done ++ [(key, rule)]) (key, v) =
  match rule with
  | Leaf _ => None
  | Node _ => Some (key, if isObject v then recur rule v else v)
  end.
Proof.
  intros Hdone. unfold keep. rewrite assoc_get_app, Hdone. simpl.
  rewrite String.eqb_refl. destruct rule; reflexivity.
Qed.

Lemma keep_none done key v :
  assoc_get key done = None -> keep recur done (key, v) = Some (key, v).
Proof. intros Hdone. unfold keep. now rewrite Hdone. Qed.

(** One rule of the loop, on the properties kept so far. *)
Lemma keep_step done key rule props v :
  NoDup (keys_of props) ->
  assoc_get key props = Some v -> assoc_get key done = None ->
  collect (keep recur (done ++ [(key, rule)])) props =
  match rule with
  | Leaf _ => assoc_del key (collect (keep recur done) props)
  | Node _ =>
      if isObject v
      then assoc_set key (recur rule v) (collect (keep recur done) props)
      else collect (keep recur done) props
  end.
Proof.
  intros Hnd Hv Hdone.
  induction props as [|[k w] l IH]; [discriminate|].
  inversion Hnd as [|? ? Hin Hnd']; subst. simpl in Hin.
  cbn [collect]. simpl in Hv.
  destruct (String.eqb_spec key k) as [->|Hne].
  - injection Hv as ->.
    assert (Hrest : collect (keep recur (done ++ [(k, rule)])) l
                    = collect (keep recur done) l).
    { apply collect_ext. intros kv Hkv. apply keep_later.
      intros E. apply Hin. rewrite <- E. now apply in_map. }
    rewrite Hrest.
    assert (Hfree : assoc_get k (collect (keep recur done) l) = None).
    { apply assoc_get_None. intros H. apply Hin.
      eapply keys_collect_keep; eassumption. }
    rewrite (@keep_new done k rule v Hdone), (@keep_none done k v Hdone).
    destruct rule as [a|sub].
    + simpl. rewrite String.eqb_refl. now rewrite assoc_del_absent.
    + destruct (isObject v); simpl; now rewrite ?String.eqb_refl.
  - specialize (IH Hnd' Hv).
    rewrite (@keep_later done key rule (k, w)) by (simpl; congruence).
    apply String.eqb_neq in Hne.
    destruct (keep recur done (k, w)) as [[k' w']|] eqn:E.
    + pose proof (keep_key _ _ E) as Hk. simpl in Hk. subst k'.
      rewrite IH. destruct rule as [a|sub].
      * simpl. now rewrite Hne.
      * destruct (isObject v); [|reflexivity]. simpl. now rewrite Hne.
    + exact IH.
Qed.

Lemma fold_exclusive props :
  NoDup (keys_of props) ->
  forall todo done,
    NoDup (keys_of (done ++ todo)) ->
    fold_left (rule_step d recur (VObj props)) todo
              (VObj (collect (keep recur done) props)) =
    VObj (collect (keep recur (done ++ todo)) props).
Proof.
  intros Hnd. induction todo as [|[key rule] todo IH]; intros done Hdt.
  - now rewrite app_nil_r.
  - cbn [fold_left].
    assert (Happ : ((done ++ [(key, rule)]) ++ todo
                    = done ++ (key, rule) :: todo)%list)
      by now rewrite <- app_assoc.
    rewrite <- Happ. rewrite <- IH by (rewrite Happ; assumption).
    f_equal.
    assert (Hdone : assoc_get key done = None).
    { apply assoc_get_None. intros Hin.
      unfold keys_of in Hdt. rewrite map_app in Hdt. simpl in Hdt.
      apply NoDup_remove_2 in Hdt. apply Hdt. apply in_or_app. now left. }
    unfold rule_step. rewrite Hexcl.
    unfold has, get, assoc_has. cbn [own_props].
    destruct (assoc_get key props) as [v|] eqn:Ev; cbn [negb].
    + rewrite (@keep_step done key rule props v) by assumption.
      destruct rule as [a|sub]; [reflexivity|].
      destruct (isObject v); reflexivity.
    + f_equal. apply collect_ext. intros kv Hkv. symmetry. apply keep_later.
      intros E. apply assoc_get_None in Ev. apply Ev.
      rewrite <- E. now apply in_map.
Qed.
End exclusive.

(** The exclusive transform of a document object keeps the properties of
    the document in their order, each as its rule leaves it. *)
Lemma transform_exclusive d props children :
  is_including d = false ->
  NoDup (keys_of props) -> NoDup (keys_of children) ->
  transform d (VObj props) (Node children) =
  VObj (collect (keep (fun rule sub => transform d sub rule) children) props).
Proof.
  intros Hi Hp Hc. rewrite transform_node by reflexivity.
  unfold initial_result. rewrite Hi, clone_id.
  rewrite <- (keep_nil (fun rule sub => transform d sub rule) props) at 2.
  now apply (@fold_exclusive d _ Hi props Hp children []).
Qed.

(** On a value that is neither an array nor a document object the
    exclusive transform changes nothing. *)
Lemma transform_exclusive_scalar d doc ruleTree :
  is_including d = false -> is_obj doc = false -> _isArray doc = false ->
  transform d doc ruleTree = doc.
Proof.
  intros Hi Ho Ha. rewrite transform_rules by assumption.
  unfold initial_result. rewrite Hi, clone_id.
  induction (rules_of ruleTree) as [|[key rule] l IH]; [reflexivity|].
  cbn [fold_left].
  replace (rule_step d _ doc doc (key, rule)) with doc; [exact IH|].
  unfold rule_step. rewrite Hi.
  destruct (negb (has doc key)); [reflexivity|].
  destruct rule; [|destruct (isObject (get doc key))];
    destruct doc; try discriminate; reflexivity.
Qed.

Lemma transform_exclusive_leaf d a :
  is_including d = false -> forall doc, transform d doc (Leaf a) = doc.
Proof.
  intros Hi doc.
  induction doc as [ | | | | | |elems IHe|props _] using value_nested_ind;
    try (rewrite transform_leaf by reflexivity;
         unfold initial_result; rewrite Hi; apply clone_id).
  rewrite transform_array. f_equal.
  induction IHe as [|x l Hx _ IH]; [reflexivity|]. simpl. now rewrite Hx, IH.
Qed.

Lemma transform_exclusive_isObject d doc ruleTree :
  is_including d = false ->
  isObject (transform d doc ruleTree) = isObject doc.
Proof.
  intros Hi. destruct doc as [ | | | | | |elems|props];
    try (rewrite transform_exclusive_scalar by (assumption || reflexivity);
         reflexivity).
  - now rewrite transform_array.
  - pose proof (transform_object_is_obj d props ruleTree) as H.
    destruct (transform d (VObj props) ruleTree); try discriminate. reflexivity.
Qed.

Lemma collect_keep_again recur children props :
  (forall kv e, In kv props -> keep recur children kv = Some e ->
                keep recur children e = Some e) ->
  collect (keep recur children) (collect (keep recur children) props)
  = collect (keep recur children) props.
Proof.
  induction props as [|kv l IH]; intros H; [reflexivity|].
  cbn [collect].
  destruct (keep recur children kv) as [e|] eqn:E.
  - cbn [collect]. rewrite (H kv e) by (auto; now left).
    f_equal. apply IH. intros kv' e' Hin. apply H. now right.
  - apply IH. intros kv' e' Hin. apply H. now right.
Qed.

(** The recursive pass of an exclusive projection is idempotent. *)
Lemma transform_exclusive_idempotent d ruleTree :
  is_including d = false -> wf_tree ruleTree ->
  forall doc, wf_value doc ->
    transform d (transform d doc ruleTree) ruleTree = transform d doc ruleTree.
Proof.
  intros Hi.
  induction ruleTree as [a|children IH] using tree_nested_ind; intros Hwf doc.
  - intros _. now rewrite !transform_exclusive_leaf.
  - inversion Hwf as [|? Hnd Hall]; subst.
    induction doc as [ | | | | | |elems IHe|props _] using value_nested_ind;
      intros Hd;
      try (match goal with
           | |- _ = transform d ?x _ =>
               rewrite !(@transform_exclusive_scalar d x (Node children))
                 by (assumption || reflexivity)
           end; reflexivity).
    + rewrite !transform_array. f_equal.
      apply (map_idem (fun subdoc => transform d subdoc (Node children))).
      inversion Hd as [ | | | | | |? Hall'|]; subst.
      rewrite Forall_forall in *. auto.
    + inversion Hd as [ | | | | | | |? Hp Hvals]; subst.
      rewrite (@transform_exclusive d props) by assumption.
      rewrite transform_exclusive
        by (try assumption; now apply NoDup_collect_keep).
      f_equal. apply collect_keep_again.
      intros [k v] e Hin. unfold keep at 1.
      destruct (assoc_get k children) as [[a|sub]|] eqn:Er.
      * discriminate.
      * intros [= <-]. unfold keep. rewrite Er.
        destruct (isObject v) eqn:Eo; [|now rewrite Eo].
        rewrite transform_exclusive_isObject, Eo by assumption.
        do 2 f_equal.
        apply assoc_get_In in Er.
        rewrite Forall_forall in IH, Hall, Hvals.
        apply (IH _ Er); [exact (Hall _ Er) | exact (Hvals _ Hin)].
      * intros [= <-]. unfold keep. now rewrite Er.
Qed.

Lemma assoc_set_set (A : Type) k (a b : A) l :
  assoc_set k a (assoc_set k b l) = assoc_set k a l.
Proof.
  induction l as [|[k1 c] l IH]; simpl.
  - now rewrite String.eqb_refl.
  - destruct (String.eqb k k1) eqn:E; simpl.
    + now rewrite String.eqb_refl.
    + now rewrite E, IH.
Qed.

Lemma keys_assoc_del (A : Type) k k' (l : list (string * A)) :
  In k' (keys_of (assoc_del k l)) -> In k' (keys_of l).
Proof.
  induction l as [|[k1 a] l IH]; simpl; [tauto|].
  destruct (String.eqb k k1); simpl; tauto.
Qed.

Lemma NoDup_assoc_del (A : Type) k (l : list (string * A)) :
  NoDup (keys_of l) -> NoDup (keys_of (assoc_del k l)).
Proof.
  induction l as [|[k1 a] l IH]; simpl; [constructor|].
  intros H. inversion H as [|? ? Hin Hnd]; subst.
  destruct (String.eqb k k1); simpl; [auto|].
  constructor; [|auto]. intros H'. apply Hin.
  eapply keys_assoc_del; eassumption.
Qed.

Section keep_facts.
Variable recur : tree (option bool) -> value -> value.
Variable children : list (string * tree (option bool)).

Lemma keep_some_key k x w e :
  keep recur children (k, x) = Some e ->
  exists w', keep recur children (k, w) = Some (k, w').
Proof.
  unfold keep. destruct (assoc_get k children) as [[a|sub]|];
    [discriminate | eauto | eauto].
Qed.

Lemma keep_none_key k x w :
  keep recur children (k, x) = None -> keep recur children (k, w) = None.
Proof.
  unfold keep. destruct (assoc_get k children) as [[a|sub]|];
    [reflexivity | discriminate | discriminate].
Qed.

Lemma collect_keep_set k x x' l :
  keep recur children (k, x) = Some (k, x') ->
  collect (keep recur children) (assoc_set k x l) =
  assoc_set k x' (collect (keep recur children) l).
Proof.
  intros Hk. induction l as [|[k1 w] l IH].
  - simpl assoc_set. cbn [collect]. now rewrite Hk.
  - cbn [assoc_set]. destruct (String.eqb_spec k k1) as [<-|Hne].
    + destruct (@keep_some_key k x w _ Hk) as [w' Hw].
      cbn [collect]. rewrite Hk, Hw. simpl. now rewrite String.eqb_refl.
    + cbn [collect]. destruct (keep recur children (k1, w)) as [[k2 w']|] eqn:E.
      * pose proof (keep_key _ _ _ E) as H. simpl in H. subst k2.
        rewrite IH. simpl. apply String.eqb_neq in Hne. now rewrite Hne.
      * exact IH.
Qed.

Lemma collect_keep_set_dropped k x l :
  keep recur children (k, x) = None ->
  collect (keep recur children) (assoc_set k x l) =
  collect (keep recur children) l.
Proof.
  intros Hk. induction l as [|[k1 w] l IH].
  - simpl assoc_set. cbn [collect]. now rewrite Hk.
  - cbn [assoc_set]. destruct (String.eqb_spec k k1) as [<-|Hne].
    + cbn [collect]. now rewrite Hk, (@keep_none_key k x w Hk).
    + cbn [collect]. now rewrite IH.
Qed.

Lemma collect_keep_del k l :
  collect (keep recur children) (assoc_del k l) =
  assoc_del k (collect (keep recur children) l).
Proof.
  induction l as [|[k1 w] l IH]; [reflexivity|].
  cbn [assoc_del collect].
  destruct (keep recur children (k1, w)) as [[k2 w']|] eqn:E.
  - pose proof (keep_key _ _ _ E) as H. simpl in H. subst k2.
    cbn [assoc_del]. destruct (String.eqb k k1); [exact IH|].
    cbn [collect]. now rewrite E, IH.
  - destruct (String.eqb k k1); [exact IH|].
    cbn [collect]. now rewrite E.
Qed.
End keep_facts.

Lemma compiled_exclusive_idempotent idp d :
  is_including d = false -> wf_tree (Node (tree_of d)) ->
  forall doc, wf_value doc ->
    compiled idp d (compiled idp d doc) = compiled idp d doc.
Proof.
  intros Hi Hwf doc Hdoc.
  pose proof Hwf as Hwf'. inversion Hwf' as [|? Hnd _]; subst.
  destruct (_isArray doc) eqn:Ea.
  { destruct doc; try discriminate. rewrite !compiled_array. f_equal.
    apply (map_idem (fun subdoc => transform d subdoc (Node (tree_of d)))).
    inversion Hdoc as [ | | | | | |? Hall|]; subst.
    rewrite Forall_forall in *. intros x Hx.
    apply transform_exclusive_idempotent; auto. }
  destruct (is_obj doc) eqn:Eo.
  2:{ assert (Hsame : compiled idp d doc = doc).
      { assert (Hno : has doc "_id" = false).
        { destruct (has doc "_id") eqn:E; [|reflexivity].
          apply has_id_object in E. congruence. }
        unfold compiled. cbv zeta.
        rewrite transform_exclusive_scalar by assumption.
        rewrite Hno, !andb_false_r. cbv iota.
        rewrite Hno, !andb_false_r. reflexivity. }
      now rewrite !Hsame. }
  destruct doc as [ | | | | | | |props]; try discriminate.
  inversion Hdoc as [ | | | | | | |? Hp Hvals]; subst.
  set (recur := fun (rule : tree (option bool)) sub => transform d sub rule).
  pose proof (@transform_exclusive d props (tree_of d) Hi Hp Hnd) as HR.
  fold recur in HR.
  set (L := collect (keep recur (tree_of d)) props) in *.
  assert (HLnd : NoDup (keys_of L)) by now apply NoDup_collect_keep.
  assert (HL : collect (keep recur (tree_of d)) L = L).
  { pose proof (@transform_exclusive_idempotent d (Node (tree_of d)) Hi Hwf
                  (VObj props) Hdoc) as H.
    rewrite HR in H. rewrite transform_exclusive in H by assumption.
    now injection H. }
  destruct (truthy idp) eqn:Et; [destruct (has (VObj props) "_id") eqn:Eh|].
  - assert (HF : compiled idp d (VObj props)
                 = VObj (assoc_set "_id" (get (VObj props) "_id") L)).
    { unfold compiled. rewrite HR, Et, Eh. reflexivity. }
    rewrite HF. set (v0 := get (VObj props) "_id").
    unfold compiled. rewrite Et. cbn [negb andb].
    assert (Hh : has (VObj (assoc_set "_id" v0 L)) "_id" = true)
      by apply has_set_same.
    rewrite Hh.
    rewrite transform_exclusive
      by (try assumption; now apply NoDup_keys_set).
    fold recur.
    change (get (VObj (assoc_set "_id" v0 L)) "_id")
      with (get (set (VObj L) "_id" v0) "_id").
    rewrite get_set_same. cbn [set]. f_equal.
    destruct (keep recur (tree_of d) ("_id", v0)) as [[k' x']|] eqn:Ek.
    + pose proof (keep_key _ _ _ Ek) as H. simpl in H. subst k'.
      rewrite (@collect_keep_set recur (tree_of d) "_id" v0 x' L Ek), HL.
      apply assoc_set_set.
    + now rewrite (@collect_keep_set_dropped recur (tree_of d) "_id" v0 L Ek),
        HL.
  - assert (HF : compiled idp d (VObj props) = VObj L).
    { unfold compiled. rewrite HR, Et, Eh. reflexivity. }
    rewrite HF. unfold compiled. rewrite Et. cbn [negb andb].
    assert (Hno : has (VObj L) "_id" = false).
    { change (assoc_has "_id" L = false).
      apply assoc_has_false, assoc_get_None. intros Hin.
      apply keys_collect_keep in Hin.
      change (assoc_has "_id" props = false) in Eh.
      apply assoc_has_false, assoc_get_None in Eh. contradiction. }
    rewrite Hno. rewrite transform_exclusive by assumption.
    fold recur. now rewrite HL.
  - assert (HF : compiled idp d (VObj props) = VObj (assoc_del "_id" L)).
    { unfold compiled. rewrite HR, Et. cbn [negb andb].
      apply remove_if_present. }
    rewrite HF. unfold compiled. rewrite Et. cbn [negb andb].
    assert (Hdel : NoDup (keys_of (assoc_del "_id" L))).
    { now apply NoDup_assoc_del. }
    rewrite transform_exclusive by assumption.
    fold recur. rewrite remove_if_present. f_equal.
    rewrite collect_keep_del, HL. apply assoc_del_twice.
Qed.

(** X8.  A projection compiled in exclusive mode, or from the empty
    specification, is idempotent on every document whose objects have
    distinct keys. *)
Theorem exclusive_projection_idempotent fields f d :
  _compileProjection fields = Ok f ->
  projectionDetails fields = Ok d ->
  is_including d = false ->
  forall doc, wf_value doc -> f (f doc) = f doc.
Proof.
  intros Hc Hd Hi doc Hdoc.
  destruct (@compile_inv fields f Hc) as (_ & d' & Hd' & ->).
  assert (d' = d) by congruence. subst d'.
  apply compiled_exclusive_idempotent; try assumption.
  eapply details_wf. eassumption.
Qed.

Lemma exclusive_projection_idempotent_witness :
  let doc := VObj [("_id", VStr "x");
                   ("a", VArr [VObj [("b", VNum 1); ("c", VNum 2)]; VNum 3])] in
  exists f, _compileProjection (VObj [("a.b", VNum 0)]) = Ok f /\
            f doc = VObj [("_id", VStr "x");
                          ("a", VArr [VObj [("c", VNum 2)]; VNum 3])] /\
            f (f doc) = f doc.
Proof.
  intros doc.
  pose (d := {| tree_of := [("a", Node [("b", Leaf (Some false))])];
                including := Some false |}).
  exists (compiled (VBool true) d).
  split; [reflexivity|]. split; [reflexivity|].
  apply (@exclusive_projection_idempotent (VObj [("a.b", VNum 0)]) _ d);
    try reflexivity.
  apply wf_obj; simpl.
  - constructor; [simpl; intuition discriminate|].
    constructor; [simpl; tauto | constructor].
  - constructor; [constructor|]. constructor; [|constructor].
    simpl. apply wf_arr. constructor; [|constructor; constructor].
    apply wf_obj; simpl.
    + constructor; [simpl; intuition discriminate|].
      constructor; [simpl; tauto | constructor].
    + repeat constructor.
Defined.

(** ** The identifier among the working keys *)

Lemma sort_singleton l a : sort l = [a] -> l = [a].
Proof.
  intros E. pose proof (sort_perm l) as P. rewrite E in P.
  apply Permutation_length_1_inv in P. exact P.
Qed.

Lemma working_keys_id fields :
  In "_id" (working_keys fields) <->
  keys fields = ["_id"] \/
  (In "_id" (keys fields) /\ truthy (get fields "_id") = true).
Proof.
  - unfold working_keys.
    assert (Hc : contains (sort (keys fields)) "_id" = true
                 <-> In "_id" (keys fields)).
    { rewrite contains_In. apply sort_In. }
    destruct (sort (keys fields)) as [|a [|b l]] eqn:E.
    + cbn [List.length Nat.ltb Nat.leb andb].
      assert (keys fields = []).
      { apply Permutation_nil. rewrite <- E. apply sort_perm. }
      rewrite H. simpl. split; [tauto | intros [H'|[[] _]]; discriminate].
    + apply sort_singleton in E. rewrite E.
      cbn [List.length Nat.ltb Nat.leb Nat.eqb nth andb].
      destruct (String.eqb_spec a "_id") as [->|Hne]; cbn [negb andb].
      * simpl. tauto.
      * rewrite E in Hc.
        assert (Hf : contains [a] "_id" = false).
        { destruct (contains [a] "_id") eqn:C; [|reflexivity].
          destruct (proj1 Hc eq_refl) as [C'|[]]. congruence. }
        rewrite Hf. simpl. apply String.eqb_neq in Hne. rewrite Hne. simpl.
        split; [intros [H|[]]; apply String.eqb_neq in Hne; congruence|].
        intros [[= H]|[[H|[]] _]]; apply String.eqb_neq in Hne; congruence.
    + cbn [List.length Nat.ltb Nat.leb Nat.eqb andb negb].
      assert (Hlen : keys fields <> ["_id"]).
      { intros H. rewrite H in E. discriminate. }
      destruct (contains (a :: b :: l) "_id") eqn:C; cbn [andb].
      * destruct (truthy (get fields "_id")) eqn:T; cbn [negb].
        -- rewrite <- E. rewrite sort_In.
           pose proof (proj1 Hc eq_refl). tauto.
        -- rewrite filter_In. rewrite String.eqb_refl. simpl.
           split; [intros [_ H]; discriminate|].
           intros [H|[_ H]]; [contradiction | discriminate].
      * cbn [negb]. rewrite filter_In. rewrite String.eqb_refl. simpl.
        split; [intros [_ H]; discriminate|].
        intros [H|[H _]]; [contradiction|].
        apply Hc in H. discriminate.
Qed.

(** X9.  The identifier rule of [projectionDetails]: [_id] stays among
    the working keys exactly when it is the only key or is included; every
    other key of the specification is a working key. *)
Theorem working_keys_identifier fields :
  (In "_id" (working_keys fields) <->
   keys fields = ["_id"] \/
   (In "_id" (keys fields) /\ truthy (get fields "_id") = true)) /\
  (forall k, k <> "_id" -> (In k (working_keys fields) <-> In k (keys fields))).
Proof.
  split.
  - apply working_keys_id.
  - intros k Hne. split.
    + apply working_keys_keys.
    + intros H. now apply working_keys_other.
Qed.

(** ** A specification that names the identifier alone *)

(** X10.  A specification that names [_id] alone: [{_id: 0}] and
    [{_id: false}] remove [_id] from a document and keep the rest as it
    is; [{_id: 1}] and [{_id: true}] keep [_id] and nothing else. *)
Theorem identifier_only_projection props :
  let without := Ok (VObj (assoc_del "_id" props)) in
  let only := Ok (match assoc_get "_id" props with
                  | Some x => VObj [("_id", x)]
                  | None => VObj []
                  end) in
  apply_projection (VObj [("_id", VNum 0)]) (VObj props) = without /\
  apply_projection (VObj [("_id", VBool false)]) (VObj props) = without /\
  apply_projection (VObj [("_id", VNum 1)]) (VObj props) = only /\
  apply_projection (VObj [("_id", VBool true)]) (VObj props) = only.
Proof.
  intros without only.
  assert (Hex : forall idp,
             truthy idp = false ->
             compiled idp {| tree_of := [("_id", Leaf (Some false))];
                             including := Some false |} (VObj props)
             = VObj (assoc_del "_id" props)).
  { intros idp Ht. unfold compiled. cbv zeta. rewrite Ht. cbn [andb negb].
    rewrite transform_node by reflexivity. cbn [fold_left tree_of].
    unfold rule_step, initial_result, is_including. cbn [including].
    rewrite clone_id.
    assert (E : (if negb (has (VObj props) "_id") then VObj props
                 else delete (VObj props) "_id")
                = VObj (assoc_del "_id" props)).
    { rewrite <- remove_if_present. now destruct (has (VObj props) "_id"). }
    rewrite E.
    assert (Hno : has (VObj (assoc_del "_id" props)) "_id" = false).
    { change (assoc_has "_id" (assoc_del "_id" props) = false).
      apply assoc_has_false, assoc_get_del_same. }
    now rewrite Hno. }
  assert (Hin : forall idp,
             truthy idp = true ->
             compiled idp {| tree_of := [("_id", Leaf (Some true))];
                             including := Some true |} (VObj props)
             = match assoc_get "_id" props with
               | Some x => VObj [("_id", x)]
               | None => VObj []
               end).
  { intros idp Ht. unfold compiled. cbv zeta. rewrite Ht. cbn [andb negb].
    rewrite transform_node by reflexivity. cbn [fold_left tree_of].
    unfold rule_step, initial_result, is_including. cbn [including].
    rewrite clone_id.
    unfold has, get, assoc_has. cbn [own_props].
    destruct (assoc_get "_id" props) as [x|]; reflexivity. }
  unfold apply_projection, without, only.
  repeat split.
  - change (_compileProjection (VObj [("_id", VNum 0)]))
      with (Ok (compiled (VNum 0) {| tree_of := [("_id", Leaf (Some false))];
                                     including := Some false |})).
    cbn [bind]. now rewrite Hex.
  - change (_compileProjection (VObj [("_id", VBool false)]))
      with (Ok (compiled (VBool false)
                         {| tree_of := [("_id", Leaf (Some false))];
                            including := Some false |})).
    cbn [bind]. now rewrite Hex.
  - change (_compileProjection (VObj [("_id", VNum 1)]))
      with (Ok (compiled (VNum 1) {| tree_of := [("_id", Leaf (Some true))];
                                     including := Some true |})).
    cbn [bind]. now rewrite Hin.
  - change (_compileProjection (VObj [("_id", VBool true)]))
      with (Ok (compiled (VBool true)
                         {| tree_of := [("_id", Leaf (Some true))];
                            including := Some true |})).
    cbn [bind]. now rewrite Hin.
Qed.

(** ** Validation and the errors of compilation *)

(** X11.  Among the values whose [length] is no number,
    [_checkSupportedProjection] accepts exactly the objects other than
    arrays whose keys have no segment equal to ["$"] and whose values are
    among [1], [0], [true] and [false].  An object whose [length] is zero
    it accepts whatever the object holds, and on an object whose [length]
    is a positive number, up to [2^53 - 1], it throws a [TypeError]. *)
Theorem validation_accepts_exactly fields :
  (numeric_length fields = false ->
   (_checkSupportedProjection fields = Ok tt <->
    isObject fields = true /\ _isArray fields = false /\
    Forall accepted (own_props fields))) /\
  (forall props,
      fields = VObj props -> assoc_get "length" props = Some (VNum 0) ->
      _checkSupportedProjection fields = Ok tt) /\
  (forall props n,
      fields = VObj props -> assoc_get "length" props = Some (VNum n) ->
      (0 < n <= MAX_ARRAY_INDEX)%Z ->
      _checkSupportedProjection fields
      = Throw (TypeError "keyPath.split is not a function")).
Proof.
  split; [|split].
  - intros Hlen.
    destruct fields as [ | | | | | |elems|props];
      try (split; [discriminate | intros (H & _); discriminate]).
    + split; [repeat split; constructor | reflexivity].
    + split; [discriminate | intros (_ & H & _); discriminate].
    + rewrite (@check_accepted props Hlen). simpl.
      split; [auto | intros (_ & _ & H); exact H].
  - intros props ->. apply check_length_zero.
  - intros props n ->. apply check_length_positive.
Qed.

Lemma check_loop_throws l e :
  each (fun _ kv => check_entry kv) l tt = Throw e ->
  exists msg, e = MinimongoError msg /\
              In msg [msg_not_object; msg_dollar; msg_operators; msg_value].
Proof.
  induction l as [|kv l IH]; cbn [each]; [discriminate|].
  destruct (check_entry_cases kv) as [[_ ->]|[_ (msg & -> & Hm)]]; cbn [bind].
  - exact IH.
  - intros [= <-]. exists msg. split; [reflexivity|].
    destruct Hm as [ -> | [ -> | -> ] ]; cbn [In]; auto.
Qed.

Lemma check_throws fields e :
  _checkSupportedProjection fields = Throw e ->
  (exists msg, e = MinimongoError msg /\
               In msg [msg_not_object; msg_dollar; msg_operators; msg_value])
  \/
  (e = TypeError "keyPath.split is not a function" /\
   positive_length fields = true).
Proof.
  unfold _checkSupportedProjection.
  destruct (negb (isObject fields) || _isArray fields).
  { intros [= <-]. left. eexists. split; [reflexivity | now left]. }
  destruct (array_like_length fields) as [n|] eqn:Hlen.
  - destruct (array_like_inv _ Hlen) as (props & -> & E & Hn).
    destruct (Z.eq_dec n 0) as [->|Hne].
    + now rewrite visited_empty.
    + assert (Hpos : (0 < n <= MAX_ARRAY_INDEX)%Z) by lia.
      destruct (visited_index _ E Hpos) as [rest ->]. cbn [each].
      intros [= <-]. right. split; [reflexivity|].
      unfold positive_length. rewrite E. apply Z.ltb_lt. lia.
  - rewrite visited_named by assumption. rewrite check_loop_named.
    intros H. left. now apply check_loop_throws in H.
Qed.

Lemma mode_throws fields ks inc e :
  each (mode_step fields) ks inc = Throw e -> e = MinimongoError msg_mixed.
Proof.
  revert inc. induction ks as [|k ks IH]; intros inc; cbn [each];
    [discriminate|].
  unfold mode_step at 1.
  destruct (match inc with Some _ => inc | None => _ end) as [b|];
    [destruct (Bool.eqb b _)|]; cbn [bind].
  - apply IH.
  - now intros [= <-].
  - apply IH.
Qed.

Lemma paths_throws newLeafFn paths :
  forall root e,
    pathsToTree newLeafFn projection_conflict paths root = Throw e ->
    exists currentPath anotherPath,
      e = MinimongoError (msg_both currentPath anotherPath).
Proof.
  induction paths as [|k paths IH]; intros root e; unfold pathsToTree;
    cbn [each]; [discriminate|].
  destruct (add_path_walk newLeafFn root k) as [Ha _]. rewrite Ha.
  destruct (walk _ _ _ _ _ _ root) as [root1|e1] eqn:W; cbn [bind].
  - apply IH.
  - intros [= <-].
    destruct (walk_throw _ _ _ _ _ _ W)
      as [(pre & suffix & _ & _ & _ & _ & ->)|[_ ->]]; eauto.
Qed.

(** X12.  When [_compileProjection] throws, it throws a [MinimongoError]
    with one of its six messages, or, on a specification whose [length]
    is a positive number, the [TypeError] of a call of [split] on a
    number. *)
Theorem compile_errors fields e :
  _compileProjection fields = Throw e ->
  (exists msg, e = MinimongoError msg /\ compile_message msg) \/
  (e = TypeError "keyPath.split is not a function" /\
   positive_length fields = true).
Proof.
  unfold _compileProjection.
  destruct (_checkSupportedProjection fields) as [[]|e0] eqn:Hc; cbn [bind].
  - unfold projectionDetails.
    destruct (each (mode_step fields) (working_keys fields) None)
      as [inc|e1] eqn:Hm; cbn [bind].
    + destruct (pathsToTree _ _ _ _) as [root|e2] eqn:Hp; cbn [bind];
        [discriminate|].
      intros [= <-]. apply paths_throws in Hp as (p & q & ->).
      left. eexists. split; [reflexivity|]. right. eauto.
    + intros [= <-]. apply mode_throws in Hm as ->.
      left. eexists. split; [reflexivity|]. left. cbn [In]. auto 6.
  - intros [= <-]. apply check_throws in Hc as [(msg & -> & Hm)|H].
    + left. exists msg. split; [reflexivity|]. left. cbn [In] in *. tauto.
    + now right.
Qed.

Lemma compile_errors_witness :
  exists msg,
    _compileProjection (VObj [("a", VNum 1); ("a.b", VNum 1)])
    = Throw (MinimongoError msg) /\
    compile_message msg.
Proof.
  destruct (@compile_errors (VObj [("a", VNum 1); ("a.b", VNum 1)])
              (MinimongoError (msg_both "a.b" "a")))
    as [(msg & E & Hm)|[E _]].
  - reflexivity.
  - exists msg. split; [|exact Hm]. now rewrite <- E.
  - discriminate E.
Defined.

(** ** The helpers *)

Lemma is_digit_cases c :
  is_digit c = true ->
  In c ["0"; "1"; "2"; "3"; "4"; "5"; "6"; "7"; "8"; "9"]%char.
Proof.
  destruct c as [[] [] [] [] [] [] [] []]; intros H; try discriminate H;
    simpl; tauto.
Qed.

Lemma all_digits_uint s :
  all_digits s = true -> exists u, NilEmpty.string_of_uint u = s.
Proof.
  induction s as [|c s IH]; simpl.
  - intros _. now exists Decimal.Nil.
  - intros H. apply andb_prop in H as [Hc Hs].
    destruct (IH Hs) as [u <-].
    apply is_digit_cases in Hc.
    simpl in Hc.
    destruct Hc as [<-|[<-|[<-|[<-|[<-|[<-|[<-|[<-|[<-|[<-|[]]]]]]]]]]].
    + now exists (Decimal.D0 u).
    + now exists (Decimal.D1 u).
    + now exists (Decimal.D2 u).
    + now exists (Decimal.D3 u).
    + now exists (Decimal.D4 u).
    + now exists (Decimal.D5 u).
    + now exists (Decimal.D6 u).
    + now exists (Decimal.D7 u).
    + now exists (Decimal.D8 u).
    + now exists (Decimal.D9 u).
Qed.

Lemma uint_all_digits u : all_digits (NilEmpty.string_of_uint u) = true.
Proof. induction u; simpl; auto. Qed.

(** X13.  [isNumericKey] holds exactly of the nonempty strings of decimal
    digits, leading zeros allowed; the index keys of arrays are numeric
    keys, and a numeric key is a path of one segment. *)
Theorem isNumericKey_decimal :
  (forall s, isNumericKey s = true <->
             exists u, u <> Decimal.Nil /\ NilEmpty.string_of_uint u = s) /\
  (forall i, isNumericKey (index_key i) = true) /\
  (forall s, isNumericKey s = true -> split dot s = [s]).
Proof.
  split; [|split].
  - intros s. split.
    + destruct s as [|c s]; [discriminate|]. intros H.
      destruct (all_digits_uint _ H) as [u E]. exists u. split; [|exact E].
      intros ->. discriminate.
    + intros (u & Hu & <-). destruct u; try contradiction;
        exact (uint_all_digits _).
  - intros i. unfold index_key, NilZero.string_of_uint.
    destruct (Nat.to_uint i) as [|u|u|u|u|u|u|u|u|u|u]; try reflexivity;
      exact (uint_all_digits _).
  - intros s H.
    assert (Hd : all_digits s = true) by (destruct s; [discriminate | exact H]).
    clear H. induction s as [|c s IH]; [reflexivity|].
    simpl in Hd. apply andb_prop in Hd as [Hc Hs].
    simpl. rewrite (IH Hs).
    destruct (Ascii.eqb_spec c dot) as [->|Hne]; [discriminate | reflexivity].
Qed.

(** X14.  The flag [inconsistentOK] of [isOperatorObject] only silences
    the inconsistent-operator error.  On a value whose [length] is no
    positive number, the function with the flag always returns: it
    returns what the call without the flag returns when that call
    returns, and [false] when that call throws, which it does with the
    inconsistent-operator error only.  On an object whose [length] is a
    positive number, up to [2^53 - 1], the function throws a [TypeError]
    with the flag as without it. *)
Theorem inconsistentOK_only_silences x :
  (positive_length x = false ->
   (exists b, isOperatorObject x true = Ok b) /\
   (forall b, isOperatorObject x false = Ok b ->
              isOperatorObject x true = Ok b) /\
   (forall e, isOperatorObject x false = Throw e ->
              e = InconsistentOperator x /\
              isOperatorObject x true = Ok false)) /\
  (forall props n inconsistentOK,
      x = VObj props -> assoc_get "length" props = Some (VNum n) ->
      (0 < n <= MAX_ARRAY_INDEX)%Z ->
      isOperatorObject x inconsistentOK
      = Throw (TypeError "selKey.substr is not a function")).
Proof.
  split.
  - intros Hidx.
    destruct (truthy (isPlainObject x)) eqn:Ep.
    2:{ rewrite !isOperatorObject_not_plain by assumption.
        split; [eauto|]. split; [auto | discriminate]. }
    apply isPlainObject_truthy in Ep as [props ->].
    destruct (array_like_length (VObj props)) as [n|] eqn:Hlen.
    { destruct (array_like_inv _ Hlen) as (props' & [= <-] & E & Hn).
      unfold positive_length in Hidx. rewrite E in Hidx.
      apply Z.ltb_ge in Hidx.
      assert (n = 0%Z) by lia. subst n.
      rewrite (@isOperatorObject_length_zero props true E),
              (@isOperatorObject_length_zero props false E).
      split; [eauto|]. split; [auto | discriminate]. }
    rewrite (@isOperatorObject_named props true Hlen),
            (@isOperatorObject_named props false Hlen).
    clear Hlen Hidx. set (x := VObj props).
    destruct props as [|kv rest].
    { cbn [each bind]. split; [eauto|]. split; [auto | discriminate]. }
    assert (Hstart : forall ok,
               each (operator_step x ok) (kv :: rest) None
               = each (operator_step x ok) rest
                      (Some (starts_with_dollar (fst kv)))) by reflexivity.
    rewrite !Hstart, operator_loop_tolerant, operator_loop_strict.
    cbn [bind]. split; [eauto|].
    destruct (starts_with_dollar (fst kv)).
    + assert (Hall : forallb (fun kv0 =>
                                Bool.eqb (starts_with_dollar (fst kv0)) true)
                             rest
                     = forallb (fun kv0 => starts_with_dollar (fst kv0)) rest).
      { clear Hstart. induction rest as [|a l IHl]; [reflexivity|]. simpl.
        rewrite IHl. now destruct (starts_with_dollar (fst a)). }
      rewrite Hall. clear Hall.
      destruct (forallb _ rest); simpl.
      * split; [auto | intros e H; discriminate H].
      * split; [intros b H; discriminate H|]. intros e [= <-]. auto.
    + destruct (forallb _ rest); simpl.
      * split; [auto | intros e H; discriminate H].
      * split; [intros b H; discriminate H|]. intros e [= <-]. auto.
  - intros props n inconsistentOK ->.
    apply isOperatorObject_length_positive.
Qed.

(** ** Documents that are not objects *)

Lemma transform_no_props d doc ruleTree :
  own_props doc = [] -> _isArray doc = false ->
  transform d doc ruleTree = initial_result d doc.
Proof.
  intros Hp Ha. rewrite transform_rules by assumption.
  induction (rules_of ruleTree) as [|[key rule] l IH]; [reflexivity|].
  cbn [fold_left].
  replace (rule_step d _ doc (initial_result d doc) (key, rule))
    with (initial_result d doc); [exact IH|].
  unfold rule_step, has, assoc_has. now rewrite Hp.
Qed.

Lemma compiled_no_props idp d doc :
  own_props doc = [] -> _isArray doc = false ->
  compiled idp d doc = if is_including d then VObj [] else doc.
Proof.
  intros Hp Ha. unfold compiled. cbv zeta.
  rewrite transform_no_props by assumption.
  assert (Hno : has doc "_id" = false) by (unfold has; now rewrite Hp).
  rewrite Hno, andb_false_r. unfold initial_result. rewrite clone_id.
  destruct (is_including d).
  - now rewrite andb_false_r.
  - now rewrite Hno, andb_false_r.
Qed.

(** X15.  On a boolean, a number or a date a compiled projection returns
    the empty object in inclusive mode and the value itself otherwise. *)
Theorem projection_of_scalars fields f d :
  _compileProjection fields = Ok f ->
  projectionDetails fields = Ok d ->
  (forall b, f (VBool b) = if is_including d then VObj [] else VBool b) /\
  (forall n, f (VNum n) = if is_including d then VObj [] else VNum n) /\
  (forall ms, f (VDate ms) = if is_including d then VObj [] else VDate ms).
Proof.
  intros Hc Hd.
  destruct (@compile_inv fields f Hc) as (_ & d' & Hd' & ->).
  assert (d' = d) by congruence. subst d'.
  repeat split; intros; now apply compiled_no_props.
Qed.

Lemma projection_of_scalars_witness :
  exists f g,
    _compileProjection (VObj [("a", VNum 1)]) = Ok f /\
    _compileProjection (VObj [("a", VNum 0)]) = Ok g /\
    f (VNum 5) = VObj [] /\ g (VNum 5) = VNum 5.
Proof.
  pose (d1 := {| tree_of := [("a", Leaf (Some true))];
                 including := Some true |}).
  pose (d0 := {| tree_of := [("a", Leaf (Some false))];
                 including := Some false |}).
  exists (compiled (VBool true) d1), (compiled (VBool true) d0).
  split; [reflexivity|]. split; [reflexivity|]. split.
  - apply (@projection_of_scalars (VObj [("a", VNum 1)]) _ d1); reflexivity.
  - apply (@projection_of_scalars (VObj [("a", VNum 0)]) _ d0); reflexivity.
Defined.

(** ** An excluded identifier next to other fields *)




(** X17.  The order of the keys of a valid specification does not
    matter: the specification with its properties permuted projects every
    document to the same result. *)
Theorem specification_order_irrelevant props props' doc :
  NoDup (keys_of props) -> Permutation props props' ->
  _checkSupportedProjection (VObj props) = Ok tt ->
  apply_projection (VObj props') doc = apply_projection (VObj props) doc.
Proof.
  intros Hnd Hperm Hc. unfold apply_projection.
  now rewrite (compile_order_independent Hnd Hperm Hc).
Qed.

Lemma specification_order_irrelevant_witness :
  apply_projection (VObj [("b", VNum 1); ("a", VNum 1)])
                   (VObj [("a", VNum 1); ("b", VNum 2); ("c", VNum 3)])
  = Ok (VObj [("a", VNum 1); ("b", VNum 2)]).
Proof.
  rewrite (@specification_order_irrelevant
             [("a", VNum 1); ("b", VNum 1)] [("b", VNum 1); ("a", VNum 1)]).
  - reflexivity.
  - simpl. constructor; [simpl; intros [H|[]]; discriminate|].
    constructor; [simpl; tauto | constructor].
  - apply perm_swap.
  - reflexivity.
Defined.

(** ** Conflicts and their resolution *)

Section conflicts.
Variable A : Type.
Variable newLeafFn : string -> A.
Variable conflictFn : tree A -> string -> string -> result (tree A).

(** A walk throws only what [conflictFn] throws, and [conflictFn] is
    called with the path walked so far. *)
Lemma walk_throws keyPath lastKey inner :
  forall seen treePos e,
    walk newLeafFn conflictFn keyPath lastKey seen inner treePos = Throw e ->
    (exists node, conflictFn node keyPath keyPath = Throw e) \/
    (exists node pre suffix,
        pre <> [] /\ suffix <> [] /\
        (inner ++ [lastKey] = pre ++ suffix)%list /\
        conflictFn node (join (seen ++ pre)) keyPath = Throw e).
Proof.
  induction inner as [|key rest IH]; intros seen treePos e; cbn [walk].
  - destruct (assoc_get lastKey treePos) as [old|]; [|discriminate].
    destruct (conflictFn old keyPath keyPath) as [r|e'] eqn:C; cbn [bind];
      [discriminate|].
    intros [= <-]. left. eauto.
  - assert (Hsub : forall children,
               (sub <- walk newLeafFn conflictFn keyPath lastKey
                            (seen ++ [key]) rest children ;;
                Ok (tree_assign key (Node sub) treePos)) = Throw e ->
               (exists node, conflictFn node keyPath keyPath = Throw e) \/
               (exists node pre suffix,
                   pre <> [] /\ suffix <> [] /\
                   ((key :: rest) ++ [lastKey] = pre ++ suffix)%list /\
                   conflictFn node (join (seen ++ pre)) keyPath = Throw e)).
    { intros children.
      destruct (walk _ _ _ _ _ rest children) as [sub|e'] eqn:W; cbn [bind];
        [discriminate|].
      intros [= <-].
      destruct (IH _ _ _ W) as [H|(node & pre & suffix & Hp & Hs & E & C)];
        [now left|].
      right. exists node, (key :: pre), suffix.
      repeat split; try assumption; try discriminate.
      - simpl. now rewrite E.
      - rewrite <- app_assoc in C. exact C. }
    destruct (assoc_get key treePos) as [[a|children]|].
    + destruct (conflictFn (Leaf a) (join (seen ++ [key])) keyPath)
        as [r|e'] eqn:C; cbn [bind].
      * destruct r as [a'|children]; [discriminate | apply Hsub].
      * intros [= <-]. right.
        exists (Leaf a), [key], (rest ++ [lastKey])%list.
        repeat split; try discriminate; try assumption.
        destruct rest; discriminate.
    + apply Hsub.
    + apply Hsub.
Qed.

End conflicts.

Section scalar_conflicts.
Variable A : Type.
Variable newLeafFn : string -> A.
Variable conflictFn : tree A -> string -> string -> result (tree A).
Hypothesis Hscalar :
  forall node path fullPath,
    exists a, conflictFn node path fullPath = Ok (Leaf a).

Lemma covered_cons key q (children sub : list (string * tree A)) :
  assoc_get key children = Some (Node sub) ->
  (covered (key :: q) children <-> covered q sub).
Proof.
  intros E. split.
  - intros (pre & suffix & Eq & Hl). destruct pre as [|k pre]; [contradiction|].
    simpl in Eq. injection Eq as <- ->.
    simpl in Hl. rewrite E in Hl. exists pre, suffix. auto.
  - intros (pre & suffix & -> & Hl). exists (key :: pre), suffix.
    split; [reflexivity|]. simpl. now rewrite E.
Qed.

Lemma covered_other key k q t (children : list (string * tree A)) :
  k <> key ->
  (covered (k :: q) (assoc_set key t children) <-> covered (k :: q) children).
Proof.
  intros Hne. split; intros (pre & suffix & Eq & Hl);
    (destruct pre as [|k' pre]; [contradiction|]);
    simpl in Eq; injection Eq as <- ->;
    exists (k :: pre), suffix; (split; [reflexivity|]).
  - now apply leaf_at_set_other in Hl.
  - now apply leaf_at_set_other.
Qed.

Lemma covered_at_leaf key a rest (children : list (string * tree A)) :
  covered (key :: rest) (assoc_set key (Leaf a) children).
Proof.
  exists [key], rest. split; [reflexivity|].
  apply leaf_at_set_same. reflexivity.
Qed.

Lemma covered_set_leaf key a q (children : list (string * tree A)) :
  covered q children -> covered q (assoc_set key (Leaf a) children).
Proof.
  intros (pre & suffix & -> & Hl).
  destruct pre as [|k pre]; [contradiction|].
  destruct (String.eqb_spec k key) as [->|Hne].
  - apply covered_at_leaf.
  - exists (k :: pre), suffix. split; [reflexivity|].
    now apply leaf_at_set_other.
Qed.

Lemma walk_covers keyPath lastKey inner :
  forall seen treePos,
    exists treePos',
      walk newLeafFn conflictFn keyPath lastKey seen inner treePos
      = Ok treePos' /\
      (~ In "__proto__" (inner ++ [lastKey])%list ->
       covered (inner ++ [lastKey]) treePos') /\
      (forall q, covered q treePos -> covered q treePos').
Proof.
  induction inner as [|key rest IH]; intros seen treePos; cbn [walk app].
  - destruct (assoc_get lastKey treePos) as [old|] eqn:E.
    + destruct (Hscalar old keyPath keyPath) as [a ->]. cbn [bind].
      rewrite (@tree_assign_own _ _ _ _ _ E).
      eexists. split; [reflexivity|].
      split; [intros _; apply covered_at_leaf
             | intros q; apply covered_set_leaf].
    + destruct (String.eqb_spec lastKey "__proto__") as [->|Hne].
      * rewrite tree_assign_proto by assumption.
        eexists. split; [reflexivity|].
        split; [intros H; exfalso; apply H; now left | auto].
      * rewrite tree_assign_plain by assumption.
        eexists. split; [reflexivity|].
        split; [intros _; apply covered_at_leaf
               | intros q; apply covered_set_leaf].
  - assert (Hsub : forall children,
               (assoc_get key treePos = Some (Node children) \/
                (children = [] /\
                 forall q, ~ covered (key :: q) treePos)) ->
               exists sub,
                 walk newLeafFn conflictFn keyPath lastKey
                      (seen ++ [key]) rest children = Ok sub /\
                 (~ In "__proto__" (rest ++ [lastKey])%list ->
                  covered (key :: rest ++ [lastKey])
                          (assoc_set key (Node sub) treePos)) /\
                 (forall q, covered q treePos ->
                            covered q (assoc_set key (Node sub) treePos))).
    { intros children Hc.
      destruct (IH (seen ++ [key])%list children) as (sub & W & Hcov & Hpres).
      exists sub. split; [exact W|].
      assert (Eset : assoc_get key (assoc_set key (Node sub) treePos)
                     = Some (Node sub)) by apply assoc_get_set_same.
      split.
      - intros Hrest. apply (@covered_cons key _ _ _ Eset). now apply Hcov.
      - intros q Hq. destruct q as [|k q].
        { destruct Hq as (pre & suffix & Eq & Hl).
          destruct pre; [contradiction | discriminate]. }
        destruct (String.eqb_spec k key) as [->|Hne].
        + apply (@covered_cons key _ _ _ Eset).
          destruct Hc as [Hc|[-> Hc]].
          * apply Hpres. now apply (@covered_cons key _ _ _ Hc).
          * now apply Hc in Hq.
        + now apply covered_other. }
    destruct (assoc_get key treePos) as [[a|children]|] eqn:E.
    + destruct (Hscalar (Leaf a) (join (seen ++ [key])) keyPath) as [a' ->].
      cbn [bind]. rewrite (@tree_assign_own _ _ _ _ _ E).
      eexists. split; [reflexivity|].
      split; [intros _; apply covered_at_leaf
             | intros q; apply covered_set_leaf].
    + destruct (Hsub children) as (sub & -> & Hcov & Hpres); [now left|].
      cbn [bind]. rewrite (@tree_assign_own _ _ _ _ _ E).
      eexists. split; [reflexivity|]. split; [|exact Hpres].
      intros H. apply Hcov. intros Hin. apply H. now right.
    + destruct (Hsub []) as (sub & -> & Hcov & Hpres).
      { right. split; [reflexivity|].
        intros q (pre & suffix & Eq & Hl).
        destruct pre as [|k pre]; [contradiction|].
        simpl in Eq. injection Eq as <- _. simpl in Hl.
        now rewrite E in Hl. }
      cbn [bind].
      destruct (String.eqb_spec key "__proto__") as [->|Hne].
      * rewrite tree_assign_proto by assumption.
        eexists. split; [reflexivity|].
        split; [intros H; exfalso; apply H; now left | auto].
      * rewrite tree_assign_plain by assumption.
        eexists. split; [reflexivity|]. split; [|exact Hpres].
        intros H. apply Hcov. intros Hin. apply H. now right.
Qed.

Lemma paths_loop_covers paths :
  forall root,
    exists root',
      pathsToTree newLeafFn conflictFn paths root = Ok root' /\
      (forall p, In p paths -> ~ proto_segment p ->
                 covered (split dot p) root') /\
      (forall q, covered q root -> covered q root').
Proof.
  induction paths as [|k paths IH]; intros root; unfold pathsToTree;
    cbn [each].
  - exists root. split; [reflexivity|]. split; [intros p []|auto].
  - unfold add_path.
    destruct (walk_covers k (last (split dot k) "")
                          (removelast (split dot k)) [] root)
      as (root1 & W & Hcov & Hpres).
    rewrite W. cbn [bind].
    rewrite <- app_removelast_last in Hcov by apply split_nonempty.
    destruct (IH root1) as (root' & Hloop & Hin & Hpres').
    exists root'. split; [exact Hloop|]. split.
    + intros p [<-|Hp] Hproto; auto.
    + auto.
Qed.
End scalar_conflicts.

(** X19.  [pathsToTree] throws only what [conflictFn] throws.  The call
    that threw was made for one of the paths, as [fullPath], and with
    [path] either that path, at its last segment, or the first segments of
    it walked so far, joined by dots. *)
Theorem pathsToTree_throws_from_conflictFn (A : Type)
        (newLeafFn : string -> A) conflictFn paths :
  forall root e,
    pathsToTree newLeafFn conflictFn paths root = Throw e ->
    exists node path fullPath,
      In fullPath paths /\
      conflictFn node path fullPath = Throw e /\
      (path = fullPath \/
       exists pre suffix,
         pre <> [] /\ suffix <> [] /\
         split dot fullPath = (pre ++ suffix)%list /\ path = join pre).
Proof.
  induction paths as [|k paths IH]; intros root e; unfold pathsToTree;
    cbn [each]; [discriminate|].
  unfold add_path.
  destruct (walk _ _ _ _ _ _ root) as [root1|e1] eqn:W; cbn [bind].
  - intros H. destruct (IH _ _ H) as (node & path & fullPath & Hin & C & Hp).
    exists node, path, fullPath. split; [now right | auto].
  - intros [= <-].
    assert (Hsplit : (removelast (split dot k) ++ [last (split dot k) ""])%list
                     = split dot k)
      by (symmetry; apply app_removelast_last, split_nonempty).
    destruct (@walk_throws A newLeafFn conflictFn _ _ _ _ _ _ W)
      as [[node C]|(node & pre & suffix & Hp & Hs & E & C)].
    + exists node, k, k. split; [now left | auto].
    + exists node, (join pre), k. split; [now left|]. split; [exact C|].
      right. exists pre, suffix. rewrite <- Hsplit. auto.
Qed.

Lemma pathsToTree_throws_from_conflictFn_witness :
  exists node path fullPath,
    projection_conflict node path fullPath
    = Throw (MinimongoError (msg_both "a.b" "a")).
Proof.
  destruct (@pathsToTree_throws_from_conflictFn (option bool)
              (fun _ => Some true) projection_conflict ["a"; "a.b"] []
              (MinimongoError (msg_both "a.b" "a")))
    as (node & path & fullPath & _ & C & _).
  - reflexivity.
  - exists node, path, fullPath. exact C.
Defined.

(** X20.  With a conflict function that resolves every conflict to a
    scalar, [pathsToTree] always returns a tree, and the tree covers every
    path without a segment [__proto__] and every leaf of the tree it
    started from: each has a prefix, itself maybe, that ends on a
    leaf. *)
Theorem pathsToTree_scalar_resolution (A : Type) (newLeafFn : string -> A)
        conflictFn paths root :
  (forall node path fullPath,
      exists a, conflictFn node path fullPath = Ok (Leaf a)) ->
  exists root',
    pathsToTree newLeafFn conflictFn paths root = Ok root' /\
    (forall p, In p paths -> ~ proto_segment p ->
               covered (split dot p) root') /\
    (forall q, leaf_at q root -> covered q root').
Proof.
  intros Hscalar.
  destruct (@paths_loop_covers A newLeafFn conflictFn Hscalar paths root)
    as (root' & Hloop & Hin & Hpres).
  exists root'. split; [exact Hloop|]. split; [exact Hin|].
  intros q Hq. apply Hpres. exists q, []. split; [|exact Hq].
  now rewrite app_nil_r.
Qed.

Lemma pathsToTree_scalar_resolution_witness :
  exists root',
    pathsToTree (fun _ => true) (fun _ _ _ => Ok (Leaf true))
                ["a.b"; "a"; "a.c.d"] [] = Ok root' /\
    covered ["a"; "c"; "d"] root'.
Proof.
  destruct (@pathsToTree_scalar_resolution bool (fun _ => true)
              (fun _ _ _ => Ok (Leaf true)) ["a.b"; "a"; "a.c.d"] [])
    as (root' & Hloop & Hin & _).
  - intros node path fullPath. now exists true.
  - exists root'. split; [exact Hloop|].
    apply (Hin "a.c.d"); [simpl; auto|].
    unfold proto_segment. simpl. intuition discriminate.
Defined.
